(** * epydoc.docwriter.dotgraph: Graphviz graph descriptions

    A shallow embedding of [src/epydoc/docwriter/dotgraph.py]: the classes
    [DotGraph], [DotGraphNode] and [DotGraphEdge], and the three graph
    builders [package_tree_graph], [class_tree_graph] and [import_graph].

    Python objects that the module mutates in place and shares by reference
    (the attribute dictionaries) live in an explicit heap; class-level
    state ([DotGraph._uids], [DotGraphNode._next_id]), the log and the file
    system are fields of the interpreter state that every method threads. *)

From Stdlib Require Import ZArith String Ascii DecimalString DecimalNat Lia Sorted.
From stdpp Require Import gmap strings list fin_maps sets relations.

Local Open Scope string_scope.
Local Open Scope nat_scope.
Local Open Scope list_scope.
#[local] Set Warnings "-clear-no-such-hyp".

(** ** Python values and their [str] *)

(** Modelled from the spec: [epydoc.apidoc.DottedName] is not among the
    sources; the glossary calls it the fully qualified dotted identifier of
    a module or class.  It is the tuple of its identifiers, printed by
    joining them with a dot and ordered as tuples are. *)
Definition DottedName : Type := list string.

Inductive pyval : Type :=
| VStr (s : string)
| VInt (z : Z)
| VBool (b : bool)
| VName (n : DottedName).

#[global] Instance pyval_eq_dec : EqDecision pyval.
Proof. unfold DottedName. solve_decision. Defined.

Abbreviation dict := (gmap string pyval).

Definition dquote : string := String "034"%char EmptyString.
Definition newline : string := String "010"%char EmptyString.

(** [str(n)] for a non-negative integer, and for any integer. *)
Definition str_of_nat (n : nat) : string :=
  NilEmpty.string_of_uint (Nat.to_uint n).

Definition str_of_Z (z : Z) : string :=
  NilZero.string_of_int (Z.to_int z).

(** ['%s' % v] *)
Definition py_str (v : pyval) : string :=
  match v with
  | VStr s => s
  | VInt z => str_of_Z z
  | VBool true => "True"
  | VBool false => "False"
  | VName n => String.concat "." n
  end.

(** [if url:] on a value that is [None] or a string. *)
Definition truthy (o : option string) : option string :=
  match o with
  | Some EmptyString => None
  | _ => o
  end.

(** ** The character classes and the three regular expressions *)

Definition in_range (lo hi : N) (c : ascii) : bool :=
  (lo <=? N_of_ascii c)%N && (N_of_ascii c <=? hi)%N.

(** [\w] on a byte string without LOCALE or UNICODE: [[a-zA-Z0-9_]]. *)
Definition is_word (c : ascii) : bool :=
  in_range 97 122 c || in_range 65 90 c || in_range 48 57 c
  || (N_of_ascii c =? 95)%N.

(** [\s]: space, tab, newline, carriage return, form feed, vertical tab. *)
Definition is_space (c : ascii) : bool :=
  (N_of_ascii c =? 32)%N || in_range 9 13 c.

(** The class of the single and the double quote. *)
Definition is_quote (c : ascii) : bool :=
  (N_of_ascii c =? 39)%N || (N_of_ascii c =? 34)%N.

(** [[\w\.]] *)
Definition is_name_char (c : ascii) : bool :=
  is_word c || (N_of_ascii c =? 46)%N.

Definition lower_char (c : ascii) : ascii :=
  if in_range 65 90 c then ascii_of_N (N_of_ascii c + 32) else c.

Fixpoint map_string (f : ascii → ascii) (s : string) : string :=
  match s with
  | EmptyString => EmptyString
  | String c s' => String (f c) (map_string f s')
  end.

(** [re.sub(r'\W', '_', title)] *)
Definition sub_nonword (title : string) : string :=
  map_string (fun c => if is_word c then c else "_"%char) title.

(** [s.lower()] *)
Definition lower (s : string) : string := map_string lower_char s.

(** [\s*], greedy: what is left after the leading white space. *)
Fixpoint skip_spaces (s : string) : string :=
  match s with
  | String c s' => if is_space c then skip_spaces s' else s
  | EmptyString => s
  end.

(** An optional quote character, greedy. *)
Definition skip_quote (s : string) : string :=
  match s with
  | String c s' => if is_quote c then s' else s
  | EmptyString => s
  end.

(** [[\w\.]*], greedy: the longest prefix of name characters and the rest. *)
Fixpoint span_name (s : string) : string * string :=
  match s with
  | String c s' =>
      if is_name_char c
      then let '(n, r) := span_name s' in (String c n, r)
      else (EmptyString, s)
  | EmptyString => (EmptyString, EmptyString)
  end.

(** A literal character of a pattern: what follows it in [s], if [s]
    starts with it. *)
Definition expect (c : ascii) (s : string) : option string :=
  match s with
  | String c' s' => if Ascii.eqb c c' then Some s' else None
  | EmptyString => None
  end.

(** A literal word of a pattern. *)
Fixpoint expect_word (w s : string) : option string :=
  match w with
  | EmptyString => Some s
  | String c w' =>
      match expect c s with
      | Some s' => expect_word w' s'
      | None => None
      end
  end.

(** [re.match(r'^<([\w\.]+)>$', s)]: group 1 when the string matches.  The
    dollar sign also matches just before a newline that ends the string. *)
Definition match_placeholder (s : string) : option string :=
  match expect "<" s with
  | Some s1 =>
      match span_name s1 with
      | (EmptyString, _) => None
      | (name, s2) =>
          match expect ">" s2 with
          | Some s3 =>
              if bool_decide (s3 = EmptyString) || bool_decide (s3 = newline)
              then Some name else None
          | None => None
          end
      end
  | None => None
  end.

(** One attempt to match the pattern of [link] at the start of [s]: the
    word href, [\s*], an equals sign, [\s*], an optional quote, [<], group 1
    [([\w\.]+)], [>], an optional quote, [\s*] and group 2 [(,?)].  The
    result is groups 1 and 2 and the text after the match.  Every
    quantifier is followed by a character outside its own class, or by
    nothing that can fail, so the greedy choice is the only one the
    backtracking matcher can succeed with. *)
Definition match_href (s : string) : option (string * string * string) :=
  match expect_word "href" s with
  | Some s1 =>
      match expect "=" (skip_spaces s1) with
      | Some s2 =>
          match expect "<" (skip_quote (skip_spaces s2)) with
          | Some s3 =>
              match span_name s3 with
              | (EmptyString, _) => None
              | (name, s4) =>
                  match expect ">" s4 with
                  | Some s5 =>
                      let s6 := skip_spaces (skip_quote s5) in
                      match expect "," s6 with
                      | Some s7 => Some (name, ",", s7)
                      | None => Some (name, EmptyString, s6)
                      end
                  | None => None
                  end
              end
          | None => None
          end
      | None => None
      end
  | None => None
  end.

(** [re.sub(pattern, subfunc, s)] for the pattern of [match_href]: scan
    from the left, replace every match by [subfunc] of its groups and go on
    after it.  A match is never empty, so [fuel] equal to the length of the
    string is enough (see [re_sub_href_unfold]). *)
Fixpoint re_sub_href_fuel (fuel : nat) (subfunc : string → string → string)
    (s : string) : string :=
  match fuel with
  | O => s
  | S fuel' =>
      match s with
      | EmptyString => EmptyString
      | String c s' =>
          match match_href s with
          | Some (name, comma, rest) =>
              subfunc name comma +:+ re_sub_href_fuel fuel' subfunc rest
          | None => String c (re_sub_href_fuel fuel' subfunc s')
          end
      end
  end.

Definition re_sub_href (subfunc : string → string → string) (s : string)
    : string :=
  re_sub_href_fuel (String.length s) subfunc s.

(** ** The interpreter state *)

Definition loc : Type := nat.

Record PyState : Type := mkState {
  uids : gset string;          (* DotGraph._uids *)
  next_id : nat;               (* DotGraphNode._next_id *)
  heap : gmap loc dict;        (* the attribute dictionaries, by identity *)
  warnings : list string;      (* what log.warning received, oldest first *)
  files : gmap string string;  (* the file system: path to contents *)
  open_files : list string     (* paths of file objects not yet closed *)
}.

Definition set_uids (f : gset string → gset string) (σ : PyState) :=
  mkState (f (uids σ)) (next_id σ) (heap σ) (warnings σ) (files σ)
    (open_files σ).
Definition set_next_id (f : nat → nat) (σ : PyState) :=
  mkState (uids σ) (f (next_id σ)) (heap σ) (warnings σ) (files σ)
    (open_files σ).
Definition set_heap (f : gmap loc dict → gmap loc dict) (σ : PyState) :=
  mkState (uids σ) (next_id σ) (f (heap σ)) (warnings σ) (files σ)
    (open_files σ).
Definition set_warnings (f : list string → list string) (σ : PyState) :=
  mkState (uids σ) (next_id σ) (heap σ) (f (warnings σ)) (files σ)
    (open_files σ).
Definition set_files (f : gmap string string → gmap string string)
    (σ : PyState) :=
  mkState (uids σ) (next_id σ) (heap σ) (warnings σ) (f (files σ))
    (open_files σ).
Definition set_open_files (f : list string → list string) (σ : PyState) :=
  mkState (uids σ) (next_id σ) (heap σ) (warnings σ) (files σ)
    (f (open_files σ)).

Definition initial_state : PyState := mkState ∅ 0 ∅ [] ∅ [].

Inductive exn : Type :=
| ImportError | OSError | IOError | TypeError | KeyError.

(** How a call ends: it returns, it raises, or (for the one loop of the
    module that need not end) the model ran out of fuel. *)
Inductive outcome (A : Type) : Type :=
| Ret (a : A)
| Raise (e : exn)
| OutOfFuel.
Arguments Ret {A} a.
Arguments Raise {A} e.
Arguments OutOfFuel {A}.

(** A computation changes the state and ends in an outcome; the state it
    leaves behind is kept also when it raises. *)
Definition M (A : Type) : Type := PyState → PyState * outcome A.

#[global] Instance M_ret : MRet M := fun A a σ => (σ, Ret a).
#[global] Instance M_bind : MBind M := fun A B k m σ =>
  match m σ with
  | (σ', Ret a) => k a σ'
  | (σ', Raise e) => (σ', Raise e)
  | (σ', OutOfFuel) => (σ', OutOfFuel)
  end.

Definition raise {A} (e : exn) : M A := fun σ => (σ, Raise e).
Definition get_state : M PyState := fun σ => (σ, Ret σ).
Definition modify (f : PyState → PyState) : M unit :=
  fun σ => (f σ, Ret tt).

(** A new dictionary: an identity no live dictionary has. *)
Definition new_dict (d : dict) : M loc := fun σ =>
  let l := fresh (dom (heap σ)) in
  (set_heap (insert l d) σ, Ret l).

(** The dictionary behind a reference. *)
Definition deref (σ : PyState) (l : loc) : dict := heap σ !!! l.

Definition store (l : loc) (d : dict) : M unit :=
  modify (set_heap (insert l d)).

(** [for x in xs: body(x)] *)
Fixpoint for_each {A} (xs : list A) (body : A → M unit) : M unit :=
  match xs with
  | [] => mret tt
  | x :: xs' => body x ;; for_each xs' body
  end.

(** ** The outside world of [render] and [write] *)

(** How the renderer is started: [subprocess.Popen] takes an argument
    vector, [popen2.Popen4] a shell command line. *)
Inductive command : Type :=
| Argv (args : list string)
| Shell (line : string).

(** A child process that exits: what arrives on the channel the parent
    reads ([pipe.stdout], or [pipe.fromchild], which also carries the error
    stream), how many times [poll] still answers [None] once the parent
    has closed the input, the value [wait] returns, and whether the child
    takes its input: for a child that has gone, or has closed its input,
    before the parent has written the graph, [to_child.write] or
    [to_child.close] raises the [IOError] of a broken pipe. *)
Record child : Type := mkChild {
  from_child : string;
  polls_while_running : nat;
  exitval : Z;
  takes_input : bool
}.

(** [from_child.read()]: a [read] without a size blocks until the end of
    the stream and returns all that is left on the channel; nothing is
    left after it. *)
Definition channel_read (unread : string) : string * string :=
  (unread, EmptyString).

(** The first [n] characters of a text, the whole text when it has no
    more. *)
Definition str_take (n : nat) (s : string) : string := substring 0 n s.

Record OS : Type := mkOS {
  has_subprocess : bool;   (* [from subprocess import Popen, PIPE] works *)
  has_popen2 : bool;       (* [from popen2 import Popen4] works *)
  spawn : command → string → option child;
                           (* the child for a command and its input;
                              [None] when it cannot be started *)
  open_raises : string → bool;            (* [open(path, 'w')] fails *)
  write_fails : string → string → option nat;
                           (* [out.write(data)] fails, after so many
                              characters of the data have reached the
                              file *)
  close_fails : string → string → option nat
                           (* [out.close()] fails for the file with this
                              content: flushing it has brought only so
                              many characters to the file *)
}.

(** ** [class DotGraphNode] *)

Module DotGraphNode.

Record t : Type := mk {
  attribs : loc;
  id : nat
}.

#[global] Instance eq_dec : EqDecision t.
Proof. unfold loc. solve_decision. Defined.

(** [DotGraphNode(label, **attribs)]: the keyword arguments arrive in a
    dictionary of their own. *)
Definition __init__ (label : option pyval) (kwargs : dict) : M t :=
  let kwargs :=
    match label with
    | Some v => <["label" := v]> kwargs
    | None => kwargs
    end in
  a ← new_dict kwargs;
  σ ← get_state;
  modify (set_next_id S) ;;
  mret (mk a (next_id σ)).

(** ['%s="%s"' % (k,v)] over [d.items()], joined by commas. *)
Definition join_items (d : dict) : string :=
  String.concat ","
    (map (fun kv => fst kv +:+ "=" +:+ dquote +:+ py_str (snd kv) +:+ dquote)
       (map_to_list d)).

Definition to_dotfile (σ : PyState) (self : t) : string :=
  let attribs := join_items (deref σ (attribs self)) in
  let attribs :=
    if bool_decide (attribs = EmptyString) then attribs
    else " [" +:+ attribs +:+ "]" in
  "node" +:+ str_of_nat (id self) +:+ attribs.

End DotGraphNode.

(** ** [class DotGraphEdge] *)

Module DotGraphEdge.

Record t : Type := mk {
  start : DotGraphNode.t;
  end_ : DotGraphNode.t;
  attribs : loc
}.

Definition __init__ (start end_ : DotGraphNode.t) (label : option pyval)
    (kwargs : dict) : M t :=
  let kwargs :=
    match label with
    | Some v => <["label" := v]> kwargs
    | None => kwargs
    end in
  a ← new_dict kwargs;
  mret (mk start end_ a).

Definition to_dotfile (σ : PyState) (self : t) : string :=
  let attribs := DotGraphNode.join_items (deref σ (attribs self)) in
  let attribs :=
    if bool_decide (attribs = EmptyString) then attribs
    else " [" +:+ attribs +:+ "]" in
  "node" +:+ str_of_nat (DotGraphNode.id (start self)) +:+ " -> node"
    +:+ str_of_nat (DotGraphNode.id (end_ self)) +:+ attribs.

End DotGraphEdge.

(** ** [class DotGraph] *)

Definition DOT_COMMAND : string := "dot".

(** The resolver of cross references: [url_for] is asked for a name in
    [DotGraph.link] and for a documented object in [add_valdoc_nodes]. *)
Definition val_doc : Type := nat.

Inductive target : Type :=
| ByName (name : string)
| ByDoc (d : val_doc).

Record Linker : Type := mkLinker {
  url_for : target → option string
}.

Module DotGraph.

Record t : Type := mk {
  title : string;
  nodes : list DotGraphNode.t;
  edges : list DotGraphEdge.t;
  body : string;
  node_defaults : loc;
  edge_defaults : loc;
  uid : string
}.

Definition set_nodes (ns : list DotGraphNode.t) (g : t) : t :=
  mk (title g) ns (edges g) (body g) (node_defaults g) (edge_defaults g)
    (uid g).
Definition set_edges (es : list DotGraphEdge.t) (g : t) : t :=
  mk (title g) (nodes g) es (body g) (node_defaults g) (edge_defaults g)
    (uid g).
Definition set_body (b : string) (g : t) : t :=
  mk (title g) (nodes g) (edges g) b (node_defaults g) (edge_defaults g)
    (uid g).

(** ['%s_%s' % (uid, n)] *)
Definition suffixed (uid : string) (n : nat) : string :=
  uid +:+ "_" +:+ str_of_nat n.

(** [while ('%s_%s' % (self.uid, n)) in self._uids: n += 1]: the value of
    [n] when the loop ends within [fuel] tests. *)
Fixpoint first_unused (used : gset string) (uid : string) (fuel n : nat)
    : option nat :=
  match fuel with
  | O => None
  | S fuel' =>
      if decide (suffixed uid n ∈ used)
      then first_unused used uid fuel' (S n)
      else Some n
  end.

(** [node_defaults or {}]: the dictionary passed in unless it is missing or
    empty, a new one otherwise. *)
Definition or_new_dict (d : option loc) : M loc :=
  σ ← get_state;
  match d with
  | Some l => if bool_decide (size (deref σ l) = 0) then new_dict ∅ else mret l
  | None => new_dict ∅
  end.

(** [re.sub(r'\W', '_', title).lower()] *)
Definition base_uid (title : string) : string := lower (sub_nonword title).

(** [DotGraph(title, body, node_defaults, edge_defaults)].  The loop that
    looks for an unused suffix gets one test more than there are uids. *)
Definition __init__ (title body : string)
    (node_defaults edge_defaults : option loc) : M t :=
  nd ← or_new_dict node_defaults;
  ed ← or_new_dict edge_defaults;
  σ ← get_state;
  let uid := base_uid title in
  uid ← (if decide (uid ∈ uids σ)
         then match first_unused (uids σ) uid (S (size (uids σ))) 2 with
              | Some n => mret (suffixed uid n)
              | None => fun σ => (σ, OutOfFuel)
              end
         else mret uid);
  modify (set_uids (fun s => s ∪ {[uid]})) ;;
  mret (mk title [] [] body nd ed uid).

(** [_link_href(attribs, docstring_linker)].  [re.match] raises a
    [TypeError] for a value that is not a string. *)
Definition _link_href (attribs : loc) (docstring_linker : Linker) : M unit :=
  σ ← get_state;
  let d := deref σ attribs in
  match d !! "href" with
  | None => mret tt
  | Some (VStr s) =>
      match match_placeholder s with
      | Some name =>
          match truthy (url_for docstring_linker (ByName name)) with
          | Some url => store attribs (<["href" := VStr url]> d)
          | None => store attribs (delete "href" d)
          end
      | None => mret tt
      end
  | Some _ => raise TypeError
  end.

(** The function [subfunc] local to [link]. *)
Definition subfunc (docstring_linker : Linker) (name comma : string)
    : string :=
  match truthy (url_for docstring_linker (ByName name)) with
  | Some url => "href=" +:+ dquote +:+ url +:+ dquote +:+ comma
  | None => EmptyString
  end.

(** [link(docstring_linker)], returning [self] with its new body.  The
    second loop runs over [self.nodes], as the source has it. *)
Definition link (self : t) (docstring_linker : Linker) : M t :=
  _link_href (node_defaults self) docstring_linker ;;
  for_each (nodes self)
    (fun node => _link_href (DotGraphNode.attribs node) docstring_linker) ;;
  _link_href (edge_defaults self) docstring_linker ;;
  for_each (nodes self)
    (fun edge => _link_href (DotGraphNode.attribs edge) docstring_linker) ;;
  mret (set_body (re_sub_href (subfunc docstring_linker) (body self)) self).

Definition to_dotfile (σ : PyState) (self : t) : string :=
  let lines :=
    [ "digraph " +:+ uid self +:+ " {";
      "node [" +:+ DotGraphNode.join_items (deref σ (node_defaults self))
        +:+ "]";
      "edge [" +:+ DotGraphNode.join_items (deref σ (edge_defaults self))
        +:+ "]" ] in
  let lines :=
    if bool_decide (body self = EmptyString) then lines
    else (lines ++ [body self]) in
  let lines := lines ++ ["/* Nodes */"] in
  let lines := lines ++ map (DotGraphNode.to_dotfile σ) (nodes self) in
  let lines := lines ++ ["/* Edges */"] in
  let lines := lines ++ map (DotGraphEdge.to_dotfile σ) (edges self) in
  let lines := lines ++ ["}"] in
  String.concat newline lines.

(** The pipe to the renderer: [subprocess.Popen] when the module can be
    imported, [popen2.Popen4] when only that one can; the import of the
    fallback is not guarded. *)
Definition popen_command (os : OS) (language : string) : option command :=
  if has_subprocess os
  then Some (Argv [DOT_COMMAND; "-T" +:+ language])
  else if has_popen2 os
  then Some (Shell (DOT_COMMAND +:+ " -T" +:+ language))
  else None.

Definition popen (os : OS) (language input : string) : M child :=
  match popen_command os language with
  | None => raise ImportError
  | Some cmd =>
      match spawn os cmd input with
      | Some c => mret c
      | None => raise OSError
      end
  end.

(** [while pipe.poll() is None: result += from_child.read()], on the text
    not yet read: the result and what is still unread. *)
Fixpoint read_while_running (polls : nat) (unread result : string)
    : string * string :=
  match polls with
  | O => (result, unread)
  | S polls' =>
      let '(data, unread) := channel_read unread in
      read_while_running polls' unread (result +:+ data)
  end.

(** [render(language)].  The write to the child and the close of its input
    stand outside the [try]: what they raise leaves [render]. *)
Definition render (os : OS) (self : t) (language : string)
    : M (option string) :=
  σ ← get_state;
  pipe ← popen os language (to_dotfile σ self);
  if negb (takes_input pipe) then raise IOError
  else
    let '(result, unread) :=
      read_while_running (polls_while_running pipe) (from_child pipe)
        EmptyString in
    let '(data, unread) := channel_read unread in
    let result := result +:+ data in
    if bool_decide (exitval pipe ≠ 0%Z)
    then
      let '(data, unread) := channel_read unread in
      modify (set_warnings (fun w =>
        w ++ ["Unable to render Graphviz dot graph:" +:+ newline +:+ data])) ;;
      mret None
    else mret (Some result).

(** [open(filename, 'w')]: the file is created or truncated. *)
Definition py_open (os : OS) (filename : string) : M string :=
  if open_raises os filename then raise IOError
  else
    modify (set_files (insert filename EmptyString)) ;;
    modify (set_open_files (cons filename)) ;;
    mret filename.

(** [out.write(data)]: the data is appended to the file; a write that
    fails has brought a part of the data to the file. *)
Definition file_write (os : OS) (out data : string) : M unit :=
  σ ← get_state;
  let old := default EmptyString (files σ !! out) in
  match write_fails os out data with
  | Some n =>
      modify (set_files (insert out (old +:+ str_take n data))) ;;
      raise IOError
  | None => modify (set_files (insert out (old +:+ data)))
  end.

Fixpoint remove_first (x : string) (l : list string) : list string :=
  match l with
  | [] => []
  | y :: l' => if decide (x = y) then l' else y :: remove_first x l'
  end.

(** [out.close()]: what has been written is flushed to the file and the
    file object is closed.  When the flush fails, [close] raises; the file
    object is closed all the same, and the file holds a part of what was
    written. *)
Definition file_close (os : OS) (out : string) : M unit :=
  σ ← get_state;
  let content := default EmptyString (files σ !! out) in
  modify (set_open_files (remove_first out)) ;;
  match close_fails os out content with
  | Some n =>
      modify (set_files (insert out (str_take n content))) ;;
      raise IOError
  | None => mret tt
  end.

Definition write (os : OS) (self : t) (filename language : string)
    : M bool :=
  s ← render os self language;
  match s with
  | Some s =>
      out ← py_open os filename;
      file_write os out s ;;
      file_close os out ;;
      mret true
  | None => mret false
  end.

End DotGraph.

(** ** The documented objects *)

(** Modelled from the spec: [epydoc.apidoc] and the documentation index are
    not among the sources.  Section 6 of the spec lists what the builders
    read: per object a canonical name and the collections of its submodules,
    its subclasses and its recorded imports, and a lookup from a dotted name
    to an object.  An object is known by its identity ([val_doc]); its
    attributes are functions of it, and [is_ModuleDoc] is the test
    [isinstance(val_doc, ModuleDoc)]. *)
Record APIDoc : Type := mkAPIDoc {
  canonical_name : val_doc → DottedName;
  submodules : val_doc → list val_doc;
  subclasses : val_doc → list val_doc;
  imports : val_doc → list DottedName;
  is_ModuleDoc : val_doc → bool;
  get_valdoc : DottedName → option val_doc
}.

(** The order of dotted names: that of the tuples of their identifiers. *)
Fixpoint name_leb (a b : DottedName) : bool :=
  match a, b with
  | [], _ => true
  | _ :: _, [] => false
  | x :: a', y :: b' =>
      match String.compare x y with
      | Lt => true
      | Gt => false
      | Eq => name_leb a' b'
      end
  end.

(** [sorted(xs, key=key)]: the stable sort, here by insertion from the
    right, so that of two elements with equal keys the earlier stays first. *)
Fixpoint insert_sorted {A} (key : A → DottedName) (x : A) (l : list A)
    : list A :=
  match l with
  | [] => [x]
  | y :: l' =>
      if name_leb (key x) (key y) then x :: y :: l'
      else y :: insert_sorted key x l'
  end.

Definition sorted {A} (key : A → DottedName) (xs : list A) : list A :=
  foldr (insert_sorted key) [] xs.

(** ** The graph builders *)

Section builders.
Context (api : APIDoc).

(** The body of the loop of [add_valdoc_nodes], on the graph and the
    dictionary [nodes] built so far. *)
Definition add_valdoc_node (linker : Linker) (context : option val_doc)
    (acc : DotGraph.t * gmap val_doc DotGraphNode.t) (d : val_doc)
    : M (DotGraph.t * gmap val_doc DotGraphNode.t) :=
  let '(graph, nodes) := acc in
  node ← DotGraphNode.__init__ (Some (VName (canonical_name api d))) ∅;
  let nodes := <[d := node]> nodes in
  let graph :=
    DotGraph.set_nodes (DotGraph.nodes graph ++ [node]) graph in
  (if bool_decide (Some d = context)
   then
     σ ← get_state;
     store (DotGraphNode.attribs node)
       ({[ "fillcolor" := VStr "black"; "fontcolor" := VStr "white";
           "style" := VStr "filled" ]}
        ∪ deref σ (DotGraphNode.attribs node))
   else
     match truthy (url_for linker (ByDoc d)) with
     | Some url =>
         σ ← get_state;
         store (DotGraphNode.attribs node)
           (<["href" := VStr url]> (deref σ (DotGraphNode.attribs node)))
     | None => mret tt
     end) ;;
  mret (graph, nodes).

Fixpoint add_valdoc_nodes_loop (linker : Linker) (context : option val_doc)
    (docs : list val_doc) (acc : DotGraph.t * gmap val_doc DotGraphNode.t)
    : M (DotGraph.t * gmap val_doc DotGraphNode.t) :=
  match docs with
  | [] => mret acc
  | d :: docs' =>
      acc ← add_valdoc_node linker context acc d;
      add_valdoc_nodes_loop linker context docs' acc
  end.

(** [add_valdoc_nodes(graph, val_docs, linker, context)]: the graph with
    its new nodes, and the dictionary from each object to its node. *)
Definition add_valdoc_nodes (graph : DotGraph.t) (val_docs : list val_doc)
    (linker : Linker) (context : option val_doc)
    : M (DotGraph.t * gmap val_doc DotGraphNode.t) :=
  add_valdoc_nodes_loop linker context (sorted (canonical_name api) val_docs)
    (graph, ∅).

(** [for x in queue: queue.extend(children(x)); seen.update(children(x))]:
    the list grows while the loop runs over it, and the loop ends when the
    index reaches its end.  The result is the final queue and set, or
    nothing when [fuel] iterations did not reach the end. *)
Fixpoint expand (children : val_doc → list val_doc) (fuel : nat)
    (queue : list val_doc) (i : nat) (seen : gset val_doc)
    : option (list val_doc * gset val_doc) :=
  match fuel with
  | O => None
  | S fuel' =>
      match queue !! i with
      | None => Some (queue, seen)
      | Some x =>
          expand children fuel' (queue ++ children x) (S i)
            (seen ∪ list_to_set (children x))
      end
  end.

(** [nodes[k]] *)
Definition getitem (nodes : gmap val_doc DotGraphNode.t) (k : val_doc)
    : M DotGraphNode.t :=
  match nodes !! k with
  | Some n => mret n
  | None => raise KeyError
  end.

(** [graph.edges.append(DotGraphEdge(nodes[a], nodes[b]))] *)
Definition append_edge (nodes : gmap val_doc DotGraphNode.t)
    (graph : DotGraph.t) (a b : val_doc) : M DotGraph.t :=
  na ← getitem nodes a;
  nb ← getitem nodes b;
  e ← DotGraphEdge.__init__ na nb None ∅;
  mret (DotGraph.set_edges (DotGraph.edges graph ++ [e]) graph).

Fixpoint append_edges (nodes : gmap val_doc DotGraphNode.t)
    (graph : DotGraph.t) (pairs : list (val_doc * val_doc)) : M DotGraph.t :=
  match pairs with
  | [] => mret graph
  | (a, b) :: pairs' =>
      graph ← append_edge nodes graph a b;
      append_edges nodes graph pairs'
  end.

(** The pairs that [for x in xs: for y in children(x)] runs through. *)
Definition parent_child_pairs (children : val_doc → list val_doc)
    (xs : list val_doc) : list (val_doc * val_doc) :=
  x ← xs; (fun y => (x, y)) <$> children x.

(** [options.get('dir', default)] *)
Definition get_dir (options : gmap string string) (default : string)
    : string :=
  match options !! "dir" with
  | Some d => d
  | None => default
  end.

(** [if options.get('dir', d) != 'TB': graph.body += 'rankdir=%s\n' % ...] *)
Definition add_rankdir (options : gmap string string) (default : string)
    (graph : DotGraph.t) : DotGraph.t :=
  if bool_decide (get_dir options default ≠ "TB")
  then DotGraph.set_body
         (DotGraph.body graph +:+ "rankdir=" +:+ get_dir options default
            +:+ newline) graph
  else graph.

(** The dictionaries written as literals in the three builders. *)
Definition box_defaults : dict :=
  {[ "shape" := VStr "box"; "width" := VInt 0; "height" := VInt 0 ]}.
Definition sametail_defaults : dict := {[ "sametail" := VBool true ]}.

(** Each builder is given twice: with the dictionary [nodes] it keeps in a
    local variable, which says what the node of an object is, and as the
    source returns it, the graph alone.  A set is iterated in the order of
    its [elements], the same each time as long as the set is not changed. *)
Definition package_tree_graph_with_nodes (fuel : nat)
    (packages : list val_doc) (linker : Linker) (context : option val_doc)
    (options : gmap string string)
    : M (DotGraph.t * gmap val_doc DotGraphNode.t) :=
  nd ← new_dict box_defaults;
  ed ← new_dict sametail_defaults;
  graph ← DotGraph.__init__ "Package Tree" EmptyString (Some nd) (Some ed);
  let graph := add_rankdir options "LR" graph in
  match expand (submodules api) fuel packages 0 (list_to_set packages) with
  | None => fun σ => (σ, OutOfFuel)
  | Some (queue, modules) =>
      '(graph, nodes) ← add_valdoc_nodes graph (elements modules) linker
                          context;
      graph ← append_edges nodes graph
                (parent_child_pairs (submodules api) (elements modules));
      mret (graph, nodes)
  end.

Definition package_tree_graph (fuel : nat) (packages : list val_doc)
    (linker : Linker) (context : option val_doc)
    (options : gmap string string) : M DotGraph.t :=
  r ← package_tree_graph_with_nodes fuel packages linker context options;
  mret (fst r).

Definition class_tree_graph_with_nodes (fuel : nat) (bases : list val_doc)
    (linker : Linker) (context : option val_doc)
    (options : gmap string string)
    : M (DotGraph.t * gmap val_doc DotGraphNode.t) :=
  nd ← new_dict box_defaults;
  ed ← new_dict sametail_defaults;
  graph ← DotGraph.__init__ "Class Hierarchy" EmptyString (Some nd) (Some ed);
  let graph := add_rankdir options "LR" graph in
  match expand (subclasses api) fuel bases 0 (list_to_set bases) with
  | None => fun σ => (σ, OutOfFuel)
  | Some (queue, classes) =>
      '(graph, nodes) ← add_valdoc_nodes graph (elements classes) linker
                          context;
      graph ← append_edges nodes graph
                (parent_child_pairs (subclasses api) (elements classes));
      mret (graph, nodes)
  end.

Definition class_tree_graph (fuel : nat) (bases : list val_doc)
    (linker : Linker) (context : option val_doc)
    (options : gmap string string) : M DotGraph.t :=
  r ← class_tree_graph_with_nodes fuel bases linker context options;
  mret (fst r).

(** [for i in range(len(var_name), 0, -1)]: the module found under the
    longest prefix of at most [i] identifiers, if any prefix names one. *)
Fixpoint imported_module (var_name : DottedName) (i : nat)
    : option val_doc :=
  match i with
  | O => None
  | S i' =>
      match get_valdoc api (take i var_name) with
      | Some d =>
          if is_ModuleDoc api d then Some d
          else imported_module var_name i'
      | None => imported_module var_name i'
      end
  end.

(** The set [edges] after the loops over [modules] and their imports. *)
Definition import_edges (modules : list val_doc)
    : gset (val_doc * val_doc) :=
  foldl
    (fun edges dst =>
       foldl
         (fun edges var_name =>
            match imported_module var_name (length var_name) with
            | Some src => edges ∪ {[ (src, dst) ]}
            | None => edges
            end)
         edges (imports api dst))
    ∅ modules.

Definition import_graph_with_nodes (modules : list val_doc)
    (linker : Linker) (context : option val_doc)
    (options : gmap string string)
    : M (DotGraph.t * gmap val_doc DotGraphNode.t) :=
  nd ← new_dict box_defaults;
  ed ← new_dict sametail_defaults;
  graph ← DotGraph.__init__ "Import Graph" EmptyString (Some nd) (Some ed);
  let graph := add_rankdir options "RL" graph in
  '(graph, nodes) ← add_valdoc_nodes graph modules linker context;
  let edges := import_edges modules in
  graph ← append_edges nodes graph
            (filter (fun p => fst p ∈ dom nodes ∧ snd p ∈ dom nodes)
               (elements edges));
  mret (graph, nodes).

Definition import_graph (modules : list val_doc) (linker : Linker)
    (context : option val_doc) (options : gmap string string)
    : M DotGraph.t :=
  r ← import_graph_with_nodes modules linker context options;
  mret (fst r).

(** *** Vocabulary of the statements about the builders *)

(** The two tree builders are one function of the title and of the
    attribute that gives the children. *)
Definition tree_graph_with_nodes (title : string)
    (children : val_doc → list val_doc) (fuel : nat) (roots : list val_doc)
    (linker : Linker) (context : option val_doc)
    (options : gmap string string)
    : M (DotGraph.t * gmap val_doc DotGraphNode.t) :=
  nd ← new_dict box_defaults;
  ed ← new_dict sametail_defaults;
  graph ← DotGraph.__init__ title EmptyString (Some nd) (Some ed);
  let graph := add_rankdir options "LR" graph in
  match expand children fuel roots 0 (list_to_set roots) with
  | None => fun σ => (σ, OutOfFuel)
  | Some (queue, seen) =>
      '(graph, nodes) ← add_valdoc_nodes graph (elements seen) linker
                          context;
      graph ← append_edges nodes graph
                (parent_child_pairs children (elements seen));
      mret (graph, nodes)
  end.

(** The module a dotted name denotes, if it denotes one. *)
Definition module_named (name : DottedName) : option val_doc :=
  match get_valdoc api name with
  | Some d => if is_ModuleDoc api d then Some d else None
  | None => None
  end.

(** [src] is the module under the longest prefix of [var_name] that names
    a module. *)
Definition longest_known_prefix (var_name : DottedName) (src : val_doc)
    : Prop :=
  ∃ j, 1 ≤ j ≤ length var_name ∧
       module_named (take j var_name) = Some src ∧
       ∀ k, j < k ≤ length var_name → module_named (take k var_name) = None.

(** What [add_valdoc_nodes] keeps true of the graph and of its dictionary
    [nodes]: node ids are below the counter and pairwise distinct, every
    node of the dictionary is in the graph and carries the canonical name
    of its object as label, and no node stands for two objects. *)
Definition nodes_inv (g : DotGraph.t) (nodes : gmap val_doc DotGraphNode.t)
    (σ : PyState) : Prop :=
  (∀ n, n ∈ DotGraph.nodes g →
        DotGraphNode.id n < next_id σ ∧
        DotGraphNode.attribs n ∈ dom (heap σ)) ∧
  NoDup (DotGraphNode.id <$> DotGraph.nodes g) ∧
  (∀ d n, nodes !! d = Some n →
          n ∈ DotGraph.nodes g ∧
          deref σ (DotGraphNode.attribs n) !! "label"
          = Some (VName (canonical_name api d))) ∧
  (∀ d1 d2 n, nodes !! d1 = Some n → nodes !! d2 = Some n → d1 = d2).

(** [n] is the node of the object [d]: the builder keeps it under [d] in
    its dictionary, and its label is the canonical name of [d]. *)
Definition is_node_of (σ : PyState) (nodes : gmap val_doc DotGraphNode.t)
    (d : val_doc) (n : DotGraphNode.t) : Prop :=
  nodes !! d = Some n ∧
  deref σ (DotGraphNode.attribs n) !! "label"
  = Some (VName (canonical_name api d)).

(** The graph has one node for each object of [R], and no other. *)
Definition one_node_each (R : val_doc → Prop) (g : DotGraph.t)
    (nodes : gmap val_doc DotGraphNode.t) (σ : PyState) : Prop :=
  ∃ ds, NoDup ds ∧ (∀ d, d ∈ ds ↔ R d) ∧
        Forall2 (is_node_of σ nodes) ds (DotGraph.nodes g) ∧
        NoDup (DotGraphNode.id <$> DotGraph.nodes g).

End builders.

(** ** Vocabulary of the statements *)

(** *** Unique identifiers *)

(** The base uid as the claim words it, character by character and apart
    from the functions of the code: an upper-case letter becomes the
    lower-case one; a lower-case letter, a digit and the underscore stay;
    any other character, not being a word character, becomes an
    underscore. *)
Definition spec_uid_char (c : ascii) : ascii :=
  let n := N_of_ascii c in
  if ((65 <=? n) && (n <=? 90))%N then ascii_of_N (n + 32)
  else if ((97 <=? n) && (n <=? 122))%N then c
  else if ((48 <=? n) && (n <=? 57))%N then c
  else if (n =? 95)%N then c
  else "_"%char.

Definition spec_base_uid (title : string) : string :=
  string_of_list_ascii (spec_uid_char <$> list_ascii_of_string title).

(** The uid that a graph titled [title] gets when [used] are the uids
    issued before: the base uid if it is free, otherwise the base uid with
    the least suffix from 2 on that is free. *)
Definition issued (used : gset string) (title uid : string) : Prop :=
  ((DotGraph.base_uid title ∉ used) ∧ uid = DotGraph.base_uid title) ∨
  (DotGraph.base_uid title ∈ used ∧
   ∃ n, 2 ≤ n ∧ uid = DotGraph.suffixed (DotGraph.base_uid title) n ∧
        (uid ∉ used) ∧
        ∀ k, 2 ≤ k < n →
             DotGraph.suffixed (DotGraph.base_uid title) k ∈ used).

(** The graphs constructed in a run of the process from [σ] to [σ'], in
    the order of their construction.  Between two constructions the
    process may do anything that takes no uid out of the registry. *)
Inductive constructed : PyState → list DotGraph.t → PyState → Prop :=
| constructed_nil σ : constructed σ [] σ
| constructed_init σ gs σ1 title body nd ed σ2 g :
    constructed σ gs σ1 →
    DotGraph.__init__ title body nd ed σ1 = (σ2, Ret g) →
    constructed σ (gs ++ [g]) σ2
| constructed_other σ gs σ1 σ2 :
    constructed σ gs σ1 → uids σ1 ⊆ uids σ2 → constructed σ gs σ2.

(** Two graphs with the title of the example. *)
Definition my_graphs : M (DotGraph.t * DotGraph.t) :=
  g1 ← DotGraph.__init__ "My Graph!" EmptyString None None;
  g2 ← DotGraph.__init__ "My Graph!" EmptyString None None;
  mret (g1, g2).

(** *** Link resolution *)

(** The dictionaries [link] hands to [_link_href], in the order of the
    calls. *)
Definition visited_dicts (g : DotGraph.t) : list loc :=
  DotGraph.node_defaults g
  :: (DotGraphNode.attribs <$> DotGraph.nodes g)
  ++ DotGraph.edge_defaults g
  :: (DotGraphNode.attribs <$> DotGraph.nodes g).

(** The dictionary of an edge is its own: no node and neither set of
    defaults shares it. *)
Definition owns_attribs (g : DotGraph.t) (e : DotGraphEdge.t) : Prop :=
  DotGraphEdge.attribs e ∉ visited_dicts g.

(** The dictionary holds no placeholder: its [href] is missing, or a
    string that is not of the form of a placeholder. *)
Definition resolved (d : dict) : Prop :=
  match d !! "href" with
  | Some (VStr s) => match_placeholder s = None
  | Some _ => False
  | None => True
  end.

Definition same_but_heap (σ σ' : PyState) : Prop :=
  uids σ' = uids σ ∧ next_id σ' = next_id σ ∧ warnings σ' = warnings σ ∧
  files σ' = files σ ∧ open_files σ' = open_files σ.

(** Only the dictionaries in [ls] may differ between the two states. *)
Definition frame (ls : list loc) (σ σ' : PyState) : Prop :=
  same_but_heap σ σ' ∧ ∀ l, l ∉ ls → heap σ' !! l = heap σ !! l.

(** The linker never answers with a URL that is itself a placeholder. *)
Definition urls_are_not_placeholders (linker : Linker) : Prop :=
  ∀ name url, truthy (url_for linker (ByName name)) = Some url →
              match_placeholder url = None.

(** Some suffix of the text starts with a match of the pattern of
    [link]. *)
Fixpoint href_occurs (s : string) : bool :=
  match s with
  | EmptyString => false
  | String c s' =>
      match match_href s with
      | Some _ => true
      | None => href_occurs s'
      end
  end.

Definition starts_with (c : ascii) (s : string) : bool :=
  match s with
  | String c' _ => Ascii.eqb c c'
  | EmptyString => false
  end.

(** The word href occurs in the text. *)
Fixpoint has_href_word (u : string) : bool :=
  match u with
  | EmptyString => false
  | String c u' =>
      match expect_word "href" u with
      | Some _ => true
      | None => has_href_word u'
      end
  end.

(** A URL that cannot be taken for a placeholder, alone or in the body. *)
Definition plain_url (u : string) : Prop :=
  u ≠ EmptyString ∧ starts_with "<" u = false ∧ has_href_word u = false.

(** The linker knows a plain URL for every name. *)
Definition resolves_every_name (linker : Linker) : Prop :=
  ∀ name, ∃ url, url_for linker (ByName name) = Some url ∧ plain_url url.

Fixpoint occurs_in (q : ascii) (w : string) : bool :=
  match w with
  | EmptyString => false
  | String c w' => Ascii.eqb c q || occurs_in q w'
  end.

(** *** The traversal of the tree builders *)

Definition child_of (children : val_doc → list val_doc) : relation val_doc :=
  λ x y, y ∈ children x.

Definition reachable (children : val_doc → list val_doc)
    (roots : list val_doc) (y : val_doc) : Prop :=
  ∃ r, r ∈ roots ∧ rtc (child_of children) r y.

(** The relation is well founded below the roots: a rank decreases from
    every reachable object to each of its children. *)
Definition ranked (children : val_doc → list val_doc)
    (roots : list val_doc) (rank : val_doc → nat) : Prop :=
  ∀ x y, reachable children roots x → y ∈ children x → rank y < rank x.

(** The number of times the traversal dequeues an object of height at
    most [n] and its descendants. *)
Fixpoint tree_size (children : val_doc → list val_doc) (n : nat)
    (x : val_doc) : nat :=
  match n with
  | O => 1
  | S n' => S (sum_list (tree_size children n' <$> children x))
  end.

(** The ends of the paths of at most [n] steps that start at [x], one
    occurrence for each path: [x] itself for the path of no step, and then
    the ends of the paths that start at each child of [x]. *)
Fixpoint path_ends (children : val_doc → list val_doc) (n : nat)
    (x : val_doc) : list val_doc :=
  match n with
  | O => [x]
  | S n' => x :: (children x ≫= path_ends children n')
  end.

(** *** Nodes and edges *)

(** The edge joins the nodes of the two objects. *)
Definition edge_of (nodes : gmap val_doc DotGraphNode.t)
    (p : val_doc * val_doc) (e : DotGraphEdge.t) : Prop :=
  nodes !! p.1 = Some (DotGraphEdge.start e) ∧
  nodes !! p.2 = Some (DotGraphEdge.end_ e).

Definition endpoints (e : DotGraphEdge.t) : DotGraphNode.t * DotGraphNode.t :=
  (DotGraphEdge.start e, DotGraphEdge.end_ e).

(** The state after the allocation of a node with dictionary [dct]. *)
Definition with_new_node (l : loc) (dct : dict) (σ : PyState) : PyState :=
  mkState (uids σ) (S (next_id σ)) (<[l := dct]> (heap σ)) (warnings σ)
    (files σ) (open_files σ).

(** The direction directive of a builder whose direction is [dir]. *)
Definition rankdir_directive (dir : string) : string :=
  if bool_decide (dir ≠ "TB") then "rankdir=" +:+ dir +:+ newline
  else EmptyString.

(** *** Concrete inputs *)

Definition no_linker : Linker := mkLinker (λ _, None).

Definition html_linker : Linker :=
  mkLinker (λ t, match t with
                 | ByName name => Some (name +:+ ".html")
                 | ByDoc _ => None
                 end).

Definition no_names : val_doc → DottedName := λ d, [str_of_nat d].

(** A package and its submodule that list each other. *)
Definition cyclic_api : APIDoc :=
  mkAPIDoc no_names (λ d, match d with 0 => [1] | 1 => [0] | _ => [] end)
    (λ _, []) (λ _, []) (λ _, true) (λ _, None).

(** A diamond of classes: 0 is the base of 1 and 2, which are both bases
    of 3. *)
Definition diamond_api : APIDoc :=
  mkAPIDoc no_names (λ _, [])
    (λ d, match d with 0 => [1; 2] | 1 => [3] | 2 => [3] | _ => [] end)
    (λ _, []) (λ _, true) (λ _, None).

(** Modules 0, 1 and 2 with the names a, a.b and x; module 2 imports
    a.b.c, a.b and a.b.d, and there is no module a.b.c or a.b.d. *)
Definition import_api : APIDoc :=
  mkAPIDoc
    (λ d, match d with 0 => ["a"] | 1 => ["a"; "b"] | _ => ["x"] end)
    (λ _, []) (λ _, [])
    (λ d, match d with
          | 2 => [["a"; "b"; "c"]; ["a"; "b"]; ["a"; "b"; "d"]]
          | _ => []
          end)
    (λ _, true)
    (λ n, if decide (n = ["a"]) then Some 0
          else if decide (n = ["a"; "b"]) then Some 1
          else if decide (n = ["x"]) then Some 2 else None).

(** A package A with the submodules A.B and A.C. *)
Definition package_api : APIDoc :=
  mkAPIDoc
    (λ d, match d with 0 => ["A"] | 1 => ["A"; "B"] | _ => ["A"; "C"] end)
    (λ d, match d with 0 => [1; 2] | _ => [] end)
    (λ _, []) (λ _, []) (λ _, true) (λ _, None).

Definition empty_graph : DotGraph.t :=
  DotGraph.mk "t" [] [] EmptyString 0 1 "t".


(** Two nodes and an edge between them; the first node and the edge both
    carry the placeholder of the name a. *)
Definition graph_with_edge_href : M DotGraph.t :=
  g ← DotGraph.__init__ "g" EmptyString None None;
  a ← DotGraphNode.__init__ (Some (VStr "a")) {[ "href" := VStr "<a>" ]};
  b ← DotGraphNode.__init__ (Some (VStr "b")) ∅;
  e ← DotGraphEdge.__init__ a b None {[ "href" := VStr "<a>" ]};
  mret (DotGraph.set_edges [e] (DotGraph.set_nodes [a; b] g)).

(** The graph and the state that [graph_with_edge_href] leaves in a new
    process, and the state after [link] with a linker that sends every
    name to the same page. *)
Definition edge_href_graph : DotGraph.t :=
  DotGraph.mk "g" [DotGraphNode.mk 2 0; DotGraphNode.mk 3 1]
    [DotGraphEdge.mk (DotGraphNode.mk 2 0) (DotGraphNode.mk 3 1) 4]
    EmptyString 0 1 "g".

Definition edge_href_heap (href : string) : gmap loc dict :=
  list_to_map
    [ (0, ∅); (1, ∅);
      (2, {[ "label" := VStr "a"; "href" := VStr href ]});
      (3, {[ "label" := VStr "b" ]});
      (4, {[ "href" := VStr "<a>" ]}) ].

Definition edge_href_state : PyState :=
  mkState {[ "g" ]} 2 (edge_href_heap "<a>") [] ∅ [].

Definition edge_href_linked : PyState :=
  mkState {[ "g" ]} 2 (edge_href_heap "index.html") [] ∅ [].

Definition index_linker : Linker := mkLinker (λ _, Some "index.html").

Definition bad_renderer : OS :=
  mkOS false true (λ _ _, Some (mkChild "Error: syntax" 1 1 true))
    (λ _, false) (λ _ _, None) (λ _ _, None).


(** A renderer that succeeds, on a disk that takes no data. *)
Definition full_disk : OS :=
  mkOS true true (λ _ _, Some (mkChild "GIF89a" 0 0 true)) (λ _, false)
    (λ _ _, Some 0) (λ _ _, None).

(** A renderer that succeeds, on a disk that takes the data of the write
    into its buffer and has room for three characters when the file is
    closed. *)
Definition nearly_full_disk : OS :=
  mkOS true true (λ _ _, Some (mkChild "GIF89a" 0 0 true)) (λ _, false)
    (λ _ _, None) (λ _ _, Some 3).

(** ** Vocabulary of the further properties *)

(** *** Characters of a uid *)

(** Every character of the string satisfies [p]. *)
Fixpoint all_chars (p : ascii → bool) (s : string) : bool :=
  match s with
  | EmptyString => true
  | String c s' => p c && all_chars p s'
  end.

(** The lower-case letters, the digits and the underscore. *)
Definition is_uid_char (c : ascii) : bool :=
  in_range 97 122 c || in_range 48 57 c || (N_of_ascii c =? 95)%N.

(** *** Nodes made in one run *)

(** The nodes constructed in a run of the process from [σ] to [σ'], in the
    order of their construction.  Between two constructions the process may
    do anything that neither lowers the counter of [DotGraphNode] nor
    forgets a dictionary. *)
Inductive nodes_constructed
    : PyState → list DotGraphNode.t → PyState → Prop :=
| nodes_constructed_nil σ : nodes_constructed σ [] σ
| nodes_constructed_init σ ns σ1 label kwargs σ2 n :
    nodes_constructed σ ns σ1 →
    DotGraphNode.__init__ label kwargs σ1 = (σ2, Ret n) →
    nodes_constructed σ (ns ++ [n]) σ2
| nodes_constructed_other σ ns σ1 σ2 :
    nodes_constructed σ ns σ1 →
    next_id σ1 ≤ next_id σ2 → dom (heap σ1) ⊆ dom (heap σ2) →
    nodes_constructed σ ns σ2.

(** *** What [link] does to a dictionary *)



(** Between the two states only values under [href] may differ. *)
Definition only_href_differs (σ σ' : PyState) : Prop :=
  same_but_heap σ σ' ∧ dom (heap σ') = dom (heap σ) ∧
  ∀ l k, k ≠ "href" → deref σ' l !! k = deref σ l !! k.

(** The text does not start with a character that the end of the pattern
    of [link] would take: a quote, white space or a comma. *)
Definition starts_plain (s : string) : bool :=
  match s with
  | EmptyString => true
  | String c _ => negb (is_quote c || is_space c || Ascii.eqb c ",")
  end.


(** A graph whose body holds a placeholder in an attribute list. *)
Definition body_href_graph : DotGraph.t :=
  DotGraph.mk "t" [] [] "n [shape=box, href=<a.b>, label=x]" 0 1 "t".

(** A system without [subprocess] and without [popen2], and one on which
    the renderer cannot be started. *)
Definition no_popen : OS :=
  mkOS false false (λ _ _, None) (λ _, false) (λ _ _, None) (λ _ _, None).
Definition no_dot : OS :=
  mkOS true true (λ _ _, None) (λ _, false) (λ _ _, None) (λ _ _, None).

(** *** The dictionary of a node that [add_valdoc_nodes] makes *)

(** The attributes [add_valdoc_nodes] gives the node of the object [d]:
    the canonical name as label; for the context object the three
    attributes that fill it black; for any other object an [href] when the
    linker has a URL for the object that is not empty. *)
Definition node_attribs (api : APIDoc) (linker : Linker)
    (context : option val_doc) (d : val_doc) : dict :=
  let label : dict := {[ "label" := VName (canonical_name api d) ]} in
  if bool_decide (Some d = context)
  then {[ "fillcolor" := VStr "black"; "fontcolor" := VStr "white";
          "style" := VStr "filled" ]} ∪ label
  else
    match truthy (url_for linker (ByDoc d)) with
    | Some url => <["href" := VStr url]> label
    | None => label
    end.

(** *** The order of the nodes *)

(** The order in which [sorted] puts two objects: that of their keys. *)
Definition name_le {A} (key : A → DottedName) (x y : A) : Prop :=
  name_leb (key x) (key y) = true.

(** The decimal digits. *)
Definition is_digit (c : ascii) : bool := in_range 48 57 c.

(** * Theorems *)

(** ** The monad *)

Ltac unM :=
  unfold mbind, M_bind, mret, M_ret, raise, get_state, modify, store,
    new_dict in *.

(** ** The definitions on concrete inputs *)

Example base_uid_example : DotGraph.base_uid "My Graph!" = "my_graph_".
Proof. reflexivity. Qed.

Example match_placeholder_examples :
  match_placeholder "<a.b>" = Some "a.b" ∧
  match_placeholder ("<a>" +:+ newline) = Some "a" ∧
  match_placeholder "<a.b> " = None ∧
  match_placeholder "<>" = None ∧
  match_placeholder "x<a>" = None.
Proof. by vm_compute. Qed.

Example match_href_examples :
  match_href "href = '<x.y>' , rest" = Some ("x.y", ",", " rest") ∧
  match_href "href=<a>b" = Some ("a", EmptyString, "b") ∧
  match_href "href=<>" = None ∧
  match_href "Href=<a>" = None.
Proof. by vm_compute. Qed.

(** The substitution in the body: a name the linker knows becomes a quoted
    URL and keeps its comma, a name it does not know goes away with its
    comma. *)
Example re_sub_href_examples :
  re_sub_href (DotGraph.subfunc html_linker)
    "a [href=<x.y>, label=b]; c [href = '<z>']"
  = "a [href=" +:+ dquote +:+ "x.y.html" +:+ dquote
    +:+ ", label=b]; c [href=" +:+ dquote +:+ "z.html" +:+ dquote +:+ "]" ∧
  re_sub_href (DotGraph.subfunc no_linker) "a [href=<x.y>, label=b]"
  = "a [ label=b]".
Proof. by vm_compute. Qed.

(** The text of a graph with two nodes and an edge, after [link]. *)
Example to_dotfile_example :
  DotGraph.to_dotfile edge_href_linked edge_href_graph
  = String.concat newline
      [ "digraph g {";
        "node []";
        "edge []";
        "/* Nodes */";
        "node0 [label=" +:+ dquote +:+ "a" +:+ dquote
          +:+ ",href=" +:+ dquote +:+ "index.html" +:+ dquote +:+ "]";
        "node1 [label=" +:+ dquote +:+ "b" +:+ dquote +:+ "]";
        "/* Edges */";
        "node0 -> node1 [href=" +:+ dquote +:+ "<a>" +:+ dquote +:+ "]";
        "}" ].
Proof. by vm_compute. Qed.

(** The package tree of A, A.B and A.C: three nodes in the order of their
    names and an edge from the package to each submodule. *)
Example package_tree_graph_example :
  ∃ σ g,
    package_tree_graph package_api 4 [0] no_linker None ∅ initial_state
    = (σ, Ret g) ∧
    DotGraph.uid g = "package_tree" ∧
    DotGraph.body g = "rankdir=LR" +:+ newline ∧
    DotGraphNode.to_dotfile σ <$> DotGraph.nodes g
    = [ "node0 [label=" +:+ dquote +:+ "A" +:+ dquote +:+ "]";
        "node1 [label=" +:+ dquote +:+ "A.B" +:+ dquote +:+ "]";
        "node2 [label=" +:+ dquote +:+ "A.C" +:+ dquote +:+ "]" ] ∧
    DotGraphEdge.to_dotfile σ <$> DotGraph.edges g
    = [ "node0 -> node1"; "node0 -> node2" ].
Proof. eexists _, _. split; [by vm_compute|]. by vm_compute. Qed.

Lemma bind_ret {A B} (m : M A) (k : A -> M B) σ σ' a :
  m σ = (σ', Ret a) -> (m ≫= k) σ = k a σ'.
Proof. intros H. unfold mbind, M_bind. by rewrite H. Qed.

Lemma bind_raise {A B} (m : M A) (k : A → M B) σ σ' e :
  m σ = (σ', Raise e) → (m ≫= k) σ = (σ', Raise e).
Proof. intros H. unfold mbind, M_bind. by rewrite H. Qed.

Lemma bind_out_of_fuel {A B} (m : M A) (k : A → M B) σ σ' :
  m σ = (σ', OutOfFuel) → (m ≫= k) σ = (σ', OutOfFuel).
Proof. intros H. unfold mbind, M_bind. by rewrite H. Qed.

Lemma bind_inv {A B} (m : M A) (k : A → M B) σ σ' b :
  (m ≫= k) σ = (σ', Ret b) →
  ∃ σ1 a, m σ = (σ1, Ret a) ∧ k a σ1 = (σ', Ret b).
Proof.
  unfold mbind, M_bind. destruct (m σ) as [σ1 [a| |]]; [eauto|done|done].
Qed.

Lemma bind_cong {A B} (m : M A) (k1 k2 : A → M B) σ :
  (∀ a σ', m σ = (σ', Ret a) → k1 a σ' = k2 a σ') →
  (m ≫= k1) σ = (m ≫= k2) σ.
Proof.
  intros H. unfold mbind, M_bind.
  destruct (m σ) as [σ' [a| |]]; [by apply H|done|done].
Qed.

Lemma bind_assoc {A B C} (m : M A) (f : A → M B) (k : B → M C) σ :
  ((m ≫= f) ≫= k) σ = (m ≫= λ a, f a ≫= k) σ.
Proof.
  unfold mbind, M_bind. by destruct (m σ) as [σ' [a| |]].
Qed.

Lemma new_dict_run d σ :
  new_dict d σ
  = (set_heap (insert (fresh (dom (heap σ))) d) σ, Ret (fresh (dom (heap σ)))).
Proof. reflexivity. Qed.

(** ** Strings *)

Lemma string_app_cons (c : ascii) (s t : string) :
  String c s +:+ t = String c (s +:+ t).
Proof. reflexivity. Qed.

Lemma string_app_nil_r (s : string) : s +:+ EmptyString = s.
Proof. induction s as [|c s IH]; [done|]. by rewrite string_app_cons, IH. Qed.

Lemma string_app_assoc (a b c : string) : (a +:+ b) +:+ c = a +:+ (b +:+ c).
Proof. induction a as [|x a IH]; [done|]. by rewrite !string_app_cons, IH. Qed.

Lemma str_of_nat_inj n m : str_of_nat n = str_of_nat m -> n = m.
Proof.
  unfold str_of_nat. intros H.
  apply (f_equal NilEmpty.uint_of_string) in H.
  rewrite !NilEmpty.usu in H. injection H as H.
  apply (f_equal Nat.of_uint) in H.
  by rewrite !DecimalNat.Unsigned.of_to in H.
Qed.

Lemma append_inj_r (p a b : string) : p +:+ a = p +:+ b -> a = b.
Proof. induction p as [|c p IH]; simpl; [done|]. intros [= H]. auto. Qed.

Lemma suffixed_inj uid n m :
  DotGraph.suffixed uid n = DotGraph.suffixed uid m -> n = m.
Proof.
  unfold DotGraph.suffixed. intros H.
  apply append_inj_r in H. apply (append_inj_r "_") in H.
  by apply str_of_nat_inj.
Qed.

(** ** Unique identifiers of graphs *)

Lemma first_unused_spec used uid fuel : forall n (X : gset string),
  (forall k, n <= k -> DotGraph.suffixed uid k ∈ used ->
             DotGraph.suffixed uid k ∈ X) ->
  size X < fuel ->
  exists m, DotGraph.first_unused used uid fuel n = Some m /\ n <= m /\
    (DotGraph.suffixed uid m ∉ used) /\
    forall k, n <= k < m -> DotGraph.suffixed uid k ∈ used.
Proof.
  induction fuel as [|fuel IH]; intros n X HX Hsz; [lia|].
  simpl. destruct (decide (DotGraph.suffixed uid n ∈ used)) as [Hin|Hnin].
  - destruct (IH (S n) (X ∖ {[DotGraph.suffixed uid n]})) as (m & Hm & Hle & Hout & Hall).
    + intros k Hk Hk'. apply elem_of_difference. split; [apply HX; [lia|done]|].
      rewrite elem_of_singleton. intros E. apply suffixed_inj in E. lia.
    + assert (DotGraph.suffixed uid n ∈ X) by (apply HX; [lia|done]).
      assert (size X = size (X ∖ {[DotGraph.suffixed uid n]}) + 1); [|lia].
      rewrite (size_difference X {[DotGraph.suffixed uid n]}).
      * rewrite size_singleton.
        assert (size X ≠ 0); [|lia]. intros E. apply size_empty_inv in E.
        set_solver.
      * set_solver.
    + exists m. split; [done|]. split; [lia|]. split; [done|].
      intros k Hk. destruct (decide (k = n)) as [->|]; [done|]. apply Hall. lia.
  - exists n. split; [done|]. split; [lia|]. split; [done|]. intros k Hk. lia.
Qed.

Lemma or_new_dict_run d σ :
  ∃ l σ', DotGraph.or_new_dict d σ = (σ', Ret l) ∧ uids σ' = uids σ.
Proof.
  unfold DotGraph.or_new_dict. unM.
  destruct d as [l|]; [case_bool_decide|]; eauto.
Qed.

Lemma init_run title body nd ed σ :
  ∃ g σ', DotGraph.__init__ title body nd ed σ = (σ', Ret g) ∧
    uids σ' = uids σ ∪ {[DotGraph.uid g]} ∧
    issued (uids σ) title (DotGraph.uid g) ∧
    DotGraph.title g = title ∧ DotGraph.body g = body ∧
    DotGraph.nodes g = [] ∧ DotGraph.edges g = [].
Proof.
  unfold DotGraph.__init__.
  destruct (or_new_dict_run nd σ) as (l1 & σ1 & E1 & U1).
  destruct (or_new_dict_run ed σ1) as (l2 & σ2 & E2 & U2).
  unfold mbind at 1, M_bind at 1. rewrite E1.
  unfold mbind at 1, M_bind at 1. rewrite E2.
  unM. rewrite U2, U1.
  destruct (decide (DotGraph.base_uid title ∈ uids σ)) as [Hin|Hout].
  - destruct (first_unused_spec (uids σ) (DotGraph.base_uid title)
                (S (size (uids σ))) 2 (uids σ)) as (m & -> & Hm & Hfree & Hused);
      [auto|lia|].
    eexists _, _. split; [reflexivity|]. simpl. rewrite U2, U1.
    repeat split; try done. right. split; [done|]. exists m. eauto.
  - eexists _, _. split; [reflexivity|]. simpl. rewrite U2, U1.
    repeat split; try done. left. done.
Qed.

Lemma issued_fresh used title uid : issued used title uid → uid ∉ used.
Proof. intros [[? ->]|[? (n & ? & ? & ? & ?)]]; done. Qed.

Lemma constructed_inv σ gs σ' :
  constructed σ gs σ' →
  NoDup (DotGraph.uid <$> gs) ∧ ∀ g, g ∈ gs → DotGraph.uid g ∈ uids σ'.
Proof.
  induction 1 as [σ|σ gs σ1 title body nd ed σ2 g _ [IH1 IH2] Hinit
                 |σ gs σ1 σ2 _ [IH1 IH2] Hsub].
  - split; [constructor|]. intros g Hg. by apply elem_of_nil in Hg.
  - destruct (init_run title body nd ed σ1) as (g' & σ' & E & U & Hiss & _).
    rewrite E in Hinit. injection Hinit as -> ->.
    apply issued_fresh in Hiss. split.
    + rewrite fmap_app. apply NoDup_app. split; [done|]. split.
      * intros u Hu Hu'. apply list_elem_of_fmap in Hu as (g1 & -> & Hg1).
        simpl in Hu'. apply list_elem_of_singleton in Hu'.
        apply IH2 in Hg1. congruence.
      * simpl. apply NoDup_singleton.
    + intros g1 Hg1. rewrite U. apply elem_of_app in Hg1 as [Hg1|Hg1].
      * apply IH2 in Hg1. set_solver.
      * apply list_elem_of_singleton in Hg1 as ->. set_solver.
  - split; [done|]. intros g Hg. apply Hsub. auto.
Qed.

Lemma base_uid_char c :
  lower_char (if is_word c then c else "_"%char) = spec_uid_char c.
Proof. by destruct c as [[] [] [] [] [] [] [] []]. Qed.

Lemma base_uid_spec title : DotGraph.base_uid title = spec_base_uid title.
Proof.
  unfold DotGraph.base_uid, lower, sub_nonword, spec_base_uid.
  induction title as [|c title IH]; [done|].
  change (String (lower_char (if is_word c then c else "_"%char))
            (map_string lower_char
               (map_string (λ c, if is_word c then c else "_"%char) title))
          = String (spec_uid_char c)
              (string_of_list_ascii
                 (spec_uid_char <$> list_ascii_of_string title))).
  by rewrite base_uid_char, IH.
Qed.

(** C1.  The constructor always returns.  The base uid that it derives
    from the title is the title with every upper-case letter lowercased
    and every character that is not a word character replaced by an
    underscore; the uid of the new graph is that base uid when it is not
    in the registry, and otherwise the base uid with the least suffix
    [_2], [_3], ... that is not in it; the uid joins the registry.  The
    graphs constructed in one run of the process have pairwise distinct
    uids, and two graphs titled My Graph! in a new process get my_graph_
    and my_graph__2. *)
Theorem DotGraph_uids_pairwise_distinct :
  (∀ title body nd ed σ, ∃ g σ',
      DotGraph.__init__ title body nd ed σ = (σ', Ret g) ∧
      DotGraph.base_uid title = spec_base_uid title ∧
      issued (uids σ) title (DotGraph.uid g) ∧
      uids σ' = uids σ ∪ {[DotGraph.uid g]}) ∧
  (∀ σ gs σ', constructed σ gs σ' → NoDup (DotGraph.uid <$> gs)) ∧
  (∃ σ' g1 g2,
      my_graphs initial_state = (σ', Ret (g1, g2)) ∧
      DotGraph.uid g1 = "my_graph_" ∧ DotGraph.uid g2 = "my_graph__2").
Proof.
  split; [|split].
  - intros. destruct (init_run title body nd ed σ) as (g & σ' & ? & ? & ? & _).
    exists g, σ'. split; [done|]. split; [apply base_uid_spec|done].
  - intros σ gs σ' H. by apply constructed_inv in H as [? _].
  - eexists _, _, _. split; [vm_compute; reflexivity|]. by split.
Qed.

Lemma DotGraph_uids_pairwise_distinct_witness :
  ∃ σ1 g1 σ2 g2,
    DotGraph.__init__ "My Graph!" EmptyString None None initial_state
    = (σ1, Ret g1) ∧
    DotGraph.__init__ "My Graph!" EmptyString None None σ1 = (σ2, Ret g2) ∧
    NoDup (DotGraph.uid <$> [g1; g2]).
Proof.
  eexists _, _, _, _. split; [vm_compute; reflexivity|].
  split; [vm_compute; reflexivity|].
  eapply (proj1 (proj2 DotGraph_uids_pairwise_distinct) initial_state).
  eapply (constructed_init initial_state [_] _ "My Graph!" EmptyString None
            None).
  - eapply (constructed_init initial_state [] initial_state "My Graph!"
              EmptyString None None); [apply constructed_nil|].
    vm_compute. reflexivity.
  - vm_compute. reflexivity.
Defined.

(** ** Rendering *)

Lemma read_while_running_drained polls : ∀ result,
  DotGraph.read_while_running polls EmptyString result
  = (result, EmptyString).
Proof.
  induction polls as [|polls IH]; intros result; [done|].
  change (DotGraph.read_while_running polls EmptyString
            (result +:+ EmptyString) = (result, EmptyString)).
  by rewrite IH, string_app_nil_r.
Qed.

Lemma read_while_running_all polls unread result :
  DotGraph.read_while_running (S polls) unread result
  = (result +:+ unread, EmptyString).
Proof.
  change (DotGraph.read_while_running polls EmptyString (result +:+ unread)
          = (result +:+ unread, EmptyString)).
  apply read_while_running_drained.
Qed.

(** What [render] does with a child that has been started. *)
Lemma render_run os self language σ cmd c :
  DotGraph.popen_command os language = Some cmd →
  spawn os cmd (DotGraph.to_dotfile σ self) = Some c →
  DotGraph.render os self language σ
  = if negb (takes_input c) then (σ, Raise IOError)
    else if bool_decide (exitval c ≠ 0%Z)
    then (set_warnings
            (λ w, w ++ ["Unable to render Graphviz dot graph:" +:+ newline])
            σ, Ret None)
    else (σ, Ret (Some (from_child c))).
Proof.
  intros Hcmd Hspawn. unfold DotGraph.render, DotGraph.popen.
  unM. rewrite Hcmd, Hspawn.
  destruct (takes_input c); [|done]. cbv beta iota delta [negb].
  destruct (polls_while_running c) as [|polls].
  - cbv beta iota delta [DotGraph.read_while_running channel_read].
    by case_bool_decide.
  - rewrite read_while_running_all.
    cbv beta iota delta [channel_read].
    change (EmptyString +:+ from_child c) with (from_child c).
    rewrite !string_app_nil_r. by case_bool_decide.
Qed.




(** ** Serialization *)

(** C8, as amended.  The text of a graph without nodes, edges and body is
    the header with the uid, the line of the node defaults, the line of the
    edge defaults, the two comment lines that open the sections of the
    nodes and of the edges, and the closing brace, and nothing else. *)
Theorem to_dotfile_of_empty_graph σ (g : DotGraph.t) :
  DotGraph.nodes g = [] → DotGraph.edges g = [] →
  DotGraph.body g = EmptyString →
  DotGraph.to_dotfile σ g
  = String.concat newline
      [ "digraph " +:+ DotGraph.uid g +:+ " {";
        "node [" +:+ DotGraphNode.join_items (deref σ (DotGraph.node_defaults g))
          +:+ "]";
        "edge [" +:+ DotGraphNode.join_items (deref σ (DotGraph.edge_defaults g))
          +:+ "]";
        "/* Nodes */";
        "/* Edges */";
        "}" ].
Proof.
  intros Hn He Hb. unfold DotGraph.to_dotfile. rewrite Hn, He, Hb.
  reflexivity.
Qed.

Lemma to_dotfile_of_empty_graph_witness :
  DotGraph.to_dotfile initial_state empty_graph
  = String.concat newline
      [ "digraph t {"; "node []"; "edge []"; "/* Nodes */"; "/* Edges */";
        "}" ].
Proof.
  exact (to_dotfile_of_empty_graph initial_state empty_graph eq_refl eq_refl
           eq_refl).
Defined.

(** C8 as it is stated fails: the text of the empty graph is not the four
    lines of header, node defaults, edge defaults and closing brace. *)
Lemma to_dotfile_has_section_comments :
  DotGraph.to_dotfile initial_state empty_graph
  ≠ String.concat newline ["digraph t {"; "node []"; "edge []"; "}"].
Proof. vm_compute. discriminate. Qed.

(** ** Writing the rendered graph to a file *)

Lemma render_keeps_files os self language σ σ' out :
  DotGraph.render os self language σ = (σ', out) →
  files σ' = files σ ∧ open_files σ' = open_files σ ∧ heap σ' = heap σ.
Proof.
  destruct (DotGraph.popen_command os language) as [cmd|] eqn:Hcmd.
  - destruct (spawn os cmd (DotGraph.to_dotfile σ self)) as [c|] eqn:Hspawn.
    + rewrite (render_run _ _ _ _ _ _ Hcmd Hspawn).
      destruct (takes_input c); [|by intros [= <- _]].
      cbv beta iota delta [negb]. case_bool_decide; by intros [= <- _].
    + unfold DotGraph.render, DotGraph.popen. unM. rewrite Hcmd, Hspawn.
      by intros [= <- _].
  - unfold DotGraph.render, DotGraph.popen. unM. rewrite Hcmd.
    by intros [= <- _].
Qed.

(** C9, as amended.  [write] calls [render] and returns whether it
    succeeded.  When rendering fails it returns [False] and touches no
    file; what [render] raises leaves [write].  When rendering succeeds
    the file is opened, written and closed, and when all three succeed
    [write] returns [True], with the result in the file and no file object
    left open.  If [open] raises, no file object is left behind; if the
    write raises, the exception leaves [write] with the file created,
    holding the part of the result that the write brought to it, and
    still open; if [close] raises, the exception leaves [write] with the
    file object closed and the file holding the part of the result that
    was flushed. *)
Theorem write_returns_render_success os self filename language σ :
  match DotGraph.render os self language σ with
  | (σ1, Ret None) =>
      DotGraph.write os self filename language σ = (σ1, Ret false) ∧
      files σ1 = files σ ∧ open_files σ1 = open_files σ
  | (σ1, Ret (Some s)) =>
      if open_raises os filename
      then DotGraph.write os self filename language σ = (σ1, Raise IOError) ∧
           files σ1 = files σ ∧ open_files σ1 = open_files σ
      else
        match write_fails os filename s with
        | Some n =>
            ∃ σ2,
              DotGraph.write os self filename language σ
              = (σ2, Raise IOError) ∧
              files σ2 = <[filename := str_take n s]> (files σ) ∧
              open_files σ2 = filename :: open_files σ
        | None =>
            match close_fails os filename s with
            | Some n =>
                ∃ σ2,
                  DotGraph.write os self filename language σ
                  = (σ2, Raise IOError) ∧
                  files σ2 = <[filename := str_take n s]> (files σ) ∧
                  open_files σ2 = open_files σ
            | None =>
                ∃ σ2,
                  DotGraph.write os self filename language σ
                  = (σ2, Ret true) ∧
                  files σ2 = <[filename := s]> (files σ) ∧
                  open_files σ2 = open_files σ
            end
        end
  | (σ1, Raise e) =>
      DotGraph.write os self filename language σ = (σ1, Raise e)
  | (σ1, OutOfFuel) =>
      DotGraph.write os self filename language σ = (σ1, OutOfFuel)
  end.
Proof.
  unfold DotGraph.write.
  destruct (DotGraph.render os self language σ) as [σ1 out] eqn:E.
  destruct (render_keeps_files _ _ _ _ _ _ E) as (Hf & Ho & _).
  destruct out as [[s|]| |].
  - rewrite (bind_ret _ _ _ _ _ E).
    unfold DotGraph.py_open, DotGraph.file_write, DotGraph.file_close.
    destruct (open_raises os filename) eqn:Eo; [done|].
    unM. simpl. rewrite lookup_insert_eq. simpl.
    change (EmptyString +:+ ?x) with x.
    destruct (write_fails os filename s) as [n|] eqn:Ew.
    + eexists. split; [reflexivity|]. simpl.
      by rewrite insert_insert_eq, Hf, Ho.
    + simpl. rewrite lookup_insert_eq. simpl.
      destruct (close_fails os filename s) as [n|] eqn:Ec.
      * eexists. split; [reflexivity|]. simpl.
        rewrite !insert_insert_eq, decide_True by done. by rewrite Hf, Ho.
      * eexists. split; [reflexivity|]. simpl.
        rewrite insert_insert_eq, decide_True by done. by rewrite Hf, Ho.
  - by rewrite (bind_ret _ _ _ _ _ E).
  - by apply bind_raise.
  - by apply bind_out_of_fuel.
Qed.

(** C9 as it is stated fails: when the write raises, the file object is
    not closed. *)
Lemma write_leaves_file_open :
  ∃ σ', DotGraph.write full_disk empty_graph "t.gif" "gif" initial_state
        = (σ', Raise IOError) ∧
        open_files σ' = ["t.gif"].
Proof. eexists. split; vm_compute; reflexivity. Qed.

(** When the flush of [close] fails, [write] raises although the result was
    rendered and written, and the file holds a part of it. *)
Example write_raises_when_close_fails :
  ∃ σ', DotGraph.write nearly_full_disk empty_graph "t.gif" "gif" initial_state
        = (σ', Raise IOError) ∧
        files σ' !! "t.gif" = Some "GIF" ∧ open_files σ' = [].
Proof. eexists. split; [|split]; vm_compute; reflexivity. Qed.

(** ** Link resolution: what is visited *)

Lemma frame_refl ls σ : frame ls σ σ.
Proof. by repeat split. Qed.

Lemma frame_trans ls σ1 σ2 σ3 :
  frame ls σ1 σ2 → frame ls σ2 σ3 → frame ls σ1 σ3.
Proof.
  intros [(Ha1 & Hb1 & Hc1 & Hd1 & He1) H1] [(Ha2 & Hb2 & Hc2 & Hd2 & He2) H2].
  split.
  - repeat split; congruence.
  - intros l Hl. rewrite H2, H1; done.
Qed.

Lemma frame_weaken ls ls' σ σ' :
  (∀ l, l ∈ ls → l ∈ ls') → frame ls σ σ' → frame ls' σ σ'.
Proof. intros Hsub [? H]. split; [done|]. intros l Hl. apply H. auto. Qed.

Lemma link_href_frame l linker σ σ' out :
  DotGraph._link_href l linker σ = (σ', out) → frame [l] σ σ'.
Proof.
  unfold DotGraph._link_href. unM.
  destruct (deref σ l !! "href") as [[s| | |]|];
    try (intros [= <- _]; apply frame_refl).
  destruct (match_placeholder s) as [name|];
    [|intros [= <- _]; apply frame_refl].
  destruct (truthy _) as [url|]; intros [= <- _].
  - split; [by repeat split|]. intros l' Hl'. simpl.
    apply lookup_insert_ne. intros ->. apply Hl'. by left.
  - split; [by repeat split|]. intros l' Hl'. simpl.
    apply lookup_insert_ne. intros ->. apply Hl'. by left.
Qed.

Lemma for_each_frame {A} (f : A → loc) linker xs : ∀ σ σ' out,
  for_each xs (λ x, DotGraph._link_href (f x) linker) σ = (σ', out) →
  frame (f <$> xs) σ σ'.
Proof.
  induction xs as [|x xs IH]; intros σ σ' out; simpl.
  - intros [= <- _]. apply frame_refl.
  - unfold mbind, M_bind.
    destruct (DotGraph._link_href (f x) linker σ) as [σ1 o1] eqn:E1.
    apply link_href_frame in E1.
    assert (frame (f x :: (f <$> xs)) σ σ1)
      by (eapply frame_weaken; [|exact E1]; intros l Hl;
          apply list_elem_of_singleton in Hl as ->; by left).
    destruct o1.
    + intros E. apply IH in E. eapply frame_trans; [done|].
      eapply frame_weaken; [|exact E]. intros l Hl. by right.
    + by intros [= <- _].
    + by intros [= <- _].
Qed.

Lemma for_each_fmap_app_bind {A B} (f : A → loc) (body : loc → M unit) xs ys
    (k : unit → M B) : ∀ σ,
  (for_each ((f <$> xs) ++ ys) body ≫= k) σ
  = (for_each xs (λ x, body (f x)) ≫= λ _, for_each ys body ≫= k) σ.
Proof.
  induction xs as [|x xs IH]; intros σ; [done|].
  simpl. unfold mbind, M_bind in *.
  destruct (body (f x) σ) as [σ1 [[]| |]]; [apply IH|done|done].
Qed.

Lemma link_visits self linker σ :
  DotGraph.link self linker σ
  = (for_each (visited_dicts self)
       (λ l, DotGraph._link_href l linker) ≫= λ _,
     mret (DotGraph.set_body
             (re_sub_href (DotGraph.subfunc linker) (DotGraph.body self))
             self)) σ.
Proof.
  unfold DotGraph.link, visited_dicts.
  set (h := λ l, DotGraph._link_href l linker).
  set (r := DotGraph.set_body _ self).
  change (for_each (DotGraph.node_defaults self :: ?L) h)
    with (h (DotGraph.node_defaults self) ≫= λ _, for_each L h).
  rewrite bind_assoc. apply bind_cong. intros _ σ1 _.
  rewrite for_each_fmap_app_bind. apply bind_cong. intros _ σ2 _.
  change (for_each (DotGraph.edge_defaults self :: ?L) h)
    with (h (DotGraph.edge_defaults self) ≫= λ _, for_each L h).
  rewrite bind_assoc. apply bind_cong. intros _ σ3 _.
  rewrite <- (app_nil_r (DotGraphNode.attribs <$> DotGraph.nodes self)).
  rewrite for_each_fmap_app_bind. apply bind_cong. by intros _ σ4 _.
Qed.

Lemma link_frame self linker σ σ' out :
  DotGraph.link self linker σ = (σ', out) →
  frame (visited_dicts self) σ σ' ∧
  (∀ g, out = Ret g →
        g = DotGraph.set_body
              (re_sub_href (DotGraph.subfunc linker) (DotGraph.body self))
              self).
Proof.
  rewrite link_visits. unfold mbind, M_bind.
  destruct (for_each _ _ σ) as [σ1 o1] eqn:E.
  apply (for_each_frame id) in E. rewrite list_fmap_id in E.
  destruct o1; intros [= <- <-]; (split; [done|]); [|done|done].
  by intros g [= <-].
Qed.

(** C3.  [link] is the sequence of the calls of [_link_href] on the node
    defaults, on the dictionary of each node, on the edge defaults and on
    the dictionary of each node again, followed by the substitution in the
    body.  It leaves the list of edges as it is, and the dictionary of
    every edge that does not share it with a node or with the defaults
    is after the call what it was before, also when the call raises. *)
Theorem link_never_visits_edge_attribs self linker σ σ' out :
  DotGraph.link self linker σ = (σ', out) →
  DotGraph.link self linker σ
  = (for_each (visited_dicts self)
       (λ l, DotGraph._link_href l linker) ≫= λ _,
     mret (DotGraph.set_body
             (re_sub_href (DotGraph.subfunc linker) (DotGraph.body self))
             self)) σ ∧
  (∀ g, out = Ret g → DotGraph.edges g = DotGraph.edges self) ∧
  (∀ e, e ∈ DotGraph.edges self → owns_attribs self e →
        heap σ' !! DotGraphEdge.attribs e = heap σ !! DotGraphEdge.attribs e).
Proof.
  intros E. split; [apply link_visits|].
  apply link_frame in E as [[_ Hframe] Hout]. split.
  - intros g Hg. by rewrite (Hout g Hg).
  - intros e _ Hown. by apply Hframe.
Qed.

Lemma graph_with_edge_href_run :
  graph_with_edge_href initial_state = (edge_href_state, Ret edge_href_graph).
Proof. vm_compute. reflexivity. Qed.

Lemma link_never_visits_edge_attribs_witness :
  deref edge_href_state 4 !! "href" = Some (VStr "<a>") ∧
  heap (DotGraph.link edge_href_graph html_linker edge_href_state).1 !! 4
  = heap edge_href_state !! 4.
Proof.
  split; [reflexivity|].
  pose proof (link_never_visits_edge_attribs edge_href_graph html_linker
                edge_href_state _ _ (surjective_pairing _)) as (_ & _ & H).
  apply (H (DotGraphEdge.mk (DotGraphNode.mk 2 0) (DotGraphNode.mk 3 1) 4)).
  - by left.
  - unfold owns_attribs, visited_dicts. simpl. intros Hin.
    repeat (apply elem_of_cons in Hin as [Hin|Hin]; [done|]).
    by apply elem_of_nil in Hin.
Defined.

(** ** Link resolution: running it twice *)

Lemma link_href_resolved l linker σ :
  resolved (deref σ l) → DotGraph._link_href l linker σ = (σ, Ret tt).
Proof.
  unfold resolved, DotGraph._link_href. unM.
  destruct (deref σ l !! "href") as [[s| | |]|]; try done.
  by intros ->.
Qed.



Lemma for_each_resolved linker ls : ∀ σ,
  (∀ l, l ∈ ls → resolved (deref σ l)) →
  for_each ls (λ l, DotGraph._link_href l linker) σ = (σ, Ret tt).
Proof.
  induction ls as [|l ls IH]; intros σ Hres; [done|]. simpl.
  erewrite bind_ret by (apply link_href_resolved, Hres; by left).
  apply IH. intros l' Hl'. apply Hres. by right.
Qed.

Lemma re_sub_href_fuel_no_match f fuel : ∀ s,
  href_occurs s = false → re_sub_href_fuel fuel f s = s.
Proof.
  induction fuel as [|fuel IH]; intros s Hs; [done|].
  destruct s as [|c s]; [done|].
  change (match match_href (String c s) with
          | Some (name, comma, rest) =>
              f name comma +:+ re_sub_href_fuel fuel f rest
          | None => String c (re_sub_href_fuel fuel f s)
          end = String c s).
  change (match match_href (String c s) with
          | Some _ => true
          | None => href_occurs s
          end = false) in Hs.
  destruct (match_href (String c s)); [done|]. by rewrite IH.
Qed.

Lemma skip_spaces_length s : String.length (skip_spaces s) ≤ String.length s.
Proof.
  induction s as [|c s IH]; simpl; [done|].
  destruct (is_space c); simpl; lia.
Qed.

Lemma skip_quote_length s : String.length (skip_quote s) ≤ String.length s.
Proof. destruct s as [|c s]; simpl; [done|]. destruct (is_quote c); simpl; lia. Qed.

Lemma span_name_length s :
  String.length (span_name s).2 ≤ String.length s.
Proof.
  induction s as [|c s IH]; simpl; [done|].
  destruct (is_name_char c); [|simpl; lia].
  destruct (span_name s) as [n r]. simpl in *. lia.
Qed.

Lemma expect_Some c s s' : expect c s = Some s' ↔ s = String c s'.
Proof.
  destruct s as [|c' s0]; simpl; [done|].
  destruct (Ascii.eqb_spec c c') as [->|Hne].
  - split; [by intros [= ->]|by intros [= ->]].
  - split; [done|]. intros [= -> _]. done.
Qed.

Lemma expect_length c s s' :
  expect c s = Some s' → String.length s = S (String.length s').
Proof. intros H. apply expect_Some in H as ->. done. Qed.

Lemma expect_word_Some w : ∀ s s', expect_word w s = Some s' ↔ s = w +:+ s'.
Proof.
  induction w as [|c w IH]; intros s s'; simpl.
  - split; [by intros [= ->]|by intros ->].
  - destruct (expect c s) as [s1|] eqn:E.
    + apply expect_Some in E as ->. rewrite IH, string_app_cons.
      split; [by intros ->|by intros [= ->]].
    + split; [done|]. rewrite string_app_cons. intros ->.
      simpl in E. by rewrite Ascii.eqb_refl in E.
Qed.

Lemma match_href_rest_shorter s name comma rest :
  match_href s = Some (name, comma, rest) →
  String.length rest < String.length s.
Proof.
  unfold match_href.
  destruct (expect_word "href" s) as [s1|] eqn:E1; [|done].
  apply expect_word_Some in E1 as ->.
  change ("href" +:+ s1)
    with (String "h" (String "r" (String "e" (String "f" s1)))).
  pose proof (skip_spaces_length s1) as H1.
  destruct (expect "=" (skip_spaces s1)) as [s2|] eqn:E2; [|done].
  apply expect_length in E2.
  pose proof (skip_spaces_length s2) as H2.
  pose proof (skip_quote_length (skip_spaces s2)) as H3.
  destruct (expect "<" (skip_quote (skip_spaces s2))) as [s3|] eqn:E3; [|done].
  apply expect_length in E3.
  pose proof (span_name_length s3) as H4.
  destruct (span_name s3) as [[|c n] s4]; [done|]. simpl in H4.
  destruct (expect ">" s4) as [s5|] eqn:E5; [|done].
  apply expect_length in E5.
  pose proof (skip_quote_length s5) as H5.
  pose proof (skip_spaces_length (skip_quote s5)) as H6.
  destruct (expect "," (skip_spaces (skip_quote s5))) as [s7|] eqn:E7.
  - apply expect_length in E7. intros [= _ _ <-]. simpl. lia.
  - intros [= _ _ <-]. simpl. lia.
Qed.

Lemma re_sub_href_fuel_enough f fuel1 : ∀ fuel2 s,
  String.length s ≤ fuel1 → String.length s ≤ fuel2 →
  re_sub_href_fuel fuel1 f s = re_sub_href_fuel fuel2 f s.
Proof.
  induction fuel1 as [|fuel1 IH]; intros fuel2 s H1 H2.
  - destruct s; [|simpl in H1; lia]. by destruct fuel2.
  - destruct s as [|c s]; [by destruct fuel2|].
    destruct fuel2 as [|fuel2]; [simpl in H2; lia|]. simpl in H1, H2.
    change (match match_href (String c s) with
            | Some (name, comma, rest) =>
                f name comma +:+ re_sub_href_fuel fuel1 f rest
            | None => String c (re_sub_href_fuel fuel1 f s)
            end
            = match match_href (String c s) with
              | Some (name, comma, rest) =>
                  f name comma +:+ re_sub_href_fuel fuel2 f rest
              | None => String c (re_sub_href_fuel fuel2 f s)
              end).
    destruct (match_href (String c s)) as [[[name comma] rest]|] eqn:E.
    + apply match_href_rest_shorter in E. simpl in E.
      f_equal. apply IH; lia.
    + f_equal. apply IH; lia.
Qed.

(** The equations of [re.sub]: the fuel of [re_sub_href] is enough. *)
Lemma re_sub_href_unfold f c s :
  re_sub_href f (String c s)
  = match match_href (String c s) with
    | Some (name, comma, rest) => f name comma +:+ re_sub_href f rest
    | None => String c (re_sub_href f s)
    end.
Proof.
  unfold re_sub_href at 1.
  change (match match_href (String c s) with
          | Some (name, comma, rest) =>
              f name comma +:+ re_sub_href_fuel (String.length s) f rest
          | None => String c (re_sub_href_fuel (String.length s) f s)
          end = match match_href (String c s) with
                | Some (name, comma, rest) =>
                    f name comma +:+ re_sub_href f rest
                | None => String c (re_sub_href f s)
                end).
  destruct (match_href (String c s)) as [[[name comma] rest]|] eqn:E; [|done].
  apply match_href_rest_shorter in E. simpl in E. f_equal.
  apply re_sub_href_fuel_enough; lia.
Qed.

Lemma expect_word_app_None w : ∀ u q t,
  occurs_in q w = false → expect_word w u = None →
  expect_word w (u +:+ String q t) = None.
Proof.
  induction w as [|c w IH]; intros u q t Hq Hu; [done|].
  simpl in Hq. apply orb_false_iff in Hq as [Hc Hq].
  destruct u as [|c' u].
  - simpl. rewrite Hc. done.
  - rewrite string_app_cons. simpl in *.
    destruct (Ascii.eqb c c'); [by apply IH|done].
Qed.




Section stable_body.
Context (linker : Linker).
Hypothesis Hall : resolves_every_name linker.

Let out := re_sub_href (DotGraph.subfunc linker).
















End stable_body.

Lemma plain_url_not_placeholder u : plain_url u → match_placeholder u = None.
Proof.
  intros (_ & Hlt & _). unfold match_placeholder.
  destruct u as [|c u]; [done|].
  change (Ascii.eqb "<" c = false) in Hlt.
  change (expect "<" (String c u))
    with (if Ascii.eqb "<" c then Some u else None).
  by rewrite Hlt.
Qed.

Lemma resolves_every_name_urls linker :
  resolves_every_name linker → urls_are_not_placeholders linker.
Proof.
  intros Hall name url Hurl. destruct (Hall name) as (url' & E & Hplain).
  rewrite E in Hurl. apply plain_url_not_placeholder.
  destruct url' as [|c u']; [done|]. simpl in Hurl. by injection Hurl as <-.
Qed.




(** ** The builders *)

Lemma insert_sorted_perm {A} (key : A → DottedName) x l :
  insert_sorted key x l ≡ₚ x :: l.
Proof.
  induction l as [|y l IH]; simpl; [done|].
  destruct (name_leb (key x) (key y)); [done|].
  rewrite IH. apply Permutation_swap.
Qed.

Lemma sorted_perm {A} (key : A → DottedName) l : sorted key l ≡ₚ l.
Proof.
  induction l as [|x l IH]; simpl; [done|].
  unfold sorted in *. simpl. by rewrite insert_sorted_perm, IH.
Qed.

(** What the three builders start with: the two dictionaries of defaults
    and the graph. *)
Ltac run_prelude g0 σ0 Hn He Hb :=
  erewrite bind_ret by apply new_dict_run;
  erewrite bind_ret by apply new_dict_run;
  match goal with
  | |- context [(DotGraph.__init__ ?t ?b ?n ?e ≫= _) ?s] =>
      let E := fresh "E" in
      destruct (init_run t b n e s)
        as (g0 & σ0 & E & _ & _ & _ & Hb & Hn & He);
      erewrite bind_ret by exact E; clear E
  end.

Lemma add_rankdir_nodes options default g :
  DotGraph.nodes (add_rankdir options default g) = DotGraph.nodes g ∧
  DotGraph.edges (add_rankdir options default g) = DotGraph.edges g.
Proof. unfold add_rankdir. by case_bool_decide. Qed.

Lemma add_rankdir_body options default g :
  DotGraph.body g = EmptyString →
  DotGraph.body (add_rankdir options default g)
  = rankdir_directive (get_dir options default).
Proof.
  intros Hb. unfold add_rankdir, rankdir_directive.
  case_bool_decide; simpl; by rewrite ?Hb.
Qed.

Lemma Forall2_edge_of_l nodes pairs es e :
  Forall2 (edge_of nodes) pairs es → e ∈ es →
  ∃ p, p ∈ pairs ∧ edge_of nodes p e.
Proof.
  intros Hfa He. apply list_elem_of_lookup in He as [i Hi].
  destruct (Forall2_lookup_r _ _ _ _ _ Hfa Hi) as (p & Hp & Hpe).
  exists p. split; [|done]. apply list_elem_of_lookup. by exists i.
Qed.

Lemma Forall2_edge_of_r nodes pairs es p :
  Forall2 (edge_of nodes) pairs es → p ∈ pairs →
  ∃ e, e ∈ es ∧ edge_of nodes p e.
Proof.
  intros Hfa Hp. apply list_elem_of_lookup in Hp as [i Hi].
  destruct (Forall2_lookup_l _ _ _ _ _ Hfa Hi) as (e & He & Hpe).
  exists e. split; [|done]. apply list_elem_of_lookup. by exists i.
Qed.

Lemma edges_nodup nodes pairs es :
  (∀ d1 d2 n, nodes !! d1 = Some n → nodes !! d2 = Some n → d1 = d2) →
  Forall2 (edge_of nodes) pairs es → NoDup pairs →
  NoDup (endpoints <$> es).
Proof.
  intros Hinj Hfa. induction Hfa as [|p e pairs es [Hs He] Hfa IH];
    intros Hnd; simpl; [constructor|].
  apply NoDup_cons in Hnd as [Hp Hnd]. constructor; [|auto].
  intros Hin. apply list_elem_of_fmap in Hin as (e' & Heq & He').
  destruct (Forall2_edge_of_l _ _ _ _ Hfa He') as (p' & Hp' & [Hs' He'']).
  injection Heq as Heq1 Heq2. rewrite <- Heq1 in Hs'. rewrite <- Heq2 in He''.
  assert (p = p'); [|by subst].
  destruct p, p'; simpl in *. f_equal; eauto.
Qed.

Lemma count_le_1 {A B} `{EqDecision B} (f : A → B) (x : B) (l : list A) :
  NoDup (f <$> l) → length (filter (λ a, f a = x) l) ≤ 1.
Proof.
  induction l as [|a l IH]; simpl; [lia|]. intros Hnd.
  apply NoDup_cons in Hnd as [Ha Hnd]. rewrite filter_cons.
  destruct (decide (f a = x)) as [<-|]; [|auto]. simpl.
  destruct (filter (λ a0, f a0 = f a) l) as [|b bs] eqn:E; [simpl; lia|].
  assert (Hb : b ∈ filter (λ a0, f a0 = f a) l) by (rewrite E; by left).
  apply list_elem_of_filter in Hb as [Hfb Hb].
  exfalso. apply Ha. apply list_elem_of_fmap. by exists b.
Qed.

Lemma elem_of_parent_child_pairs children xs p :
  p ∈ parent_child_pairs children xs ↔ p.1 ∈ xs ∧ p.2 ∈ children p.1.
Proof.
  unfold parent_child_pairs. rewrite list_elem_of_bind. split.
  - intros (x & Hp & Hx). apply list_elem_of_fmap in Hp as (y & -> & Hy).
    done.
  - intros [H1 H2]. exists p.1. split; [|done].
    apply list_elem_of_fmap. exists p.2. split; [by destruct p|done].
Qed.

Lemma or_new_dict_dom d σ σ' l :
  DotGraph.or_new_dict d σ = (σ', Ret l) →
  l ∈ dom (heap σ') ∧ heap σ ⊆ heap σ'.
Proof.
  unfold DotGraph.or_new_dict. unM.
  assert (Hnew : ∀ σ0 : PyState,
            fresh (dom (heap σ0))
            ∈ dom (heap (set_heap (insert (fresh (dom (heap σ0))) ∅) σ0)) ∧
            heap σ0
            ⊆ heap (set_heap (insert (fresh (dom (heap σ0))) ∅) σ0)).
  { intros σ0. simpl. split.
    - rewrite dom_insert. apply elem_of_union. left. by apply elem_of_singleton.
    - apply insert_subseteq, not_elem_of_dom, is_fresh. }
  destruct d as [l0|]; [case_bool_decide as Hsz|]; intros [= <- <-];
    try apply Hnew.
  split; [|done]. apply elem_of_dom.
  destruct (heap σ !! l0) as [x|] eqn:E; [done|].
  exfalso. apply Hsz. unfold deref. rewrite lookup_total_alt, E. simpl.
  apply map_size_empty.
Qed.

Lemma init_defaults title body nd ed σ σ' g :
  DotGraph.__init__ title body nd ed σ = (σ', Ret g) →
  DotGraph.node_defaults g ∈ dom (heap σ') ∧
  DotGraph.edge_defaults g ∈ dom (heap σ').
Proof.
  unfold DotGraph.__init__. intros E.
  apply bind_inv in E as (σ1 & l1 & E1 & E).
  apply bind_inv in E as (σ2 & l2 & E2 & E).
  apply or_new_dict_dom in E1 as [H1 _].
  apply or_new_dict_dom in E2 as [H2 Hsub].
  apply bind_inv in E as (σ3 & s3 & E3 & E). injection E3 as <- <-.
  apply bind_inv in E as (σ4 & uid & E4 & E).
  assert (σ4 = σ2) as ->.
  { destruct (decide _); [|by injection E4].
    destruct (DotGraph.first_unused _ _ _ _); [by injection E4|done]. }
  apply bind_inv in E as (σ5 & [] & E5 & E).
  injection E5 as <-. injection E as <- <-. simpl. split; [|done].
  apply elem_of_dom in H1 as [x Hx]. apply elem_of_dom. exists x.
  by eapply lookup_weaken.
Qed.

Lemma add_rankdir_defaults options default g :
  DotGraph.node_defaults (add_rankdir options default g)
  = DotGraph.node_defaults g ∧
  DotGraph.edge_defaults (add_rankdir options default g)
  = DotGraph.edge_defaults g.
Proof. unfold add_rankdir. by case_bool_decide. Qed.

(** *** The traversal on a well-founded relation *)

Section expand.
Context (children : val_doc → list val_doc) (roots : list val_doc)
  (rank : val_doc → nat).
Hypothesis Hrank : ranked children roots rank.

Lemma reachable_child x y :
  reachable children roots x → y ∈ children x → reachable children roots y.
Proof.
  intros (r & Hr & Hx) Hy. exists r. split; [done|].
  eapply rtc_r; [exact Hx|exact Hy].
Qed.

Lemma tree_size_stable n : ∀ x,
  reachable children roots x → rank x ≤ n →
  tree_size children (S n) x = tree_size children n x.
Proof.
  induction n as [|n IH]; intros x Hx Hn.
  - simpl. destruct (children x) as [|y ys] eqn:E; [done|].
    assert (rank y < rank x) by (apply Hrank; [done|rewrite E; by left]). lia.
  - change (S (sum_list (tree_size children (S n) <$> children x))
            = S (sum_list (tree_size children n <$> children x))).
    do 2 f_equal. apply Forall_fmap_ext_1, Forall_forall. intros y Hy.
    apply IH; [by eapply reachable_child|].
    assert (rank y < rank x) by by apply Hrank. lia.
Qed.

Lemma tree_size_unfold N x :
  reachable children roots x → rank x ≤ N →
  tree_size children N x
  = S (sum_list (tree_size children N <$> children x)).
Proof.
  intros Hx HN. destruct N as [|n].
  - simpl. destruct (children x) as [|y ys] eqn:E; [done|].
    assert (rank y < rank x) by (apply Hrank; [done|rewrite E; by left]). lia.
  - change (S (sum_list (tree_size children n <$> children x))
            = S (sum_list (tree_size children (S n) <$> children x))).
    do 2 f_equal. apply Forall_fmap_ext_1, Forall_forall. intros y Hy.
    symmetry. apply tree_size_stable; [by eapply reachable_child|].
    assert (rank y < rank x) by by apply Hrank. lia.
Qed.

Lemma sum_list_app' (l k : list nat) :
  sum_list (l ++ k) = sum_list l + sum_list k.
Proof. induction l as [|x l IH]; simpl; lia. Qed.

Lemma tc_child_cases x y :
  tc (child_of children) x y ↔
  y ∈ children x ∨ ∃ c, c ∈ children x ∧ tc (child_of children) c y.
Proof.
  split.
  - intros H. destruct H as [x y H|x c y Hc H]; [by left|right; by exists c].
  - intros [H|(c & Hc & H)]; [by apply tc_once|by eapply tc_l].
Qed.

Lemma expand_run N fuel : ∀ queue i seen,
  (∀ x, x ∈ drop i queue → reachable children roots x ∧ rank x ≤ N) →
  sum_list (tree_size children N <$> drop i queue) < fuel →
  ∃ queue' seen',
    expand children fuel queue i seen = Some (queue', seen') ∧
    ∀ y, y ∈ seen' ↔
         y ∈ seen ∨ ∃ x, x ∈ drop i queue ∧ tc (child_of children) x y.
Proof.
  induction fuel as [|fuel IH]; intros queue i seen Hq Hsum; [lia|].
  simpl. destruct (queue !! i) as [x|] eqn:Ex.
  - pose proof (drop_S _ _ _ Ex) as Hdrop.
    assert (Hle : S i ≤ length queue) by (apply lookup_lt_Some in Ex; lia).
    destruct (Hq x) as [Hx HxN]; [rewrite Hdrop; by left|].
    destruct (IH (queue ++ children x) (S i)
                (seen ∪ list_to_set (children x)))
      as (queue' & seen' & E & Hseen).
    + intros z Hz. rewrite drop_app_le in Hz by done.
      apply elem_of_app in Hz as [Hz|Hz].
      * apply Hq. rewrite Hdrop. by right.
      * split; [by eapply reachable_child|].
        assert (rank z < rank x) by by apply Hrank. lia.
    + rewrite drop_app_le by done. rewrite fmap_app, sum_list_app'.
      rewrite Hdrop, fmap_cons in Hsum.
      change (tree_size children N x
              + sum_list (tree_size children N <$> drop (S i) queue)
              < S fuel) in Hsum.
      rewrite (tree_size_unfold N x Hx HxN) in Hsum. lia.
    + exists queue', seen'. split; [done|]. intros y. rewrite Hseen.
      rewrite drop_app_le by done. rewrite Hdrop.
      rewrite elem_of_union, elem_of_list_to_set. split.
      * intros [[?|Hy]|(z & Hz & Hzy)]; [by left| |].
        -- right. exists x. split; [by left|by apply tc_once].
        -- right. apply elem_of_app in Hz as [Hz|Hz].
           ++ exists z. split; [by right|done].
           ++ exists x. split; [by left|by eapply tc_l].
      * intros [?|(z & Hz & Hzy)]; [by left; left|].
        apply elem_of_cons in Hz as [->|Hz].
        -- apply tc_child_cases in Hzy as [?|(c & Hc & Hcy)];
             [left; by right|].
           right. exists c. split; [|done]. apply elem_of_app. by right.
        -- right. exists z. split; [|done]. apply elem_of_app. by left.
  - exists queue, seen. split; [done|]. intros y.
    rewrite drop_ge by (by apply lookup_ge_None).
    split; [by left|]. intros [?|(z & Hz & _)]; [done|].
    by apply elem_of_nil in Hz.
Qed.

Lemma path_ends_stable n : ∀ x,
  reachable children roots x → rank x ≤ n →
  path_ends children (S n) x = path_ends children n x.
Proof.
  induction n as [|n IH]; intros x Hx Hn.
  - change (x :: (children x ≫= path_ends children 0) = [x]).
    destruct (children x) as [|y ys] eqn:E; [done|].
    assert (rank y < rank x)
      by (apply Hrank; [done|rewrite E; by left]). lia.
  - change (x :: (children x ≫= path_ends children (S n))
            = x :: (children x ≫= path_ends children n)).
    f_equal. apply Forall_bind_ext, Forall_forall. intros y Hy.
    apply IH; [by eapply reachable_child|].
    assert (rank y < rank x) by by apply Hrank. lia.
Qed.

Lemma path_ends_stable_from N n x :
  reachable children roots x → rank x ≤ N → N ≤ n →
  path_ends children n x = path_ends children N x.
Proof.
  intros Hx HN Hn. induction Hn as [|n Hn IH]; [done|].
  rewrite path_ends_stable; [done|done|lia].
Qed.

Lemma path_ends_unfold N x :
  reachable children roots x → rank x ≤ N →
  path_ends children N x = x :: (children x ≫= path_ends children N).
Proof.
  intros Hx HN. destruct N as [|n].
  - change ([x] = x :: (children x ≫= path_ends children 0)).
    destruct (children x) as [|y ys] eqn:E; [done|].
    assert (rank y < rank x)
      by (apply Hrank; [done|rewrite E; by left]). lia.
  - change (x :: (children x ≫= path_ends children n)
            = x :: (children x ≫= path_ends children (S n))).
    f_equal. apply Forall_bind_ext, Forall_forall. intros y Hy.
    symmetry. apply path_ends_stable; [by eapply reachable_child|].
    assert (rank y < rank x) by by apply Hrank. lia.
Qed.

Lemma expand_queue N fuel : ∀ queue i seen queue' seen',
  (∀ x, x ∈ drop i queue → reachable children roots x ∧ rank x ≤ N) →
  expand children fuel queue i seen = Some (queue', seen') →
  take i queue' = take i queue ∧
  drop i queue' ≡ₚ drop i queue ≫= path_ends children N.
Proof.
  induction fuel as [|fuel IH]; intros queue i seen queue' seen' Hq E; [done|].
  simpl in E. destruct (queue !! i) as [x|] eqn:Ex.
  - pose proof (drop_S _ _ _ Ex) as Hdrop.
    assert (Hle : S i ≤ length queue) by (apply lookup_lt_Some in Ex; lia).
    destruct (Hq x) as [Hx HxN]; [rewrite Hdrop; by left|].
    assert (Hq' : ∀ z, z ∈ drop (S i) (queue ++ children x) →
                       reachable children roots z ∧ rank z ≤ N).
    { intros z Hz. rewrite drop_app_le in Hz by done.
      apply elem_of_app in Hz as [Hz|Hz].
      - apply Hq. rewrite Hdrop. by right.
      - split; [by eapply reachable_child|].
        assert (rank z < rank x) by by apply Hrank. lia. }
    destruct (IH _ _ _ _ _ Hq' E) as [Htake Hperm].
    rewrite take_app_le in Htake by done.
    assert (Hx' : queue' !! i = Some x).
    { rewrite <- (lookup_take_lt queue' (S i) i) by lia.
      rewrite Htake, lookup_take_lt by lia. done. }
    split.
    + apply (f_equal (take i)) in Htake.
      rewrite !take_take, !Nat.min_l in Htake by lia. done.
    + rewrite (drop_S _ _ _ Hx'), Hdrop, Hperm.
      rewrite drop_app_le by done.
      rewrite bind_cons, bind_app, (path_ends_unfold N x Hx HxN).
      simpl. constructor. apply Permutation_app_comm.
  - injection E as <- <-. split; [done|].
    by rewrite drop_ge by (by apply lookup_ge_None).
Qed.

Lemma expand_fuel_mono fuel : ∀ fuel' queue i seen r,
  expand children fuel queue i seen = Some r → fuel ≤ fuel' →
  expand children fuel' queue i seen = Some r.
Proof.
  induction fuel as [|fuel IH]; intros fuel' queue i seen r E Hle; [done|].
  destruct fuel' as [|fuel']; [lia|]. simpl in *.
  destruct (queue !! i); [|done]. apply IH; [done|lia].
Qed.

Lemma expand_terminates :
  ∃ fuel0 queue seen,
    (∀ fuel, fuel0 ≤ fuel →
       expand children fuel roots 0 (list_to_set roots)
       = Some (queue, seen)) ∧
    ∀ y, y ∈ seen ↔ reachable children roots y.
Proof.
  set (N := max_list (rank <$> roots)).
  set (fuel0 := S (sum_list (tree_size children N <$> roots))).
  destruct (expand_run N fuel0 roots 0 (list_to_set roots))
    as (queue & seen & E & Hseen).
  { intros x Hx. change (drop 0 roots) with roots in Hx.
    split; [exists x; by split|].
    apply max_list_elem_of_le, list_elem_of_fmap. by exists x. }
  { change (drop 0 roots) with roots. subst fuel0. lia. }
  exists fuel0, queue, seen. split.
  - intros fuel Hfuel. by eapply expand_fuel_mono.
  - intros y. rewrite Hseen. rewrite elem_of_list_to_set.
    change (drop 0 roots) with roots. split.
    + intros [Hy|(x & Hx & Hxy)]; [exists y; by split|].
      exists x. split; [done|]. by apply tc_rtc.
    + intros (r & Hr & Hy). apply rtc_tc in Hy as [->|Hy]; [by left|].
      right. by exists r.
Qed.

Lemma expand_terminates_paths :
  ∃ fuel0 queue seen,
    (∀ fuel, fuel0 ≤ fuel →
       expand children fuel roots 0 (list_to_set roots)
       = Some (queue, seen)) ∧
    (∀ y, y ∈ seen ↔ reachable children roots y) ∧
    ∃ N, ∀ n, N ≤ n → queue ≡ₚ roots ≫= path_ends children n.
Proof.
  destruct expand_terminates as (fuel0 & queue & seen & Hexp & Hseen).
  exists fuel0, queue, seen. split; [done|]. split; [done|].
  exists (max_list (rank <$> roots)). intros n Hn.
  assert (Hroots : ∀ x, x ∈ roots →
            reachable children roots x ∧ rank x ≤ max_list (rank <$> roots)).
  { intros x Hx. split; [exists x; by split|].
    apply max_list_elem_of_le, list_elem_of_fmap. by exists x. }
  destruct (expand_queue (max_list (rank <$> roots)) fuel0 roots 0
              (list_to_set roots) queue seen) as [_ Hperm].
  { intros x Hx. by apply Hroots. }
  { by apply Hexp. }
  change (drop 0 queue) with queue in Hperm.
  change (drop 0 roots) with roots in Hperm. rewrite Hperm.
  erewrite Forall_bind_ext; [done|]. apply Forall_forall. intros x Hx.
  symmetry. destruct (Hroots x Hx). by apply path_ends_stable_from.
Qed.

End expand.

Lemma expand_never_ends children (P : val_doc → Prop) fuel :
  (∀ x, P x → children x ≠ [] ∧ ∀ y, y ∈ children x → P y) →
  ∀ queue i seen,
    (∀ x, x ∈ queue → P x) → i < length queue →
    expand children fuel queue i seen = None.
Proof.
  intros HP. induction fuel as [|fuel IH]; intros queue i seen Hq Hi; [done|].
  simpl. destruct (lookup_lt_is_Some_2 queue i Hi) as [x Hx]. rewrite Hx.
  assert (Hxq : x ∈ queue) by (apply list_elem_of_lookup; by exists i).
  destruct (HP x (Hq x Hxq)) as [Hne Hch]. apply IH.
  - intros y Hy. apply elem_of_app in Hy as [Hy|Hy]; auto.
  - rewrite length_app. destruct (children x); [done|]. simpl. lia.
Qed.

(** What the queue of the traversal looks like when the traversal ends:
    the queue it started with is its beginning, and every child of an
    object dequeued stands in it behind the object. *)
Lemma expand_children_behind children fuel : ∀ queue i seen queue' seen',
  expand children fuel queue i seen = Some (queue', seen') →
  take (length queue) queue' = queue ∧
  ∀ j y c, i ≤ j → queue' !! j = Some y → c ∈ children y →
           ∃ k, j < k ∧ queue' !! k = Some c.
Proof.
  induction fuel as [|fuel IH]; intros queue i seen queue' seen' E; [done|].
  simpl in E. destruct (queue !! i) as [x|] eqn:Ex.
  - assert (Hlt : i < length queue) by by apply lookup_lt_Some in Ex.
    destruct (IH _ _ _ _ _ E) as [Htake Hbehind].
    assert (Hpre : ∀ k z, (queue ++ children x) !! k = Some z →
                          queue' !! k = Some z).
    { intros k z Hk. rewrite <- Htake in Hk.
      by apply lookup_take_Some in Hk as [Hk _]. }
    split.
    + apply (f_equal (take (length queue))) in Htake.
      rewrite take_take, Nat.min_l in Htake by (rewrite length_app; lia).
      by rewrite take_app_length in Htake.
    + intros j y c Hj Hy Hc. destruct (decide (j = i)) as [->|Hne].
      * assert (y = x) as ->.
        { assert (queue' !! i = Some x)
            by (apply Hpre; by apply lookup_app_l_Some). congruence. }
        apply list_elem_of_lookup in Hc as [k Hk].
        exists (length queue + k). split; [lia|]. apply Hpre.
        rewrite lookup_app_r by lia.
        by replace (length queue + k - length queue) with k by lia.
      * apply (Hbehind j y c); [lia|done|done].
  - injection E as <- <-. split; [by rewrite take_ge|].
    intros j y c Hj Hy. apply lookup_ge_None in Ex.
    apply lookup_lt_Some in Hy. lia.
Qed.

(** The traversal does not end when an object that starts a cycle can be
    reached from the roots. *)
Lemma expand_never_ends_on_cycle children fuel roots seen x :
  reachable children roots x → tc (child_of children) x x →
  expand children fuel roots 0 seen = None.
Proof.
  intros (r & Hr & Hrx) Hcycle.
  destruct (expand children fuel roots 0 seen) as [[queue' seen']|] eqn:E;
    [exfalso|done].
  destruct (expand_children_behind _ _ _ _ _ _ _ E) as [Htake Hbehind].
  assert (Hin : ∀ y, rtc (child_of children) r y → y ∈ queue').
  { intros y Hy. apply (rtc_ind_r (R := child_of children) (λ y, y ∈ queue') r);
      [| |exact Hy].
    - rewrite <- (take_drop (length roots) queue'), Htake.
      apply elem_of_app. by left.
    - intros u z _ Huz Huq. apply list_elem_of_lookup in Huq as [j Hj].
      destruct (Hbehind j u z) as (k & _ & Hk); [lia|done|done|].
      apply list_elem_of_lookup. by exists k. }
  assert (Hstep : ∀ y, tc (child_of children) y x →
                       ∃ c, c ∈ children y ∧ tc (child_of children) c x).
  { intros y Hy. destruct Hy as [y x Hyx|y c x Hyc Hcx].
    - exists x. by split.
    - exists c. by split. }
  assert (Hfar : ∀ n, ∃ j y, n ≤ j ∧ queue' !! j = Some y ∧
                             tc (child_of children) y x).
  { induction n as [|n (j & y & Hj & Hy & Hyx)].
    - apply Hin, list_elem_of_lookup in Hrx as [j Hj].
      exists j, x. split; [lia|by split].
    - destruct (Hstep y Hyx) as (c & Hc & Hcx).
      destruct (Hbehind j y c) as (k & Hk & Hkc); [lia|done|done|].
      exists k, c. split; [lia|by split]. }
  destruct (Hfar (length queue')) as (j & y & Hj & Hy & _).
  apply lookup_lt_Some in Hy. lia.
Qed.

(** *** Nodes, edges and the three builders *)

Section builder_theorems.
Context (api : APIDoc).

Lemma add_valdoc_node_run linker context g nodes d σ :
  let l := fresh (dom (heap σ)) in
  let node := DotGraphNode.mk l (next_id σ) in
  exists dct,
    add_valdoc_node api linker context (g, nodes) d σ
    = (with_new_node l dct σ,
       Ret (DotGraph.set_nodes (DotGraph.nodes g ++ [node])%list g,
            <[d := node]> nodes)) /\
    dct !! "label" = Some (VName (canonical_name api d)).
Proof.
  intros l node. unfold add_valdoc_node, DotGraphNode.__init__. unM. simpl.
  fold l. fold node.
  case_bool_decide.
  - eexists. split.
    + unfold with_new_node, set_heap, set_next_id, deref. simpl.
      rewrite insert_insert_eq. reflexivity.
    + unfold deref; simpl. rewrite lookup_total_insert_eq.
      rewrite lookup_union_r; [by rewrite lookup_insert_eq|].
      by vm_compute.
  - destruct (truthy _) as [url|].
    + eexists. split.
      * unfold with_new_node, set_heap, set_next_id, deref. simpl.
        rewrite insert_insert_eq. reflexivity.
      * unfold deref; simpl. rewrite lookup_total_insert_eq.
        rewrite lookup_insert_ne by done. by rewrite lookup_insert_eq.
    + eexists. split; [reflexivity|]. by rewrite lookup_insert_eq.
Qed.

Lemma nodes_inv_step g nodes σ d dct :
  let l := fresh (dom (heap σ)) in
  let node := DotGraphNode.mk l (next_id σ) in
  dct !! "label" = Some (VName (canonical_name api d)) →
  nodes_inv api g nodes σ →
  nodes_inv api (DotGraph.set_nodes (DotGraph.nodes g ++ [node])%list g)
    (<[d := node]> nodes) (with_new_node l dct σ).
Proof.
  intros l node Hlabel (Hids & Hnodup & Hnodes & Hinj).
  assert (Hfresh : l ∉ dom (heap σ)) by apply is_fresh.
  assert (Hnew : ∀ n, n ∈ DotGraph.nodes g → n ≠ node).
  { intros n Hn ->. apply Hids in Hn as [Hn _]. simpl in Hn. lia. }
  split; [|split; [|split]]; simpl.
  - intros n Hn. apply elem_of_app in Hn as [Hn|Hn].
    + apply Hids in Hn as [? ?]. split; [lia|].
      rewrite dom_insert. apply elem_of_union. by right.
    + apply list_elem_of_singleton in Hn as ->. simpl. split; [lia|].
      rewrite dom_insert. apply elem_of_union. left.
      by apply elem_of_singleton.
  - rewrite fmap_app. apply NoDup_app. split; [done|]. split.
    + intros i Hi Hi'. apply list_elem_of_fmap in Hi as (n & -> & Hn).
      simpl in Hi'. apply list_elem_of_singleton in Hi'.
      apply Hids in Hn as [Hn _]. lia.
    + apply NoDup_singleton.
  - intros d' n Hd'. destruct (decide (d = d')) as [<-|Hne].
    + rewrite lookup_insert_eq in Hd'. injection Hd' as <-.
      split; [apply elem_of_app; right; by apply list_elem_of_singleton|].
      unfold deref. simpl. by rewrite lookup_total_insert_eq.
    + rewrite lookup_insert_ne in Hd' by done.
      apply Hnodes in Hd' as [Hn Hl]. split; [apply elem_of_app; by left|].
      unfold deref in *. simpl. rewrite lookup_total_insert_ne; [done|].
      intros E. apply Hids in Hn as [_ Hn]. by rewrite <- E in Hn.
  - intros d1 d2 n H1 H2.
    destruct (decide (d = d1)) as [<-|Hne1], (decide (d = d2)) as [<-|Hne2];
      [done| | |].
    + rewrite lookup_insert_eq in H1. rewrite lookup_insert_ne in H2 by done.
      injection H1 as <-. apply Hnodes in H2 as [H2 _]. by apply Hnew in H2.
    + rewrite lookup_insert_eq in H2. rewrite lookup_insert_ne in H1 by done.
      injection H2 as <-. apply Hnodes in H1 as [H1 _]. by apply Hnew in H1.
    + rewrite lookup_insert_ne in H1, H2 by done. eauto.
Qed.

Lemma add_valdoc_nodes_loop_run linker context docs : ∀ g nodes σ,
  nodes_inv api g nodes σ →
  ∃ σ' new nodes',
    add_valdoc_nodes_loop api linker context docs (g, nodes) σ
    = (σ', Ret (DotGraph.set_nodes (DotGraph.nodes g ++ new)%list g, nodes')) ∧
    nodes_inv api (DotGraph.set_nodes (DotGraph.nodes g ++ new)%list g) nodes' σ' ∧
    length new = length docs ∧
    dom nodes' = dom nodes ∪ list_to_set docs ∧
    (∀ d, d ∉ docs → nodes' !! d = nodes !! d) ∧
    (NoDup docs → Forall2 (λ d n, nodes' !! d = Some n) docs new) ∧
    uids σ' = uids σ ∧ heap σ ⊆ heap σ'.
Proof.
  induction docs as [|d docs IH]; intros g nodes σ Hinv.
  - exists σ, [], nodes.
    assert (Eg : DotGraph.set_nodes (DotGraph.nodes g ++ [])%list g = g)
      by (destruct g; unfold DotGraph.set_nodes; simpl; by rewrite app_nil_r).
    rewrite Eg. simpl. unM.
    split; [done|]. split; [done|]. split; [done|].
    split; [by rewrite (right_id_L ∅ (∪))|].
    split; [done|]. split; [intros _; constructor|]. done.
  - simpl.
    destruct (add_valdoc_node_run linker context g nodes d σ) as (dct & E & Hl).
    erewrite bind_ret by exact E.
    pose proof (nodes_inv_step g nodes σ d dct Hl Hinv) as Hinv1.
    destruct (IH _ _ _ Hinv1)
      as (σ' & new & nodes' & E' & Hinv' & Hlen & Hdom & Hout & Hfa & Hu & Hh).
    simpl in *. rewrite <- app_assoc in E', Hinv'.
    eexists σ', (_ :: new), nodes'. split; [exact E'|].
    split; [exact Hinv'|]. split; [simpl; by rewrite Hlen|].
    split; [rewrite Hdom, dom_insert_L; set_solver|].
    split; [|split; [|split]].
    + intros d' Hd'. apply not_elem_of_cons in Hd' as [Hne Hd'].
      rewrite Hout by done. by rewrite lookup_insert_ne.
    + intros Hnd. apply NoDup_cons in Hnd as [Hd Hnd]. constructor; [|auto].
      rewrite Hout by done. by rewrite lookup_insert_eq.
    + done.
    + etrans; [|exact Hh]. apply insert_subseteq.
      apply not_elem_of_dom. apply is_fresh.
Qed.

Lemma add_valdoc_nodes_run linker context docs g σ :
  DotGraph.nodes g = [] →
  ∃ σ' new nodes,
    add_valdoc_nodes api g docs linker context σ
    = (σ', Ret (DotGraph.set_nodes new g, nodes)) ∧
    nodes_inv api (DotGraph.set_nodes new g) nodes σ' ∧
    dom nodes = list_to_set docs ∧
    (NoDup docs →
     Forall2 (λ d n, nodes !! d = Some n) (sorted (canonical_name api) docs)
       new) ∧
    uids σ' = uids σ ∧ heap σ ⊆ heap σ'.
Proof.
  intros Hg. unfold add_valdoc_nodes.
  destruct (add_valdoc_nodes_loop_run linker context
              (sorted (canonical_name api) docs) g ∅ σ)
    as (σ' & new & nodes & E & Hinv & Hlen & Hdom & Hout & Hfa & Hu & Hh).
  { unfold nodes_inv. rewrite Hg. split; [|split; [|split]].
    - intros n Hn. by apply elem_of_nil in Hn.
    - constructor.
    - intros d n Hd. by rewrite lookup_empty in Hd.
    - intros d1 d2 n Hd. by rewrite lookup_empty in Hd. }
  rewrite Hg in *. simpl in *. exists σ', new, nodes.
  split; [done|]. split; [done|]. split.
  - rewrite Hdom, dom_empty_L, (left_id_L ∅ (∪)).
    apply set_eq. intros x. rewrite !elem_of_list_to_set.
    by rewrite sorted_perm.
  - split; [|done]. intros Hnd. apply Hfa. by rewrite sorted_perm.
Qed.

Lemma append_edge_run nodes g a b na nb σ :
  nodes !! a = Some na → nodes !! b = Some nb →
  let l := fresh (dom (heap σ)) in
  append_edge nodes g a b σ
  = (set_heap (insert l ∅) σ,
     Ret (DotGraph.set_edges
            (DotGraph.edges g ++ [DotGraphEdge.mk na nb l])%list g)).
Proof.
  intros Ha Hb l. unfold append_edge, getitem, DotGraphEdge.__init__.
  rewrite Ha, Hb. reflexivity.
Qed.

Lemma append_edges_run nodes pairs : ∀ g σ,
  (∀ p, p ∈ pairs → p.1 ∈ dom nodes ∧ p.2 ∈ dom nodes) →
  ∃ σ' es,
    append_edges nodes g pairs σ
    = (σ', Ret (DotGraph.set_edges (DotGraph.edges g ++ es)%list g)) ∧
    Forall2 (edge_of nodes) pairs es ∧
    uids σ' = uids σ ∧ next_id σ' = next_id σ ∧ heap σ ⊆ heap σ'.
Proof.
  induction pairs as [|[a b] pairs IH]; intros g σ Hdom.
  - exists σ, []. simpl. rewrite app_nil_r. split.
    + destruct g; reflexivity.
    + split; [constructor|done].
  - destruct (Hdom (a, b)) as [Ha Hb]; [by left|]. simpl in Ha, Hb.
    apply elem_of_dom in Ha as [na Ha]. apply elem_of_dom in Hb as [nb Hb].
    simpl. erewrite bind_ret by (by apply append_edge_run).
    destruct (IH (DotGraph.set_edges
                    (DotGraph.edges g ++
                       [DotGraphEdge.mk na nb (fresh (dom (heap σ)))])%list g)
                (set_heap (insert (fresh (dom (heap σ))) ∅) σ))
      as (σ' & es & E & Hfa & Hu & Hn & Hh).
    { intros p Hp. apply Hdom. by right. }
    simpl in E. rewrite <- app_assoc in E.
    exists σ', (DotGraphEdge.mk na nb (fresh (dom (heap σ))) :: es).
    split; [exact E|]. split; [by constructor|]. split; [done|].
    split; [done|]. etrans; [|exact Hh]. simpl.
    apply insert_subseteq, not_elem_of_dom, is_fresh.
Qed.

Lemma append_edges_body nodes pairs : ∀ g σ σ' g',
  append_edges nodes g pairs σ = (σ', Ret g') →
  DotGraph.body g' = DotGraph.body g.
Proof.
  induction pairs as [|[a b] pairs IH]; intros g σ σ' g' E; simpl in E.
  - by injection E as _ <-.
  - apply bind_inv in E as (σ1 & g1 & E1 & E). apply IH in E. rewrite E.
    unfold append_edge in E1.
    apply bind_inv in E1 as (? & na & _ & E1).
    apply bind_inv in E1 as (? & nb & _ & E1).
    apply bind_inv in E1 as (? & e & _ & E1).
    by injection E1 as _ <-.
Qed.

Lemma nodes_inv_mono g g' nodes σ σ' :
  DotGraph.nodes g' = DotGraph.nodes g →
  heap σ ⊆ heap σ' → next_id σ ≤ next_id σ' →
  nodes_inv api g nodes σ → nodes_inv api g' nodes σ'.
Proof.
  intros Hg Hh Hn (Hids & Hnodup & Hnodes & Hinj). unfold nodes_inv.
  rewrite Hg. split; [|split; [done|split; [|done]]].
  - intros n Hn'. apply Hids in Hn' as [? Hd]. split; [lia|].
    apply elem_of_dom in Hd as [x Hx]. apply elem_of_dom. exists x.
    by eapply lookup_weaken.
  - intros d n Hd. pose proof (Hnodes d n Hd) as [Hin Hl]. split; [done|].
    apply Hids in Hin as [_ Hdom]. apply elem_of_dom in Hdom as [x Hx].
    unfold deref in *. rewrite (lookup_total_correct _ _ _ Hx) in Hl.
    by rewrite (lookup_total_correct _ _ _ (lookup_weaken _ _ _ _ Hx Hh)).
Qed.

Lemma imported_module_spec var_name i src :
  imported_module api var_name i = Some src ↔
  ∃ j, 1 ≤ j ≤ i ∧ module_named api (take j var_name) = Some src ∧
       ∀ k, j < k ≤ i → module_named api (take k var_name) = None.
Proof.
  induction i as [|i IH].
  - simpl. split; [done|]. intros (j & ? & _). lia.
  - change (imported_module api var_name (S i))
      with (match get_valdoc api (take (S i) var_name) with
            | Some d => if is_ModuleDoc api d then Some d
                        else imported_module api var_name i
            | None => imported_module api var_name i
            end).
    assert (Hcases :
      (module_named api (take (S i) var_name) = None ∧
       match get_valdoc api (take (S i) var_name) with
       | Some d => if is_ModuleDoc api d then Some d
                   else imported_module api var_name i
       | None => imported_module api var_name i
       end = imported_module api var_name i) ∨
      (∃ d, module_named api (take (S i) var_name) = Some d ∧
       match get_valdoc api (take (S i) var_name) with
       | Some d => if is_ModuleDoc api d then Some d
                   else imported_module api var_name i
       | None => imported_module api var_name i
       end = Some d)).
    { unfold module_named.
      destruct (get_valdoc api (take (S i) var_name)) as [d|]; [|by left].
      destruct (is_ModuleDoc api d); [right; by exists d|by left]. }
    destruct Hcases as [[Hnone ->]|(d & Hsome & ->)].
    + rewrite IH. split.
      * intros (j & Hj & Hm & Hall). exists j. split; [lia|]. split; [done|].
        intros k Hk. destruct (decide (k = S i)) as [->|]; [done|].
        apply Hall. lia.
      * intros (j & Hj & Hm & Hall). exists j.
        destruct (decide (j = S i)) as [->|]; [congruence|].
        split; [lia|]. split; [done|]. intros k Hk. apply Hall. lia.
    + split.
      * intros [= <-]. exists (S i). split; [lia|]. split; [done|]. lia.
      * intros (j & Hj & Hm & Hall).
        destruct (decide (j = S i)) as [->|]; [congruence|].
        rewrite Hall in Hsome by lia. done.
Qed.

Lemma import_edges_spec modules src dst :
  (src, dst) ∈ import_edges api modules ↔
  dst ∈ modules ∧ ∃ var_name, var_name ∈ imports api dst ∧
    imported_module api var_name (length var_name) = Some src.
Proof.
  unfold import_edges.
  assert (Hinner : ∀ d vs (acc : gset (val_doc * val_doc)),
    (src, dst) ∈ foldl (λ edges var_name,
        match imported_module api var_name (length var_name) with
        | Some s => edges ∪ {[ (s, d) ]}
        | None => edges
        end) acc vs ↔
    (src, dst) ∈ acc ∨ (d = dst ∧ ∃ v, v ∈ vs ∧
       imported_module api v (length v) = Some src)).
  { intros d vs. induction vs as [|v vs IH]; intros acc; simpl.
    - split; [by left|]. intros [?|(_ & v & Hv & _)]; [done|].
      by apply elem_of_nil in Hv.
    - rewrite IH. split.
      + intros [Hacc|(-> & v' & Hv' & Hm)].
        * destruct (imported_module api v (length v)) as [s|] eqn:E;
            [|by left].
          apply elem_of_union in Hacc as [?|Hs]; [by left|].
          apply elem_of_singleton in Hs as [= <- <-]. right.
          split; [done|]. exists v. split; [by left|done].
        * right. split; [done|]. exists v'. split; [by right|done].
      + intros [Hacc|(-> & v' & Hv' & Hm)].
        * left. destruct (imported_module api v (length v)); [|done].
          apply elem_of_union. by left.
        * apply elem_of_cons in Hv' as [->|Hv'].
          -- left. rewrite Hm. apply elem_of_union. right.
             by apply elem_of_singleton.
          -- right. split; [done|]. by exists v'. }
  assert (Houter : ∀ ms (acc : gset (val_doc * val_doc)),
    (src, dst) ∈ foldl (λ edges d,
        foldl (λ edges var_name,
          match imported_module api var_name (length var_name) with
          | Some s => edges ∪ {[ (s, d) ]}
          | None => edges
          end) edges (imports api d)) acc ms ↔
    (src, dst) ∈ acc ∨ (dst ∈ ms ∧ ∃ v, v ∈ imports api dst ∧
       imported_module api v (length v) = Some src)).
  { induction ms as [|m ms IH]; intros acc; simpl.
    - split; [by left|]. intros [?|[Hd _]]; [done|].
      by apply elem_of_nil in Hd.
    - rewrite IH, Hinner. split.
      + intros [[?|(-> & Hv)]|[Hd Hv]]; [by left| |].
        * right. split; [by left|done].
        * right. split; [by right|done].
      + intros [?|[Hd Hv]]; [by left; left|].
        apply elem_of_cons in Hd as [->|Hd]; [left; by right|by right]. }
  rewrite Houter. split; [|by right]. intros [H|H]; [|done].
  by apply not_elem_of_empty in H.
Qed.

Lemma import_graph_with_nodes_run modules linker context options σ :
  ∃ σ' g nodes,
    import_graph_with_nodes api modules linker context options σ
    = (σ', Ret (g, nodes)) ∧
    nodes_inv api g nodes σ' ∧
    dom nodes = list_to_set modules ∧
    Forall2 (edge_of nodes)
      (filter (λ p, p.1 ∈ dom nodes ∧ p.2 ∈ dom nodes)
         (elements (import_edges api modules)))
      (DotGraph.edges g) ∧
    DotGraph.body g
    = DotGraph.body (add_rankdir options "RL"
                       (DotGraph.mk EmptyString [] [] EmptyString 0 0
                          EmptyString)).
Proof.
  unfold import_graph_with_nodes.
  run_prelude g0 σ0 Hn He Hb.
  destruct (add_rankdir_nodes options "RL" g0) as [Hn' He'].
  rewrite Hn in Hn'. rewrite He in He'.
  destruct (add_valdoc_nodes_run linker context modules
              (add_rankdir options "RL" g0) σ0 Hn')
    as (σ1 & new & nodes & E1 & Hinv & Hdom & _ & _ & _).
  erewrite bind_ret by exact E1. simpl.
  destruct (append_edges_run nodes
              (filter (λ p, p.1 ∈ dom nodes ∧ p.2 ∈ dom nodes)
                 (elements (import_edges api modules)))
              (DotGraph.set_nodes new (add_rankdir options "RL" g0)) σ1)
    as (σ2 & es & E2 & Hfa & _ & Hnid & Hh).
  { intros p Hp. by apply list_elem_of_filter in Hp as [Hp _]. }
  erewrite bind_ret by exact E2.
  eexists _, _, _. split; [reflexivity|].
  split; [|split; [done|split]].
  - eapply nodes_inv_mono; [| exact Hh | by rewrite Hnid | exact Hinv]. done.
  - simpl. by rewrite He'.
  - simpl. unfold add_rankdir. case_bool_decide; simpl; by rewrite ?Hb.
Qed.

Lemma import_graph_of_with_nodes modules linker context options σ σ' g nodes :
  import_graph_with_nodes api modules linker context options σ
  = (σ', Ret (g, nodes)) →
  import_graph api modules linker context options σ = (σ', Ret g).
Proof. intros E. unfold import_graph. by erewrite bind_ret by exact E. Qed.

Lemma package_tree_graph_with_nodes_eq :
  package_tree_graph_with_nodes api
  = tree_graph_with_nodes api "Package Tree" (submodules api).
Proof. reflexivity. Qed.

Lemma class_tree_graph_with_nodes_eq :
  class_tree_graph_with_nodes api
  = tree_graph_with_nodes api "Class Hierarchy" (subclasses api).
Proof. reflexivity. Qed.

Lemma tree_graph_with_nodes_run title children fuel roots linker context
    options σ queue seen :
  expand children fuel roots 0 (list_to_set roots) = Some (queue, seen) →
  (∀ x y, x ∈ seen → y ∈ children x → y ∈ seen) →
  ∃ σ' g nodes,
    tree_graph_with_nodes api title children fuel roots linker context options σ
    = (σ', Ret (g, nodes)) ∧
    nodes_inv api g nodes σ' ∧
    dom nodes = seen ∧
    Forall2 (λ d n, nodes !! d = Some n)
      (sorted (canonical_name api) (elements seen)) (DotGraph.nodes g) ∧
    Forall2 (edge_of nodes) (parent_child_pairs children (elements seen))
      (DotGraph.edges g) ∧
    DotGraph.body g
    = DotGraph.body (add_rankdir options "LR"
                       (DotGraph.mk EmptyString [] [] EmptyString 0 0
                          EmptyString)).
Proof.
  intros Hexp Hclosed. unfold tree_graph_with_nodes.
  run_prelude g0 σ0 Hn He Hb. rewrite Hexp.
  destruct (add_rankdir_nodes options "LR" g0) as [Hn' He'].
  rewrite Hn in Hn'. rewrite He in He'.
  destruct (add_valdoc_nodes_run linker context (elements seen)
              (add_rankdir options "LR" g0) σ0 Hn')
    as (σ1 & new & nodes & E1 & Hinv & Hdom & Hfa1 & _ & _).
  erewrite bind_ret by exact E1. simpl.
  rewrite list_to_set_elements_L in Hdom.
  destruct (append_edges_run nodes
              (parent_child_pairs children (elements seen))
              (DotGraph.set_nodes new (add_rankdir options "LR" g0)) σ1)
    as (σ2 & es & E2 & Hfa & _ & Hnid & Hh).
  { intros p Hp. apply elem_of_parent_child_pairs in Hp as [H1 H2].
    apply elem_of_elements in H1. rewrite Hdom. eauto. }
  erewrite bind_ret by exact E2.
  eexists _, _, _. split; [reflexivity|].
  split; [|split; [done|split; [|split]]].
  - eapply nodes_inv_mono; [| exact Hh | by rewrite Hnid | exact Hinv]. done.
  - simpl. apply Hfa1, NoDup_elements.
  - simpl. by rewrite He'.
  - simpl. unfold add_rankdir. case_bool_decide; simpl; by rewrite ?Hb.
Qed.

Lemma tree_graph_terminates title children roots linker context options σ :
  (∃ rank, ranked children roots rank) →
  ∃ fuel0 σ' g nodes queue seen,
    (∀ fuel, fuel0 ≤ fuel →
       expand children fuel roots 0 (list_to_set roots)
       = Some (queue, seen) ∧
       tree_graph_with_nodes api title children fuel roots linker context
         options σ = (σ', Ret (g, nodes))) ∧
    one_node_each api (reachable children roots) g nodes σ' ∧
    ∃ N, ∀ n, N ≤ n → queue ≡ₚ roots ≫= path_ends children n.
Proof.
  intros [rank Hrank].
  destruct (expand_terminates_paths children roots rank Hrank)
    as (fuel0 & queue & seen & Hexp & Hseen & Hpaths).
  destruct (tree_graph_with_nodes_run title children fuel0 roots linker
              context options σ queue seen)
    as (σ' & g & nodes & E & (_ & Hnd & Hnodes & _) & Hdom & Hfa & _).
  { by apply Hexp. }
  { intros x y Hx Hy. apply Hseen. apply Hseen in Hx.
    by eapply reachable_child. }
  exists fuel0, σ', g, nodes, queue, seen. split; [|split; [|done]].
  - intros fuel Hfuel. split; [by apply Hexp|].
    unfold tree_graph_with_nodes in *.
    rewrite (Hexp fuel Hfuel). by rewrite (Hexp fuel0) in E.
  - exists (sorted (canonical_name api) (elements seen)).
    split; [rewrite sorted_perm; apply NoDup_elements|].
    split; [|split; [|done]].
    + intros d. rewrite sorted_perm, elem_of_elements. apply Hseen.
    + eapply Forall2_impl; [exact Hfa|]. intros d n Hd.
      split; [done|]. by apply Hnodes.
Qed.

Lemma tree_graph_never_ends title children roots linker context options σ x :
  reachable children roots x → tc (child_of children) x x →
  ∀ fuel, ∃ σ',
    tree_graph_with_nodes api title children fuel roots linker context
      options σ = (σ', OutOfFuel).
Proof.
  intros Hx Hcycle fuel. unfold tree_graph_with_nodes.
  run_prelude g0 σ0 Hn He Hb.
  rewrite (expand_never_ends_on_cycle children fuel roots _ x Hx Hcycle).
  by exists σ0.
Qed.

Lemma tree_graph_body title children fuel roots linker context options σ σ'
    g nodes :
  tree_graph_with_nodes api title children fuel roots linker context options σ
  = (σ', Ret (g, nodes)) →
  DotGraph.body g = rankdir_directive (get_dir options "LR").
Proof.
  unfold tree_graph_with_nodes.
  run_prelude g0 σ0 Hn He Hb.
  destruct (expand _ _ _ _ _) as [[queue seen]|]; [|done].
  destruct (add_rankdir_nodes options "LR" g0) as [Hn' _].
  rewrite Hn in Hn'.
  destruct (add_valdoc_nodes_run linker context (elements seen)
              (add_rankdir options "LR" g0) σ0 Hn')
    as (σ1 & new & nodes1 & E1 & _).
  erewrite bind_ret by exact E1. simpl. intros E.
  apply bind_inv in E as (σ2 & g2 & E2 & E). injection E as _ <- _.
  apply append_edges_body in E2. rewrite E2. simpl.
  by apply add_rankdir_body.
Qed.

Lemma append_edges_inv nodes pairs : ∀ g σ σ' g',
  append_edges nodes g pairs σ = (σ', Ret g') →
  ∃ es, g' = DotGraph.set_edges (DotGraph.edges g ++ es) g ∧
        Forall (λ e, DotGraphEdge.attribs e ∉ dom (heap σ)) es.
Proof.
  induction pairs as [|[a b] pairs IH]; intros g σ σ' g' E; simpl in E.
  - injection E as _ <-. exists []. rewrite app_nil_r. split; [|done].
    by destruct g.
  - apply bind_inv in E as (σ1 & g1 & E1 & E).
    unfold append_edge in E1.
    apply bind_inv in E1 as (σa & na & Ea & E1).
    apply bind_inv in E1 as (σb & nb & Eb & E1).
    assert (σa = σ) as ->
      by (unfold getitem in Ea; destruct (nodes !! a); by injection Ea).
    assert (σb = σ) as ->
      by (unfold getitem in Eb; destruct (nodes !! b); by injection Eb).
    apply bind_inv in E1 as (σe & e & Ee & E1).
    injection E1 as <- <-. injection Ee as <- <-.
    apply IH in E as (es & -> & Hes). simpl.
    exists (DotGraphEdge.mk na nb (fresh (dom (heap σ))) :: es). split.
    + unfold DotGraph.set_edges. simpl. by rewrite <- app_assoc.
    + constructor; [apply is_fresh|].
      eapply Forall_impl; [exact Hes|]. intros e He Hin. apply He. simpl.
      rewrite dom_insert. apply elem_of_union. by right.
Qed.

Lemma edges_own_after nodes pairs g1 σ1 σ2 g2 :
  (∀ l, l ∈ visited_dicts g1 → l ∈ dom (heap σ1)) →
  DotGraph.edges g1 = [] →
  append_edges nodes g1 pairs σ1 = (σ2, Ret g2) →
  ∀ e, e ∈ DotGraph.edges g2 → owns_attribs g2 e.
Proof.
  intros Hdom He E. apply append_edges_inv in E as (es & -> & Hes).
  rewrite He. simpl. intros e Hin Hvis.
  rewrite Forall_forall in Hes. apply (Hes e Hin). by apply Hdom.
Qed.

Lemma visited_in_heap g nodes σ :
  DotGraph.node_defaults g ∈ dom (heap σ) →
  DotGraph.edge_defaults g ∈ dom (heap σ) →
  nodes_inv api g nodes σ →
  ∀ l, l ∈ visited_dicts g → l ∈ dom (heap σ).
Proof.
  intros Hnd Hed (Hids & _) l Hl. unfold visited_dicts in Hl.
  assert (Hn : ∀ l, l ∈ DotGraphNode.attribs <$> DotGraph.nodes g →
                    l ∈ dom (heap σ)).
  { intros l' Hl'. apply list_elem_of_fmap in Hl' as (n & -> & Hn).
    by apply Hids. }
  apply elem_of_cons in Hl as [->|Hl]; [done|].
  apply elem_of_app in Hl as [Hl|Hl]; [by apply Hn|].
  apply elem_of_cons in Hl as [->|Hl]; [done|by apply Hn].
Qed.

Lemma dom_weaken (σ σ' : PyState) l :
  heap σ ⊆ heap σ' → l ∈ dom (heap σ) → l ∈ dom (heap σ').
Proof.
  intros Hsub Hl. apply elem_of_dom in Hl as [x Hx]. apply elem_of_dom.
  exists x. by eapply lookup_weaken.
Qed.

(** What follows the construction of the graph in each builder: the
    nodes, then the edges. *)
Lemma nodes_then_edges_own g0 σ0 docs linker context
    (pairs : gmap val_doc DotGraphNode.t → list (val_doc * val_doc))
    σ' g nodes :
  DotGraph.nodes g0 = [] → DotGraph.edges g0 = [] →
  DotGraph.node_defaults g0 ∈ dom (heap σ0) →
  DotGraph.edge_defaults g0 ∈ dom (heap σ0) →
  (add_valdoc_nodes api g0 docs linker context ≫= λ '(graph, nodes),
     append_edges nodes graph (pairs nodes) ≫= λ graph,
     mret (graph, nodes)) σ0 = (σ', Ret (g, nodes)) →
  ∀ e, e ∈ DotGraph.edges g → owns_attribs g e.
Proof.
  intros Hn He Hnd Hed E.
  destruct (add_valdoc_nodes_run linker context docs g0 σ0 Hn)
    as (σ1 & new & nodes1 & E1 & Hinv & _ & _ & _ & Hsub).
  erewrite bind_ret in E by exact E1. simpl in E.
  apply bind_inv in E as (σ2 & g2 & E2 & E). injection E as _ <- _.
  eapply (edges_own_after _ _ (DotGraph.set_nodes new g0));
    [|exact He|exact E2].
  eapply visited_in_heap; [| |exact Hinv]; simpl; by eapply dom_weaken.
Qed.

Lemma prelude_inv {A} title (k : DotGraph.t → M A) σ σ' a :
  (nd ← new_dict box_defaults;
   ed ← new_dict sametail_defaults;
   graph ← DotGraph.__init__ title EmptyString (Some nd) (Some ed);
   k graph) σ = (σ', Ret a) →
  ∃ g0 σ0,
    k g0 σ0 = (σ', Ret a) ∧
    DotGraph.nodes g0 = [] ∧ DotGraph.edges g0 = [] ∧
    DotGraph.node_defaults g0 ∈ dom (heap σ0) ∧
    DotGraph.edge_defaults g0 ∈ dom (heap σ0).
Proof.
  intros E.
  apply bind_inv in E as (σ1 & nd & _ & E).
  apply bind_inv in E as (σ2 & ed & _ & E).
  apply bind_inv in E as (σ0 & g & Einit & E).
  destruct (init_run title EmptyString (Some nd) (Some ed) σ2)
    as (g' & σ0' & Einit' & _ & _ & _ & _ & Hn & He).
  rewrite Einit in Einit'. injection Einit' as <- <-.
  apply init_defaults in Einit as [Hnd Hed].
  by exists g, σ0.
Qed.

Lemma nodes_then_edges_own_rankdir g0 σ0 options default docs linker context
    (pairs : gmap val_doc DotGraphNode.t → list (val_doc * val_doc))
    σ' g nodes :
  DotGraph.nodes g0 = [] → DotGraph.edges g0 = [] →
  DotGraph.node_defaults g0 ∈ dom (heap σ0) →
  DotGraph.edge_defaults g0 ∈ dom (heap σ0) →
  (add_valdoc_nodes api (add_rankdir options default g0) docs linker context
     ≫= λ '(graph, nodes),
     append_edges nodes graph (pairs nodes) ≫= λ graph,
     mret (graph, nodes)) σ0 = (σ', Ret (g, nodes)) →
  ∀ e, e ∈ DotGraph.edges g → owns_attribs g e.
Proof.
  intros Hn He Hnd Hed.
  destruct (add_rankdir_nodes options default g0) as [Hn' He'].
  destruct (add_rankdir_defaults options default g0) as [Hnd' Hed'].
  apply nodes_then_edges_own; congruence.
Qed.

(** In a graph that a builder returns, every edge has a dictionary of its
    own, which [DotGraphEdge] made for it: [link] does not see it. *)
Lemma built_edges_own_their_attribs fuel roots linker context options σ σ' g :
  (package_tree_graph api fuel roots linker context options σ = (σ', Ret g) →
   ∀ e, e ∈ DotGraph.edges g → owns_attribs g e) ∧
  (class_tree_graph api fuel roots linker context options σ = (σ', Ret g) →
   ∀ e, e ∈ DotGraph.edges g → owns_attribs g e) ∧
  (import_graph api roots linker context options σ = (σ', Ret g) →
   ∀ e, e ∈ DotGraph.edges g → owns_attribs g e).
Proof.
  split; [|split]; intros E.
  - unfold package_tree_graph in E.
    apply bind_inv in E as (σ1 & [g1 nodes] & E1 & E). injection E as <- <-.
    unfold package_tree_graph_with_nodes in E1.
    apply prelude_inv in E1 as (g0 & σ0 & E1 & Hn & He & Hnd & Hed).
    cbv beta in E1.
    destruct (expand _ _ _ _ _) as [[queue seen]|]; [|done].
    by eapply (nodes_then_edges_own_rankdir g0 σ0 _ _ _ _ _
                 (λ _, parent_child_pairs (submodules api) (elements seen))).
  - unfold class_tree_graph in E.
    apply bind_inv in E as (σ1 & [g1 nodes] & E1 & E). injection E as <- <-.
    unfold class_tree_graph_with_nodes in E1.
    apply prelude_inv in E1 as (g0 & σ0 & E1 & Hn & He & Hnd & Hed).
    cbv beta in E1.
    destruct (expand _ _ _ _ _) as [[queue seen]|]; [|done].
    by eapply (nodes_then_edges_own_rankdir g0 σ0 _ _ _ _ _
                 (λ _, parent_child_pairs (subclasses api) (elements seen))).
  - unfold import_graph in E.
    apply bind_inv in E as (σ1 & [g1 nodes] & E1 & E). injection E as <- <-.
    unfold import_graph_with_nodes in E1.
    apply prelude_inv in E1 as (g0 & σ0 & E1 & Hn & He & Hnd & Hed).
    cbv beta in E1.
    by eapply (nodes_then_edges_own_rankdir g0 σ0 _ _ _ _ _
                 (λ nodes, filter (λ p, p.1 ∈ dom nodes ∧ p.2 ∈ dom nodes)
                             (elements (import_edges api roots)))).
Qed.

(** C5.  [import_graph] always returns, and its edges are exactly these:
    for every module [dst] of the argument and every import recorded in
    it, the module [src] under the longest prefix of the imported name
    that names a module, when [src] is itself a module of the argument,
    gives the edge from the node of [src] to the node of [dst].  In
    particular for an import a.b.c where a.b.c names no module and a.b
    names one, the source is the module a.b, whatever a names. *)
Theorem import_graph_longest_prefix modules linker context options σ :
  ∃ σ' g nodes,
    import_graph_with_nodes api modules linker context options σ
    = (σ', Ret (g, nodes)) ∧
    import_graph api modules linker context options σ = (σ', Ret g) ∧
    (∀ e, e ∈ DotGraph.edges g →
       ∃ src dst var_name,
         dst ∈ modules ∧ var_name ∈ imports api dst ∧
         longest_known_prefix api var_name src ∧
         is_node_of api σ' nodes src (DotGraphEdge.start e) ∧
         is_node_of api σ' nodes dst (DotGraphEdge.end_ e)) ∧
    (∀ dst var_name src,
       dst ∈ modules → var_name ∈ imports api dst →
       longest_known_prefix api var_name src → src ∈ modules →
       ∃ e, e ∈ DotGraph.edges g ∧
            is_node_of api σ' nodes src (DotGraphEdge.start e) ∧
            is_node_of api σ' nodes dst (DotGraphEdge.end_ e)) ∧
    (∀ a b c m,
       module_named api [a; b; c] = None →
       module_named api [a; b] = Some m →
       longest_known_prefix api [a; b; c] m).
Proof.
  destruct (import_graph_with_nodes_run modules linker context options σ)
    as (σ' & g & nodes & E & (_ & _ & Hnodes & _) & Hdom & Hfa & _).
  assert (Hnode : ∀ d n, nodes !! d = Some n → is_node_of api σ' nodes d n)
    by (intros d n Hd; split; [done|by apply Hnodes]).
  exists σ', g, nodes. split; [done|].
  split; [by eapply import_graph_of_with_nodes|]. split; [|split].
  - intros e He.
    destruct (Forall2_edge_of_l _ _ _ _ Hfa He) as ([src dst] & Hp & Hs & Hd).
    apply list_elem_of_filter in Hp as [_ Hp]. apply elem_of_elements in Hp.
    apply import_edges_spec in Hp as (Hdst & v & Hv & Him).
    apply imported_module_spec in Him. exists src, dst, v.
    split_and!; auto.
  - intros dst v src Hdst Hv Hlong Hsrc.
    assert (Hp : (src, dst) ∈ filter (λ p, p.1 ∈ dom nodes ∧ p.2 ∈ dom nodes)
                   (elements (import_edges api modules))).
    { apply list_elem_of_filter. split.
      - rewrite Hdom. simpl. by rewrite !elem_of_list_to_set.
      - apply elem_of_elements, import_edges_spec. split; [done|].
        exists v. split; [done|]. by apply imported_module_spec. }
    destruct (Forall2_edge_of_r _ _ _ _ Hfa Hp) as (e & He & Hs & Hd).
    exists e. split_and!; auto.
  - intros a b c m Habc Hab. exists 2. simpl. split; [lia|]. split; [done|].
    intros k Hk. by replace k with 3 by lia.
Qed.

(** C10.  [import_graph] always returns; no two of its edges join the same
    pair of nodes, so that for two modules there is at most one edge from
    the node of the first to the node of the second; and both ends of
    every edge are nodes of the graph. *)
Theorem import_graph_one_edge_per_pair modules linker context options σ :
  ∃ σ' g nodes,
    import_graph_with_nodes api modules linker context options σ
    = (σ', Ret (g, nodes)) ∧
    import_graph api modules linker context options σ = (σ', Ret g) ∧
    NoDup (endpoints <$> DotGraph.edges g) ∧
    (∀ src dst ns nd,
       is_node_of api σ' nodes src ns → is_node_of api σ' nodes dst nd →
       length (filter (λ e, endpoints e = (ns, nd)) (DotGraph.edges g)) ≤ 1) ∧
    (∀ e, e ∈ DotGraph.edges g →
       DotGraphEdge.start e ∈ DotGraph.nodes g ∧
       DotGraphEdge.end_ e ∈ DotGraph.nodes g).
Proof.
  destruct (import_graph_with_nodes_run modules linker context options σ)
    as (σ' & g & nodes & E & (_ & _ & Hnodes & Hinj) & Hdom & Hfa & _).
  exists σ', g, nodes. split; [done|].
  split; [by eapply import_graph_of_with_nodes|].
  assert (Hnd : NoDup (endpoints <$> DotGraph.edges g)).
  { eapply edges_nodup; [exact Hinj|exact Hfa|].
    apply NoDup_filter, NoDup_elements. }
  split; [done|]. split.
  - intros src dst ns nd _ _. by apply count_le_1.
  - intros e He.
    destruct (Forall2_edge_of_l _ _ _ _ Hfa He) as (p & _ & Hs & Hd).
    apply Hnodes in Hs as [Hs _]. apply Hnodes in Hd as [Hd _]. done.
Qed.

(** C6, as amended.  When the relation of an object to its children is well
    founded below the roots (some rank decreases from every reachable
    object to each of its children), the traversal of [package_tree_graph]
    and of [class_tree_graph] ends: from some amount of fuel on the builder
    returns, always the same graph, and that graph has exactly one node for
    each object reachable from the roots, with node ids that are pairwise
    distinct, also when an object has several parents.  The traversal
    itself dequeues an object once for each path that leads to it from a
    root: the queue it ends with holds, in some order, the end of every
    path that starts at a root, once for each path.  When an object that
    can be reached from the roots lies on a cycle of the relation, the
    traversal does not end: the builder runs out of every amount of
    fuel. *)
Theorem tree_graphs_terminate_on_ranked_models roots linker context options σ :
  ((∃ rank, ranked (submodules api) roots rank) →
   ∃ fuel0 σ' g nodes queue seen,
     (∀ fuel, fuel0 ≤ fuel →
        expand (submodules api) fuel roots 0 (list_to_set roots)
        = Some (queue, seen) ∧
        package_tree_graph_with_nodes api fuel roots linker context options σ
        = (σ', Ret (g, nodes)) ∧
        package_tree_graph api fuel roots linker context options σ
        = (σ', Ret g)) ∧
     one_node_each api (reachable (submodules api) roots) g nodes σ' ∧
     ∃ N, ∀ n, N ≤ n → queue ≡ₚ roots ≫= path_ends (submodules api) n) ∧
  ((∃ rank, ranked (subclasses api) roots rank) →
   ∃ fuel0 σ' g nodes queue seen,
     (∀ fuel, fuel0 ≤ fuel →
        expand (subclasses api) fuel roots 0 (list_to_set roots)
        = Some (queue, seen) ∧
        class_tree_graph_with_nodes api fuel roots linker context options σ
        = (σ', Ret (g, nodes)) ∧
        class_tree_graph api fuel roots linker context options σ
        = (σ', Ret g)) ∧
     one_node_each api (reachable (subclasses api) roots) g nodes σ' ∧
     ∃ N, ∀ n, N ≤ n → queue ≡ₚ roots ≫= path_ends (subclasses api) n) ∧
  (∀ x, reachable (submodules api) roots x →
        tc (child_of (submodules api)) x x →
        ∀ fuel, ∃ σ',
          package_tree_graph api fuel roots linker context options σ
          = (σ', OutOfFuel)) ∧
  (∀ x, reachable (subclasses api) roots x →
        tc (child_of (subclasses api)) x x →
        ∀ fuel, ∃ σ',
          class_tree_graph api fuel roots linker context options σ
          = (σ', OutOfFuel)).
Proof.
  split; [|split; [|split]].
  - intros Hrank.
    destruct (tree_graph_terminates "Package Tree" _ _ linker context options
                σ Hrank)
      as (fuel0 & σ' & g & nodes & queue & seen & Hrun & Hone & Hpaths).
    exists fuel0, σ', g, nodes, queue, seen. split; [|done].
    intros fuel Hfuel. destruct (Hrun fuel Hfuel) as [Hexp E].
    split; [done|]. rewrite package_tree_graph_with_nodes_eq.
    split; [done|].
    unfold package_tree_graph. rewrite package_tree_graph_with_nodes_eq.
    by erewrite bind_ret by exact E.
  - intros Hrank.
    destruct (tree_graph_terminates "Class Hierarchy" _ _ linker context
                options σ Hrank)
      as (fuel0 & σ' & g & nodes & queue & seen & Hrun & Hone & Hpaths).
    exists fuel0, σ', g, nodes, queue, seen. split; [|done].
    intros fuel Hfuel. destruct (Hrun fuel Hfuel) as [Hexp E].
    split; [done|]. rewrite class_tree_graph_with_nodes_eq.
    split; [done|].
    unfold class_tree_graph. rewrite class_tree_graph_with_nodes_eq.
    by erewrite bind_ret by exact E.
  - intros x Hx Hcycle fuel.
    destruct (tree_graph_never_ends "Package Tree" _ _ linker context options
                σ x Hx Hcycle fuel) as [σ' E].
    exists σ'. unfold package_tree_graph.
    rewrite package_tree_graph_with_nodes_eq.
    by erewrite bind_out_of_fuel by exact E.
  - intros x Hx Hcycle fuel.
    destruct (tree_graph_never_ends "Class Hierarchy" _ _ linker context
                options σ x Hx Hcycle fuel) as [σ' E].
    exists σ'. unfold class_tree_graph.
    rewrite class_tree_graph_with_nodes_eq.
    by erewrite bind_out_of_fuel by exact E.
Qed.

(** C7, as amended.  The body of the graph a builder returns is the
    directive [rankdir=dir] unless [dir] is TB, where [dir] is the [dir]
    option, or LR for the package and class trees and RL for the import
    graph when the option is missing; for TB the body is empty. *)
Theorem rankdir_is_emitted_unless_TB fuel roots linker context options σ σ' g :
  (package_tree_graph api fuel roots linker context options σ = (σ', Ret g) →
   DotGraph.body g = rankdir_directive (get_dir options "LR")) ∧
  (class_tree_graph api fuel roots linker context options σ = (σ', Ret g) →
   DotGraph.body g = rankdir_directive (get_dir options "LR")) ∧
  (import_graph api roots linker context options σ = (σ', Ret g) →
   DotGraph.body g = rankdir_directive (get_dir options "RL")).
Proof.
  split; [|split].
  - unfold package_tree_graph. rewrite package_tree_graph_with_nodes_eq.
    intros E. apply bind_inv in E as (σ1 & [g1 nodes] & E1 & E).
    injection E as _ <-. by eapply tree_graph_body.
  - unfold class_tree_graph. rewrite class_tree_graph_with_nodes_eq.
    intros E. apply bind_inv in E as (σ1 & [g1 nodes] & E1 & E).
    injection E as _ <-. by eapply tree_graph_body.
  - destruct (import_graph_with_nodes_run roots linker context options σ)
      as (σ1 & g1 & nodes & E1 & _ & _ & _ & Hb).
    rewrite (import_graph_of_with_nodes _ _ _ _ _ _ _ _ E1).
    intros [= _ <-]. rewrite Hb. by apply add_rankdir_body.
Qed.

End builder_theorems.

(** *** The builders on concrete models *)

Lemma import_graph_longest_prefix_witness :
  longest_known_prefix import_api ["a"; "b"; "c"] 1.
Proof.
  destruct (import_graph_longest_prefix import_api [0; 1; 2] no_linker None ∅
              initial_state) as (σ' & g & nodes & _ & _ & _ & _ & H).
  apply H; reflexivity.
Defined.

Lemma import_graph_one_edge_per_pair_witness :
  ∃ σ' g,
    import_graph import_api [0; 1; 2] no_linker None ∅ initial_state
    = (σ', Ret g) ∧
    NoDup (endpoints <$> DotGraph.edges g) ∧
    length (DotGraph.edges g) = 1.
Proof.
  destruct (import_graph_one_edge_per_pair import_api [0; 1; 2] no_linker None
              ∅ initial_state) as (σ' & g & nodes & _ & E & Hnd & _).
  exists σ', g. split; [exact E|]. split; [exact Hnd|].
  revert E. vm_compute. intros [= _ <-]. reflexivity.
Defined.

Lemma diamond_is_ranked :
  ranked (subclasses diamond_api) [0]
    (λ d, match d with 0 => 2 | 1 => 1 | 2 => 1 | _ => 0 end).
Proof.
  intros x y _ Hy. destruct x as [|[|[|x]]]; simpl in Hy.
  - apply elem_of_cons in Hy as [->|Hy]; [lia|].
    apply list_elem_of_singleton in Hy as ->. lia.
  - apply list_elem_of_singleton in Hy as ->. lia.
  - apply list_elem_of_singleton in Hy as ->. lia.
  - by apply elem_of_nil in Hy.
Defined.

Lemma tree_graphs_terminate_on_ranked_models_witness :
  (∃ fuel0 σ' g nodes queue seen,
     (∀ fuel, fuel0 ≤ fuel →
        expand (subclasses diamond_api) fuel [0] 0 (list_to_set [0])
        = Some (queue, seen) ∧
        class_tree_graph_with_nodes diamond_api fuel [0] no_linker None ∅
          initial_state = (σ', Ret (g, nodes)) ∧
        class_tree_graph diamond_api fuel [0] no_linker None ∅ initial_state
        = (σ', Ret g)) ∧
     one_node_each diamond_api (reachable (subclasses diamond_api) [0]) g
       nodes σ' ∧
     ∃ N, ∀ n, N ≤ n → queue ≡ₚ [0] ≫= path_ends (subclasses diamond_api) n) ∧
  (∀ fuel, ∃ σ',
     package_tree_graph cyclic_api fuel [0] no_linker None ∅ initial_state
     = (σ', OutOfFuel)).
Proof.
  split.
  - apply (proj1 (proj2 (tree_graphs_terminate_on_ranked_models diamond_api
                           [0] no_linker None ∅ initial_state))).
    eexists. exact diamond_is_ranked.
  - apply (proj1 (proj2 (proj2 (tree_graphs_terminate_on_ranked_models
                                  cyclic_api [0] no_linker None ∅
                                  initial_state))) 0).
    + exists 0. split; [by left|done].
    + apply (tc_l _ 0 1 0); [by left|]. apply tc_once. by left.
Defined.

(** C6 as it is stated fails: on a package and a submodule that list each
    other the traversal never ends, so that [package_tree_graph] returns
    for no amount of fuel; and in the diamond the traversal dequeues the
    class 3 twice. *)
Lemma traversal_cycle_and_diamond :
  (¬ ∃ fuel σ' g,
       package_tree_graph cyclic_api fuel [0] no_linker None ∅ initial_state
       = (σ', Ret g)) ∧
  (∃ seen, expand (subclasses diamond_api) 6 [0] 0 {[0]}
           = Some ([0; 1; 2; 3; 3], seen)).
Proof.
  split.
  - intros (fuel & σ' & g & E).
    unfold package_tree_graph, package_tree_graph_with_nodes in E.
    rewrite (expand_never_ends (submodules cyclic_api) (λ x, x ≤ 1)) in E.
    + apply bind_inv in E as (? & ? & E & _).
      apply bind_inv in E as (? & ? & _ & E).
      apply bind_inv in E as (? & ? & _ & E).
      apply bind_inv in E as (? & ? & _ & E). done.
    + intros x Hx. destruct x as [|[|x]]; [| |lia]; simpl.
      * split; [done|]. intros y Hy. apply list_elem_of_singleton in Hy. lia.
      * split; [done|]. intros y Hy. apply list_elem_of_singleton in Hy. lia.
    + intros x Hx. apply list_elem_of_singleton in Hx. lia.
    + simpl. lia.
  - eexists. vm_compute. reflexivity.
Qed.

Lemma rankdir_is_emitted_unless_TB_witness :
  ∃ σ' g,
    package_tree_graph diamond_api 2 [0] no_linker None {["dir" := "TB"]}
      initial_state = (σ', Ret g) ∧
    DotGraph.body g = EmptyString.
Proof.
  eexists _, _. split; [vm_compute; reflexivity|].
  transitivity (rankdir_directive (get_dir {["dir" := "TB"]} "LR"));
    [|by vm_compute].
  eapply (proj1 (rankdir_is_emitted_unless_TB diamond_api 2 [0] no_linker None
                   {["dir" := "TB"]} initial_state _ _)).
  vm_compute. reflexivity.
Defined.

(** C7 as it is stated fails: a [dir] option equal to the default of the
    builder is written into the body all the same. *)
Lemma default_direction_is_emitted :
  (∃ σ' g,
     package_tree_graph diamond_api 2 [0] no_linker None {["dir" := "LR"]}
       initial_state = (σ', Ret g) ∧
     DotGraph.body g = "rankdir=LR" +:+ newline) ∧
  (∃ σ' g,
     import_graph diamond_api [0] no_linker None {["dir" := "RL"]}
       initial_state = (σ', Ret g) ∧
     DotGraph.body g = "rankdir=RL" +:+ newline).
Proof. split; eexists _, _; split; vm_compute; reflexivity. Qed.

(** ** Further properties of the constructors *)

Lemma all_chars_app p s t :
  all_chars p (s +:+ t) = all_chars p s && all_chars p t.
Proof.
  induction s as [|c s IH]; [done|].
  rewrite string_app_cons. simpl. by rewrite IH, andb_assoc.
Qed.

Lemma all_chars_map_string p f s :
  (∀ c, p (f c) = true) → all_chars p (map_string f s) = true.
Proof.
  intros H. induction s as [|c s IH]; [done|]. simpl. by rewrite H, IH.
Qed.

Lemma map_string_id p f s :
  (∀ c, p c = true → f c = c) → all_chars p s = true → map_string f s = s.
Proof.
  intros H. induction s as [|c s IH]; [done|]. simpl.
  intros [Hc Hs]%andb_true_iff. by rewrite H, IH.
Qed.

Lemma length_map_string f s : String.length (map_string f s) = String.length s.
Proof. induction s as [|c s IH]; simpl; congruence. Qed.

Lemma uid_char_of_word c :
  is_uid_char (lower_char (if is_word c then c else "_"%char)) = true.
Proof. by destruct c as [[] [] [] [] [] [] [] []]. Qed.

Lemma uid_char_fixed c :
  is_uid_char c = true → lower_char (if is_word c then c else "_"%char) = c.
Proof. by destruct c as [[] [] [] [] [] [] [] []]. Qed.

Lemma map_string_compose f g s :
  map_string f (map_string g s) = map_string (λ c, f (g c)) s.
Proof. induction s as [|c s IH]; simpl; congruence. Qed.

Lemma base_uid_chars title :
  all_chars is_uid_char (DotGraph.base_uid title) = true.
Proof.
  unfold DotGraph.base_uid, lower, sub_nonword. rewrite map_string_compose.
  apply all_chars_map_string. intros c. apply uid_char_of_word.
Qed.

Lemma string_of_uint_chars d :
  all_chars is_uid_char (NilEmpty.string_of_uint d) = true.
Proof. induction d; simpl; done. Qed.

Lemma suffixed_chars uid n :
  all_chars is_uid_char uid = true →
  all_chars is_uid_char (DotGraph.suffixed uid n) = true.
Proof.
  intros H. unfold DotGraph.suffixed. rewrite !all_chars_app, H.
  unfold str_of_nat. by rewrite string_of_uint_chars.
Qed.

(** X1.  The constructor always returns, and the uid it issues consists of
    lower-case letters, digits and underscores only; without its suffix it
    is as long as the title.  A title that consists of such characters
    only is its own uid as long as no graph has taken it. *)
Theorem DotGraph_uid_alphabet title body nd ed σ :
  ∃ σ' g,
    DotGraph.__init__ title body nd ed σ = (σ', Ret g) ∧
    all_chars is_uid_char (DotGraph.uid g) = true ∧
    String.length (DotGraph.base_uid title) = String.length title ∧
    (all_chars is_uid_char title = true → (title ∉ uids σ) →
     DotGraph.uid g = title).
Proof.
  destruct (init_run title body nd ed σ) as (g & σ' & E & _ & Hiss & _).
  exists σ', g. split; [done|]. split; [|split].
  - destruct Hiss as [[_ ->]|[_ (n & _ & -> & _)]].
    + apply base_uid_chars.
    + apply suffixed_chars, base_uid_chars.
  - unfold DotGraph.base_uid, lower, sub_nonword.
    by rewrite !length_map_string.
  - intros Htitle Hfree.
    assert (Hb : DotGraph.base_uid title = title).
    { unfold DotGraph.base_uid, lower, sub_nonword. rewrite map_string_compose.
      eapply map_string_id; [|exact Htitle]. apply uid_char_fixed. }
    destruct Hiss as [[_ ->]|[Hin _]]; [done|]. by rewrite Hb in Hin.
Qed.

Lemma DotGraph_uid_alphabet_witness :
  ∃ σ' g,
    DotGraph.__init__ "package_tree" EmptyString None None initial_state
    = (σ', Ret g) ∧
    DotGraph.uid g = "package_tree".
Proof.
  destruct (DotGraph_uid_alphabet "package_tree" EmptyString None None
              initial_state) as (σ' & g & E & _ & _ & H).
  exists σ', g. split; [exact E|]. apply H; [reflexivity|].
  apply not_elem_of_empty.
Defined.

Lemma deref_empty_size σ l : size (deref σ l) = 0 ↔ deref σ l = ∅.
Proof. split; [apply map_size_empty_inv|intros ->; apply map_size_empty]. Qed.

Lemma deref_in_dom σ l : deref σ l ≠ ∅ → l ∈ dom (heap σ).
Proof.
  intros H. apply elem_of_dom. destruct (heap σ !! l) as [d|] eqn:E; [done|].
  exfalso. apply H. unfold deref. by rewrite lookup_total_alt, E.
Qed.

Lemma or_new_dict_spec d σ σ' l :
  DotGraph.or_new_dict d σ = (σ', Ret l) →
  (∀ l0, d = Some l0 → deref σ l0 ≠ ∅ → l = l0 ∧ σ' = σ) ∧
  (d = None ∨ (∃ l0, d = Some l0 ∧ deref σ l0 = ∅) →
   l = fresh (dom (heap σ)) ∧ σ' = set_heap (insert l ∅) σ).
Proof.
  unfold DotGraph.or_new_dict. unM.
  destruct d as [l0|]; [case_bool_decide as Hsz|]; intros [= <- <-].
  - apply deref_empty_size in Hsz. split; [by intros ? [= <-] ?|done].
  - rewrite deref_empty_size in Hsz. split; [by intros ? [= <-] _|].
    by intros [|(? & [= <-] & ?)].
  - split; [done|done].
Qed.

Lemma init_inv title body nd ed σ σ' g :
  DotGraph.__init__ title body nd ed σ = (σ', Ret g) →
  ∃ σ1 σ2,
    DotGraph.or_new_dict nd σ = (σ1, Ret (DotGraph.node_defaults g)) ∧
    DotGraph.or_new_dict ed σ1 = (σ2, Ret (DotGraph.edge_defaults g)) ∧
    same_but_heap σ' (set_uids (λ s, s ∪ {[DotGraph.uid g]}) σ') ∧
    heap σ' = heap σ2 ∧ next_id σ' = next_id σ2 ∧
    warnings σ' = warnings σ2 ∧ files σ' = files σ2 ∧
    open_files σ' = open_files σ2 ∧
    DotGraph.title g = title ∧ DotGraph.body g = body ∧
    DotGraph.nodes g = [] ∧ DotGraph.edges g = [].
Proof.
  unfold DotGraph.__init__. intros E.
  apply bind_inv in E as (σ1 & l1 & E1 & E).
  apply bind_inv in E as (σ2 & l2 & E2 & E).
  apply bind_inv in E as (σ3 & s3 & E3 & E). injection E3 as <- <-.
  apply bind_inv in E as (σ4 & uid & E4 & E).
  assert (σ4 = σ2) as ->.
  { destruct (decide _); [|by injection E4].
    destruct (DotGraph.first_unused _ _ _ _); [by injection E4|done]. }
  apply bind_inv in E as (σ5 & [] & E5 & E).
  injection E5 as <-. injection E as <- <-. simpl. exists σ1, σ2.
  split; [done|]. split; [done|]. split; [|done].
  unfold same_but_heap. simpl. split; [set_solver|done].
Qed.

(** X2.  [node_defaults or {}] and [edge_defaults or {}]: a dictionary
    that is passed in and is not empty becomes the dictionary of the graph
    itself, shared with the caller; for a missing or an empty one the graph
    gets a new empty dictionary, which is no dictionary that existed
    before, so that what the caller adds to the empty dictionary passed in
    never reaches the graph.  New edge defaults are never the node
    defaults, and no existing dictionary is changed. *)
Theorem DotGraph_defaults_shared_unless_empty title body nd ed σ σ' g :
  DotGraph.__init__ title body nd ed σ = (σ', Ret g) →
  heap σ ⊆ heap σ' ∧
  (∀ l, nd = Some l → deref σ l ≠ ∅ → DotGraph.node_defaults g = l) ∧
  (∀ l, ed = Some l → deref σ l ≠ ∅ → DotGraph.edge_defaults g = l) ∧
  (nd = None ∨ (∃ l, nd = Some l ∧ deref σ l = ∅) →
   (DotGraph.node_defaults g ∉ dom (heap σ)) ∧
   deref σ' (DotGraph.node_defaults g) = ∅) ∧
  (ed = None ∨ (∃ l, ed = Some l ∧ deref σ l = ∅) →
   (DotGraph.edge_defaults g ∉ dom (heap σ)) ∧
   deref σ' (DotGraph.edge_defaults g) = ∅ ∧
   DotGraph.edge_defaults g ≠ DotGraph.node_defaults g).
Proof.
  intros E. apply init_inv in E as (σ1 & σ2 & E1 & E2 & _ & Hh & _).
  destruct (or_new_dict_dom _ _ _ _ E1) as [Hin1 Hsub1].
  destruct (or_new_dict_dom _ _ _ _ E2) as [Hin2 Hsub2].
  destruct (or_new_dict_spec _ _ _ _ E1) as [Hs1 Hn1].
  destruct (or_new_dict_spec _ _ _ _ E2) as [Hs2 Hn2].
  rewrite <- Hh in *.
  assert (Hderef : ∀ l, deref σ1 l = ∅ ↔ deref σ l = ∅).
  { intros l. destruct (decide (deref σ l = ∅)) as [He|Hne].
    - split; [done|]. intros _. unfold deref in *.
      rewrite lookup_total_alt in *.
      destruct (heap σ1 !! l) as [d|] eqn:E; [|done]. simpl.
      destruct (heap σ !! l) as [d'|] eqn:E'.
      + apply (lookup_weaken _ _ _ _ E') in Hsub1. simpl in He. congruence.
      + destruct nd as [l0|].
        * destruct (decide (deref σ l0 = ∅)) as [He0|Hne0].
          -- destruct Hn1 as [-> ->]; [right; eauto|]. simpl in E.
             destruct (decide (l = fresh (dom (heap σ)))) as [->|Hl].
             ++ rewrite lookup_insert_eq in E. by injection E as <-.
             ++ rewrite lookup_insert_ne in E by done. congruence.
          -- destruct (Hs1 l0 eq_refl Hne0) as [_ ->]. congruence.
        * destruct Hn1 as [-> ->]; [by left|]. simpl in E.
          destruct (decide (l = fresh (dom (heap σ)))) as [->|Hl].
          -- rewrite lookup_insert_eq in E. by injection E as <-.
          -- rewrite lookup_insert_ne in E by done. congruence.
    - split; [|done]. intros He. exfalso. apply Hne.
      apply deref_in_dom, elem_of_dom in Hne as [d Hd].
      unfold deref in *. rewrite lookup_total_alt in *.
      rewrite (lookup_weaken _ _ _ _ Hd Hsub1) in He. by rewrite Hd. }
  split; [by etrans|]. split; [|split; [|split]].
  - intros l Hl Hne. by destruct (Hs1 l Hl Hne).
  - intros l Hl Hne. apply (Hs2 l Hl). by rewrite Hderef.
  - intros Hnew. destruct (Hn1 Hnew) as [Hl Hσ1]. split.
    + rewrite Hl. apply is_fresh.
    + assert (heap σ1 !! DotGraph.node_defaults g = Some ∅)
        by (rewrite Hσ1; simpl; apply lookup_insert_eq).
      unfold deref. rewrite lookup_total_alt.
      by erewrite (lookup_weaken (heap σ1)).
  - intros Hnew.
    assert (Hnew1 : ed = None ∨ ∃ l, ed = Some l ∧ deref σ1 l = ∅).
    { destruct Hnew as [|(l & ? & ?)]; [by left|right].
      exists l. by rewrite Hderef. }
    destruct (Hn2 Hnew1) as [Hl Hσ2].
    assert (Hfresh : DotGraph.edge_defaults g ∉ dom (heap σ1))
      by (rewrite Hl; apply is_fresh).
    split; [|split].
    + intros Hin. apply Hfresh. apply elem_of_dom in Hin as [d Hd].
      apply elem_of_dom. exists d. by eapply lookup_weaken.
    + unfold deref. rewrite lookup_total_alt.
      apply (f_equal heap) in Hσ2. rewrite <- Hh in Hσ2. rewrite Hσ2. simpl.
      by rewrite lookup_insert_eq.
    + intros Heq. apply Hfresh. by rewrite Heq.
Qed.

Lemma DotGraph_defaults_shared_unless_empty_witness :
  ∃ σ' g,
    DotGraph.__init__ "g" EmptyString (Some 4) (Some 3) edge_href_state
    = (σ', Ret g) ∧
    DotGraph.node_defaults g = 4 ∧ DotGraph.edge_defaults g = 3.
Proof.
  eexists _, _. split; [vm_compute; reflexivity|].
  destruct (DotGraph_defaults_shared_unless_empty "g" EmptyString (Some 4)
              (Some 3) edge_href_state _ _ eq_refl) as (_ & H1 & H2 & _).
  split; [by apply H1|by apply H2].
Defined.

(** ** Further properties of the nodes *)

Lemma node_init_run label kwargs σ :
  DotGraphNode.__init__ label kwargs σ
  = (with_new_node (fresh (dom (heap σ)))
       (match label with
        | Some v => <["label" := v]> kwargs
        | None => kwargs
        end) σ,
     Ret (DotGraphNode.mk (fresh (dom (heap σ))) (next_id σ))).
Proof. reflexivity. Qed.

Lemma nodes_constructed_inv σ ns σ' :
  nodes_constructed σ ns σ' →
  next_id σ ≤ next_id σ' ∧ dom (heap σ) ⊆ dom (heap σ') ∧
  (∀ n, n ∈ ns →
        next_id σ ≤ DotGraphNode.id n < next_id σ' ∧
        (DotGraphNode.attribs n ∉ dom (heap σ)) ∧
        DotGraphNode.attribs n ∈ dom (heap σ')) ∧
  (∀ i j ni nj, ns !! i = Some ni → ns !! j = Some nj → i < j →
                DotGraphNode.id ni < DotGraphNode.id nj ∧
                DotGraphNode.attribs ni ≠ DotGraphNode.attribs nj).
Proof.
  induction 1 as [σ|σ ns σ1 label kwargs σ2 n _ (IHn & IHd & IHin & IHlt) Hinit
                 |σ ns σ1 σ2 _ (IHn & IHd & IHin & IHlt) Hle Hdom].
  - split; [done|]. split; [done|]. split.
    + intros n Hn. by apply elem_of_nil in Hn.
    + intros i j ni nj Hi. by rewrite lookup_nil in Hi.
  - rewrite node_init_run in Hinit. injection Hinit as <- <-. simpl.
    assert (Hfresh : fresh (dom (heap σ1)) ∉ dom (heap σ1)) by apply is_fresh.
    split; [lia|]. split; [rewrite dom_insert; set_solver|]. split.
    + intros n Hn. apply elem_of_app in Hn as [Hn|Hn].
      * destruct (IHin n Hn) as (? & ? & ?). split; [lia|]. split; [done|].
        rewrite dom_insert. set_solver.
      * apply list_elem_of_singleton in Hn as ->. simpl. split; [lia|].
        split; [set_solver|]. rewrite dom_insert. set_solver.
    + intros i j ni nj Hi Hj Hij.
      assert (Hilt : i < length ns).
      { apply lookup_lt_Some in Hj. rewrite length_app in Hj. simpl in Hj.
        lia. }
      rewrite lookup_app_l in Hi by done.
      destruct (decide (j < length ns)) as [Hjlt|Hjge].
      * rewrite lookup_app_l in Hj by done. eauto.
      * rewrite lookup_app_r in Hj by lia.
        destruct (j - length ns) as [|k] eqn:Ek; [|done].
        injection Hj as <-. simpl.
        destruct (IHin ni) as (? & ? & ?);
          [apply list_elem_of_lookup; by exists i|].
        split; [lia|]. intros Heq. apply Hfresh. by rewrite <- Heq.
  - split; [lia|]. split; [set_solver|]. split; [|done].
    intros n Hn. destruct (IHin n Hn) as (? & ? & ?). split; [lia|].
    split; [done|]. set_solver.
Qed.

(** X3.  The nodes made in one run of the process get the values of the
    counter in the order of their construction: a node made later has a
    greater id, so that no two nodes of the process, of the same graph or
    not, share an id; and each node has a dictionary that no node made
    before has and that did not exist before the run. *)
Theorem DotGraphNode_ids_increase σ ns σ' :
  nodes_constructed σ ns σ' →
  (∀ i j ni nj, ns !! i = Some ni → ns !! j = Some nj → i < j →
                DotGraphNode.id ni < DotGraphNode.id nj ∧
                DotGraphNode.attribs ni ≠ DotGraphNode.attribs nj) ∧
  (∀ n, n ∈ ns →
        next_id σ ≤ DotGraphNode.id n < next_id σ' ∧
        (DotGraphNode.attribs n ∉ dom (heap σ))) ∧
  NoDup (DotGraphNode.id <$> ns) ∧
  NoDup (DotGraphNode.attribs <$> ns).
Proof.
  intros H. apply nodes_constructed_inv in H as (_ & _ & Hin & Hlt).
  split; [done|]. split; [intros n Hn; by destruct (Hin n Hn) as (? & ? & _)|].
  split.
  - apply NoDup_alt. intros i j x Hi Hj.
    apply list_lookup_fmap_Some in Hi as (ni & -> & Hi).
    apply list_lookup_fmap_Some in Hj as (nj & Hj' & Hj).
    destruct (Nat.lt_trichotomy i j) as [Hc|[Hc|Hc]]; [|done|].
    + destruct (Hlt i j ni nj Hi Hj Hc). lia.
    + destruct (Hlt j i nj ni Hj Hi Hc). lia.
  - apply NoDup_alt. intros i j x Hi Hj.
    apply list_lookup_fmap_Some in Hi as (ni & -> & Hi).
    apply list_lookup_fmap_Some in Hj as (nj & Hj' & Hj).
    destruct (Nat.lt_trichotomy i j) as [Hc|[Hc|Hc]]; [|done|].
    + by destruct (Hlt i j ni nj Hi Hj Hc).
    + by destruct (Hlt j i nj ni Hj Hi Hc).
Qed.

Lemma DotGraphNode_ids_increase_witness :
  NoDup (DotGraphNode.id <$> [DotGraphNode.mk 0 0; DotGraphNode.mk 1 1]).
Proof.
  apply (DotGraphNode_ids_increase initial_state
           [DotGraphNode.mk 0 0; DotGraphNode.mk 1 1]
           (with_new_node 1 ∅
              (with_new_node 0 {[ "label" := VStr "a" ]} initial_state))).
  apply (nodes_constructed_init initial_state [DotGraphNode.mk 0 0]
           (with_new_node 0 {[ "label" := VStr "a" ]} initial_state) None ∅).
  - apply (nodes_constructed_init initial_state [] initial_state
             (Some (VStr "a")) ∅); [apply nodes_constructed_nil|].
    vm_compute. reflexivity.
  - vm_compute. reflexivity.
Defined.

(** ** Further properties of link resolution *)

Lemma only_href_differs_refl σ : only_href_differs σ σ.
Proof. by repeat split. Qed.

Lemma only_href_differs_trans σ1 σ2 σ3 :
  only_href_differs σ1 σ2 → only_href_differs σ2 σ3 →
  only_href_differs σ1 σ3.
Proof.
  intros ((Ha1 & Hb1 & Hc1 & Hd1 & He1) & Hdom1 & H1)
         ((Ha2 & Hb2 & Hc2 & Hd2 & He2) & Hdom2 & H2).
  split; [repeat split; congruence|]. split; [congruence|].
  intros l k Hk. by rewrite H2, H1.
Qed.

Lemma dom_insert_known (h : gmap loc dict) l d :
  l ∈ dom h → dom (<[l := d]> h) = dom h.
Proof. intros Hl. rewrite dom_insert_L. set_solver. Qed.

Lemma link_href_only_href l linker σ σ' out :
  DotGraph._link_href l linker σ = (σ', out) → only_href_differs σ σ'.
Proof.
  unfold DotGraph._link_href. unM.
  destruct (deref σ l !! "href") as [v|] eqn:Eh;
    [|intros [= <- _]; apply only_href_differs_refl].
  assert (Hl : l ∈ dom (heap σ)).
  { apply deref_in_dom. intros He. by rewrite He, lookup_empty in Eh. }
  destruct v as [s| | |]; try (intros [= <- _]; apply only_href_differs_refl).
  destruct (match_placeholder s) as [name|];
    [|intros [= <- _]; apply only_href_differs_refl].
  destruct (truthy _) as [url|]; intros [= <- _].
  - split; [by repeat split|]. simpl. split; [by apply dom_insert_known|].
    intros l' k Hk. unfold deref. simpl.
    destruct (decide (l' = l)) as [->|Hne].
    + rewrite lookup_total_insert_eq. by rewrite lookup_insert_ne.
    + by rewrite lookup_total_insert_ne.
  - split; [by repeat split|]. simpl. split; [by apply dom_insert_known|].
    intros l' k Hk. unfold deref. simpl.
    destruct (decide (l' = l)) as [->|Hne].
    + rewrite lookup_total_insert_eq. by rewrite lookup_delete_ne.
    + by rewrite lookup_total_insert_ne.
Qed.

Lemma for_each_only_href linker ls : ∀ σ σ' out,
  for_each ls (λ l, DotGraph._link_href l linker) σ = (σ', out) →
  only_href_differs σ σ'.
Proof.
  induction ls as [|l ls IH]; intros σ σ' out; simpl.
  - intros [= <- _]. apply only_href_differs_refl.
  - unfold mbind, M_bind.
    destruct (DotGraph._link_href l linker σ) as [σ1 o1] eqn:E1.
    apply link_href_only_href in E1.
    destruct o1; [|by intros [= <- _]|by intros [= <- _]].
    intros E. apply IH in E. by eapply only_href_differs_trans.
Qed.

(** X4.  Whatever the linker answers and however the call ends, [link]
    changes nothing but values under the key [href]: every other
    attribute of every dictionary is what it was, no dictionary appears or
    disappears, the registry of uids, the counter of the nodes, the log
    and the files are untouched; and the graph it leaves differs from the
    one it was called on in its body only. *)
Theorem link_changes_only_href self linker σ σ' out :
  DotGraph.link self linker σ = (σ', out) →
  only_href_differs σ σ' ∧
  ∀ g, out = Ret g →
       DotGraph.set_body (DotGraph.body self) g = self.
Proof.
  intros E. split.
  - rewrite link_visits in E. unfold mbind, M_bind in E.
    destruct (for_each _ _ σ) as [σ1 o1] eqn:E1.
    apply for_each_only_href in E1. by destruct o1; injection E as <- _.
  - intros g ->. apply link_frame in E as [_ Hg].
    rewrite (Hg g eq_refl). by destruct self.
Qed.

Lemma link_changes_only_href_witness :
  deref (DotGraph.link edge_href_graph html_linker edge_href_state).1 2
    !! "label"
  = Some (VStr "a").
Proof.
  destruct (link_changes_only_href edge_href_graph html_linker edge_href_state
              _ _ (surjective_pairing _)) as [(_ & _ & H) _].
  by rewrite H.
Defined.















Lemma expect_word_cross c w c' u q t :
  occurs_in q w = false →
  expect_word (String c w) (String c' u) = None →
  expect_word (String c w) (String c' u +:+ String q t) = None.
Proof.
  intros Hq. rewrite string_app_cons.
  change (expect_word (String c w) (String c' ?x))
    with (match (if Ascii.eqb c c' then Some x else None) with
          | Some s' => expect_word w s'
          | None => None
          end).
  destruct (Ascii.eqb c c'); [|done]. by apply expect_word_app_None.
Qed.

Lemma re_sub_href_prefix f pre t :
  has_href_word pre = false →
  re_sub_href f (pre +:+ String "h" t) = pre +:+ re_sub_href f (String "h" t).
Proof.
  induction pre as [|c v IH]; [done|]. intros Hpre.
  change (match expect_word "href" (String c v) with
          | Some _ => true
          | None => has_href_word v
          end = false) in Hpre.
  destruct (expect_word "href" (String c v)) eqn:E; [done|].
  rewrite !string_app_cons, re_sub_href_unfold.
  assert (match_href (String c (v +:+ String "h" t)) = None) as ->.
  { unfold match_href. rewrite <- string_app_cons.
    by rewrite (expect_word_cross "h" "ref" c v "h" t). }
  by rewrite IH.
Qed.

Lemma span_name_app name c t :
  all_chars is_name_char name = true → is_name_char c = false →
  span_name (name +:+ String c t) = (name, String c t).
Proof.
  intros Hname Hc. induction name as [|x name IH].
  - change (EmptyString +:+ String c t) with (String c t).
    change (span_name (String c t))
      with (if is_name_char c
            then let '(n, r) := span_name t in (String c n, r)
            else (EmptyString, String c t)).
    by rewrite Hc.
  - simpl in Hname. apply andb_true_iff in Hname as [Hx Hname].
    rewrite string_app_cons.
    change (span_name (String x (name +:+ String c t)))
      with (if is_name_char x
            then let '(n, r) := span_name (name +:+ String c t) in
                 (String x n, r)
            else (EmptyString, String x (name +:+ String c t))).
    by rewrite Hx, IH.
Qed.

Lemma starts_plain_skip post :
  starts_plain post = true →
  skip_spaces (skip_quote post) = post ∧ expect "," post = None.
Proof.
  destruct post as [|c s]; [done|].
  change (negb (is_quote c || is_space c || Ascii.eqb c ",") = true
          → skip_spaces (if is_quote c then s else String c s) = String c s ∧
            (if Ascii.eqb "," c then Some s else None) = None).
  destruct (is_quote c); [done|]. rewrite Ascii.eqb_sym.
  destruct (is_space c) eqn:Es; [done|].
  destruct (Ascii.eqb "," c); [done|]. intros _. split; [|done].
  change (skip_spaces (String c s))
    with (if is_space c then skip_spaces s else String c s).
  by rewrite Es.
Qed.

Lemma match_href_placeholder name comma post :
  name ≠ EmptyString → all_chars is_name_char name = true →
  comma = "," ∨ comma = EmptyString ∧ starts_plain post = true →
  match_href ("href=<" +:+ name +:+ ">" +:+ comma +:+ post)
  = Some (name, comma, post).
Proof.
  intros Hne Hname Hcomma. unfold match_href.
  change (expect_word "href" ("href=<" +:+ ?x)) with (Some ("=<" +:+ x)).
  cbv beta iota.
  change (skip_spaces ("=<" +:+ ?x)) with ("=<" +:+ x).
  change (expect "=" ("=<" +:+ ?x)) with (Some ("<" +:+ x)).
  cbv beta iota.
  change (skip_spaces ("<" +:+ ?x)) with ("<" +:+ x).
  change (skip_quote ("<" +:+ ?x)) with ("<" +:+ x).
  change (expect "<" ("<" +:+ ?x)) with (Some x).
  cbv beta iota.
  change (">" +:+ comma +:+ post) with (String ">" (comma +:+ post)).
  rewrite span_name_app by done.
  destruct name as [|x name]; [done|].
  change (expect ">" (String ">" ?x)) with (Some x).
  cbv beta iota zeta.
  destruct Hcomma as [->|[-> Hpost]].
  - change ("," +:+ post) with (String "," post).
    change (skip_quote (String "," post)) with (String "," post).
    change (skip_spaces (String "," post)) with (String "," post).
    by change (expect "," (String "," post)) with (Some post).
  - change (EmptyString +:+ post) with post.
    destruct (starts_plain_skip post Hpost) as [-> ->]. done.
Qed.

Lemma re_sub_href_placeholder f pre name comma post :
  has_href_word pre = false →
  name ≠ EmptyString → all_chars is_name_char name = true →
  comma = "," ∨ comma = EmptyString ∧ starts_plain post = true →
  href_occurs post = false →
  re_sub_href f (pre +:+ "href=<" +:+ name +:+ ">" +:+ comma +:+ post)
  = pre +:+ f name comma +:+ post.
Proof.
  intros Hpre Hne Hname Hcomma Hpost.
  change ("href=<" +:+ name +:+ ">" +:+ comma +:+ post)
    with (String "h" ("ref=<" +:+ name +:+ ">" +:+ comma +:+ post)).
  rewrite re_sub_href_prefix by done. f_equal.
  rewrite re_sub_href_unfold.
  change (String "h" ("ref=<" +:+ name +:+ ">" +:+ comma +:+ post))
    with ("href=<" +:+ name +:+ ">" +:+ comma +:+ post).
  rewrite match_href_placeholder by done. f_equal.
  unfold re_sub_href. by apply re_sub_href_fuel_no_match.
Qed.

(** X7.  The substitution in the body: where the body holds the text
    href=<name>, with a name of letters, digits, underscores and dots,
    followed by a comma or by a character that is neither a quote, white
    space nor a comma, and the word href occurs nowhere before it and no
    further placeholder after it, [link] replaces exactly that text: by
    href= and the quoted URL, keeping the comma, when the linker has a URL
    for the name, and by nothing, dropping the comma, when it has none.
    The text before and after is kept as it is. *)
Theorem link_substitutes_body_placeholder linker self σ σ' g pre name comma
    post :
  DotGraph.body self = pre +:+ "href=<" +:+ name +:+ ">" +:+ comma +:+ post →
  has_href_word pre = false →
  name ≠ EmptyString → all_chars is_name_char name = true →
  comma = "," ∨ comma = EmptyString ∧ starts_plain post = true →
  href_occurs post = false →
  DotGraph.link self linker σ = (σ', Ret g) →
  (∀ url, truthy (url_for linker (ByName name)) = Some url →
          DotGraph.body g
          = pre +:+ "href=" +:+ dquote +:+ url +:+ dquote +:+ comma +:+ post) ∧
  (truthy (url_for linker (ByName name)) = None →
   DotGraph.body g = pre +:+ post).
Proof.
  intros Hbody Hpre Hne Hname Hcomma Hpost E.
  apply link_frame in E as [_ Hg]. rewrite (Hg g eq_refl). simpl.
  rewrite Hbody, re_sub_href_placeholder by done.
  unfold DotGraph.subfunc. split.
  - intros url ->. f_equal. by rewrite !string_app_assoc.
  - by intros ->.
Qed.

Lemma link_substitutes_body_placeholder_witness :
  DotGraph.body (DotGraph.set_body
                   (re_sub_href (DotGraph.subfunc html_linker)
                      (DotGraph.body body_href_graph)) body_href_graph)
  = "n [shape=box, " +:+ "href=" +:+ dquote +:+ "a.b.html" +:+ dquote +:+ ","
    +:+ " label=x]".
Proof.
  eapply (proj1 (link_substitutes_body_placeholder html_linker body_href_graph
                   initial_state initial_state _ "n [shape=box, " "a.b" ","
                   " label=x]" eq_refl eq_refl _ eq_refl (or_introl eq_refl)
                   eq_refl eq_refl)).
  reflexivity.
  Unshelve. done.
Defined.

(** ** Further properties of rendering *)

(** X8.  When the renderer cannot be started, [render] does not return
    [None]: it raises.  With neither [subprocess] nor [popen2] to import
    it raises the [ImportError] of the second import; when the process
    cannot be started, the [OSError] of the launch leaves [render] as it
    is, also when it came from [subprocess] and [popen2] could have been
    tried.  In both cases nothing is logged, [write] raises the same
    exception and no file is opened or written. *)
Theorem render_raises_when_renderer_cannot_start os self language filename σ :
  (has_subprocess os = false → has_popen2 os = false →
   DotGraph.render os self language σ = (σ, Raise ImportError) ∧
   DotGraph.write os self filename language σ = (σ, Raise ImportError)) ∧
  (∀ cmd, DotGraph.popen_command os language = Some cmd →
          spawn os cmd (DotGraph.to_dotfile σ self) = None →
          DotGraph.render os self language σ = (σ, Raise OSError) ∧
          DotGraph.write os self filename language σ = (σ, Raise OSError)).
Proof.
  split.
  - intros H1 H2.
    assert (E : DotGraph.render os self language σ = (σ, Raise ImportError)).
    { unfold DotGraph.render, DotGraph.popen, DotGraph.popen_command. unM.
      by rewrite H1, H2. }
    split; [done|]. unfold DotGraph.write. by apply bind_raise.
  - intros cmd Hcmd Hspawn.
    assert (E : DotGraph.render os self language σ = (σ, Raise OSError)).
    { unfold DotGraph.render, DotGraph.popen. unM. by rewrite Hcmd, Hspawn. }
    split; [done|]. unfold DotGraph.write. by apply bind_raise.
Qed.

Lemma render_raises_when_renderer_cannot_start_witness :
  DotGraph.write no_popen empty_graph "out.gif" "gif" initial_state
  = (initial_state, Raise ImportError) ∧
  DotGraph.write no_dot empty_graph "out.gif" "gif" initial_state
  = (initial_state, Raise OSError).
Proof.
  split.
  - apply (render_raises_when_renderer_cannot_start no_popen empty_graph "gif"
             "out.gif" initial_state); reflexivity.
  - apply (proj2 (render_raises_when_renderer_cannot_start no_dot empty_graph
                    "gif" "out.gif" initial_state) (Argv ["dot"; "-Tgif"]));
      reflexivity.
Defined.

(** X9.  When the renderer takes its input and exits with a nonzero
    status, the warning that [render] logs is the fixed text and nothing
    else, however often [poll] found the renderer running and whatever it
    wrote: the reads of the loop and the one after it have taken all there
    is on the channel, so that the [read] for the message returns the empty
    text.  What the renderer wrote is neither returned nor logged, and the
    rest of the state is left as it is. *)
Theorem render_warning_carries_no_output os self language σ cmd c :
  DotGraph.popen_command os language = Some cmd →
  spawn os cmd (DotGraph.to_dotfile σ self) = Some c →
  takes_input c = true →
  exitval c ≠ 0%Z →
  DotGraph.render os self language σ
  = (set_warnings
       (λ w, w ++ ["Unable to render Graphviz dot graph:" +:+ newline]) σ,
     Ret None).
Proof.
  intros Hcmd Hspawn Hin Hexit.
  rewrite (render_run _ _ _ _ _ _ Hcmd Hspawn), Hin.
  by rewrite bool_decide_eq_true_2 by done.
Qed.

Lemma render_warning_carries_no_output_witness :
  warnings (DotGraph.render bad_renderer empty_graph "gif" initial_state).1
  = ["Unable to render Graphviz dot graph:" +:+ newline].
Proof.
  by rewrite (render_warning_carries_no_output bad_renderer empty_graph "gif"
                initial_state (Shell "dot -Tgif")
                (mkChild "Error: syntax" 1 1 true) eq_refl eq_refl eq_refl).
Defined.

(** ** Further properties of the builders *)



Section more_builder_theorems.
Context (api : APIDoc).

Lemma add_valdoc_node_full linker context g nodes d σ :
  add_valdoc_node api linker context (g, nodes) d σ
  = (with_new_node (fresh (dom (heap σ))) (node_attribs api linker context d) σ,
     Ret (DotGraph.set_nodes
            (DotGraph.nodes g
               ++ [DotGraphNode.mk (fresh (dom (heap σ))) (next_id σ)]) g,
          <[d := DotGraphNode.mk (fresh (dom (heap σ))) (next_id σ)]> nodes)).
Proof.
  unfold add_valdoc_node, DotGraphNode.__init__, node_attribs. unM. simpl.
  case_bool_decide.
  - unfold with_new_node, set_heap, set_next_id, deref. simpl.
    by rewrite insert_insert_eq, lookup_total_insert_eq.
  - destruct (truthy _) as [url|]; [|done].
    unfold with_new_node, set_heap, set_next_id, deref. simpl.
    by rewrite insert_insert_eq, lookup_total_insert_eq.
Qed.

Lemma add_valdoc_nodes_loop_full linker context docs : ∀ g nodes σ,
  ∃ σ' new nodes',
    add_valdoc_nodes_loop api linker context docs (g, nodes) σ
    = (σ', Ret (DotGraph.set_nodes (DotGraph.nodes g ++ new) g, nodes')) ∧
    heap σ ⊆ heap σ' ∧
    next_id σ' = next_id σ + length docs ∧
    uids σ' = uids σ ∧ warnings σ' = warnings σ ∧ files σ' = files σ ∧
    open_files σ' = open_files σ ∧
    DotGraphNode.id <$> new = seq (next_id σ) (length docs) ∧
    Forall2 (λ d n,
               heap σ' !! DotGraphNode.attribs n
               = Some (node_attribs api linker context d) ∧
               DotGraphNode.attribs n ∉ dom (heap σ)) docs new ∧
    dom nodes' = dom nodes ∪ list_to_set docs ∧
    (∀ d n, nodes' !! d = Some n →
            nodes !! d = Some n ∧ d ∉ docs ∨
            ∃ i, docs !! i = Some d ∧ new !! i = Some n).
Proof.
  induction docs as [|d docs IH]; intros g nodes σ.
  - exists σ, [], nodes. simpl. unM. rewrite app_nil_r.
    split; [by destruct g|]. split; [done|]. split; [lia|].
    do 5 (split; [done|]). split; [constructor|].
    split; [by rewrite (right_id_L ∅ (∪))|].
    intros d n Hd. left. split; [done|]. apply not_elem_of_nil.
  - simpl. erewrite bind_ret by apply add_valdoc_node_full.
    set (l := fresh (dom (heap σ))).
    set (node := DotGraphNode.mk l (next_id σ)).
    set (dct := node_attribs api linker context d).
    destruct (IH (DotGraph.set_nodes (DotGraph.nodes g ++ [node]) g)
                (<[d := node]> nodes) (with_new_node l dct σ))
      as (σ' & new & nodes' & E & Hh & Hn & Hu & Hw & Hf & Ho & Hids & Hfa
          & Hdom & Hnodes).
    assert (Hfresh : l ∉ dom (heap σ)) by apply is_fresh.
    assert (Hsub : heap σ ⊆ heap (with_new_node l dct σ)).
    { simpl. by apply insert_subseteq, not_elem_of_dom. }
    simpl in E. rewrite <- app_assoc in E. simpl in *.
    exists σ', (node :: new), nodes'. split; [exact E|].
    split; [by etrans|]. split; [lia|]. do 4 (split; [done|]).
    split; [|split; [|split]].
    + change (DotGraphNode.id node :: (DotGraphNode.id <$> new)
              = next_id σ :: seq (S (next_id σ)) (length docs)).
      f_equal. exact Hids.
    + constructor.
      * split; [|done]. eapply lookup_weaken; [|exact Hh]. simpl.
        apply lookup_insert_eq.
      * eapply Forall2_impl; [exact Hfa|]. intros d' n [H1 H2].
        split; [done|]. intros Hin. apply H2. rewrite dom_insert.
        apply elem_of_union. by right.
    + rewrite Hdom, dom_insert_L. set_solver.
    + intros d' n Hd'. destruct (Hnodes d' n Hd') as [[H1 H2]|(i & H1 & H2)].
      * destruct (decide (d = d')) as [<-|Hne].
        -- rewrite lookup_insert_eq in H1. injection H1 as <-.
           right. by exists 0.
        -- rewrite lookup_insert_ne in H1 by done. left. split; [done|].
           by apply not_elem_of_cons.
      * right. by exists (S i).
Qed.

(** X10.  [add_valdoc_nodes] always returns.  It keeps the nodes that the
    graph has and appends one new node for each element of [val_docs], an
    element that occurs twice included, in the order of [sorted]; the new
    nodes get consecutive ids from the counter on; each has a dictionary
    of its own that did not exist before, with the canonical name as
    label, the three fill attributes and no [href] when its object is the
    context, and otherwise an [href] exactly when the linker has a
    non-empty URL for the object.  The dictionary it returns has the
    elements of [val_docs] as keys, each with one of its new nodes, and no
    dictionary that existed before is changed. *)
Theorem add_valdoc_nodes_attributes linker context docs g σ :
  ∃ σ' new nodes,
    add_valdoc_nodes api g docs linker context σ
    = (σ', Ret (DotGraph.set_nodes (DotGraph.nodes g ++ new) g, nodes)) ∧
    DotGraphNode.id <$> new = seq (next_id σ) (length docs) ∧
    next_id σ' = next_id σ + length docs ∧
    Forall2 (λ d n,
               deref σ' (DotGraphNode.attribs n)
               = node_attribs api linker context d ∧
               DotGraphNode.attribs n ∉ dom (heap σ))
      (sorted (canonical_name api) docs) new ∧
    heap σ ⊆ heap σ' ∧
    dom nodes = list_to_set docs ∧
    (∀ d n, nodes !! d = Some n →
            ∃ i, sorted (canonical_name api) docs !! i = Some d ∧
                 new !! i = Some n).
Proof.
  unfold add_valdoc_nodes.
  destruct (add_valdoc_nodes_loop_full linker context
              (sorted (canonical_name api) docs) g ∅ σ)
    as (σ' & new & nodes & E & Hh & Hn & _ & _ & _ & _ & Hids & Hfa & Hdom
        & Hnodes).
  assert (Hlen : length (sorted (canonical_name api) docs) = length docs)
    by by rewrite sorted_perm.
  rewrite Hlen in *.
  exists σ', new, nodes. split; [done|]. split; [done|]. split; [done|].
  split; [|split; [done|split]].
  - eapply Forall2_impl; [exact Hfa|]. intros d n [H1 H2]. split; [|done].
    unfold deref. by rewrite (lookup_total_correct _ _ _ H1).
  - rewrite Hdom, dom_empty_L, (left_id_L ∅ (∪)).
    apply set_eq. intros x. rewrite !elem_of_list_to_set.
    by rewrite sorted_perm.
  - intros d n Hd. destruct (Hnodes d n Hd) as [[H _]|H]; [|done].
    by rewrite lookup_empty in H.
Qed.

End more_builder_theorems.

Section built_graphs.
Context (api : APIDoc).

Lemma append_edges_full nodes pairs : ∀ g σ σ' g',
  append_edges nodes g pairs σ = (σ', Ret g') →
  ∃ es, g' = DotGraph.set_edges (DotGraph.edges g ++ es) g ∧
        heap σ ⊆ heap σ' ∧
        warnings σ' = warnings σ ∧ files σ' = files σ ∧
        open_files σ' = open_files σ ∧
        Forall2 (edge_of nodes) pairs es ∧
        Forall (λ e, heap σ' !! DotGraphEdge.attribs e = Some ∅ ∧
                     DotGraphEdge.attribs e ∉ dom (heap σ)) es.
Proof.
  induction pairs as [|[a b] pairs IH]; intros g σ σ' g' E; simpl in E.
  - injection E as <- <-. exists []. rewrite app_nil_r.
    split; [by destruct g|]. do 4 (split; [done|]). by split.
  - apply bind_inv in E as (σ1 & g1 & E1 & E).
    unfold append_edge in E1.
    apply bind_inv in E1 as (σa & na & Ea & E1).
    apply bind_inv in E1 as (σb & nb & Eb & E1).
    unfold getitem in Ea, Eb.
    destruct (nodes !! a) as [na'|] eqn:Ha; [|done]. injection Ea as <- <-.
    destruct (nodes !! b) as [nb'|] eqn:Hb; [|done]. injection Eb as <- <-.
    apply bind_inv in E1 as (σe & e & Ee & E1).
    injection E1 as <- <-. injection Ee as <- <-.
    apply IH in E as (es & -> & Hh & Hw & Hf & Ho & Hfa & Hes). simpl in *.
    assert (Hfresh : fresh (dom (heap σ)) ∉ dom (heap σ)) by apply is_fresh.
    assert (Hsub : heap σ ⊆ <[fresh (dom (heap σ)) := ∅]> (heap σ))
      by by apply insert_subseteq, not_elem_of_dom.
    exists (DotGraphEdge.mk na' nb' (fresh (dom (heap σ))) :: es).
    split; [unfold DotGraph.set_edges; simpl; by rewrite <- app_assoc|].
    split; [by etrans|]. do 3 (split; [done|]). split; [by constructor|].
    constructor.
    + split; [|done]. eapply lookup_weaken; [|exact Hh].
      apply lookup_insert_eq.
    + eapply Forall_impl; [exact Hes|]. intros e [H1 H2]. split; [done|].
      intros Hin. apply H2. rewrite dom_insert. apply elem_of_union.
      by right.
Qed.

Lemma nodes_then_edges_inv g0 σ0 docs linker context
    (pairs : gmap val_doc DotGraphNode.t → list (val_doc * val_doc))
    σ' g nodes :
  DotGraph.nodes g0 = [] → DotGraph.edges g0 = [] →
  (add_valdoc_nodes api g0 docs linker context ≫= λ '(graph, nodes),
     append_edges nodes graph (pairs nodes) ≫= λ graph,
     mret (graph, nodes)) σ0 = (σ', Ret (g, nodes)) →
  heap σ0 ⊆ heap σ' ∧
  warnings σ' = warnings σ0 ∧ files σ' = files σ0 ∧
  open_files σ' = open_files σ0 ∧
  DotGraph.body g = DotGraph.body g0 ∧
  DotGraph.node_defaults g = DotGraph.node_defaults g0 ∧
  DotGraph.edge_defaults g = DotGraph.edge_defaults g0 ∧
  DotGraph.uid g = DotGraph.uid g0 ∧
  Forall2 (λ d n,
             heap σ' !! DotGraphNode.attribs n
             = Some (node_attribs api linker context d) ∧
             DotGraphNode.attribs n ∉ dom (heap σ0))
    (sorted (canonical_name api) docs) (DotGraph.nodes g) ∧
  Forall2 (edge_of nodes) (pairs nodes) (DotGraph.edges g) ∧
  Forall (λ e, heap σ' !! DotGraphEdge.attribs e = Some ∅ ∧
               (DotGraphEdge.attribs e ∉ dom (heap σ0)) ∧
               ∀ n, n ∈ DotGraph.nodes g →
                    DotGraphEdge.attribs e ≠ DotGraphNode.attribs n)
    (DotGraph.edges g).
Proof.
  intros Hn He E. unfold add_valdoc_nodes in E.
  destruct (add_valdoc_nodes_loop_full api linker context
              (sorted (canonical_name api) docs) g0 ∅ σ0)
    as (σ1 & new & nodes1 & E1 & Hh1 & _ & _ & Hw1 & Hf1 & Ho1 & _ & Hfa
        & _ & _).
  erewrite bind_ret in E by exact E1. cbv beta iota in E.
  apply bind_inv in E as (σ2 & g2 & E2 & E). injection E as <- <- <-.
  apply append_edges_full in E2
    as (es & -> & Hh2 & Hw2 & Hf2 & Ho2 & Hfe & Hes).
  simpl. rewrite Hn, He. simpl.
  split; [by etrans|]. split; [congruence|]. split; [congruence|].
  split; [congruence|]. do 4 (split; [done|]). split; [|split; [done|]].
  - eapply Forall2_impl; [exact Hfa|]. intros d n [H1 H2]. split; [|done].
    by eapply lookup_weaken.
  - apply Forall_forall. intros e Hin.
    rewrite Forall_forall in Hes. destruct (Hes e Hin) as [H1 H2].
    split; [done|]. split.
    + intros Hd. apply H2. apply elem_of_dom in Hd as [x Hx].
      apply elem_of_dom. exists x. by eapply lookup_weaken.
    + intros n Hnin Heq.
      apply list_elem_of_lookup in Hnin as [i Hi].
      destruct (Forall2_lookup_r _ _ _ _ _ Hfa Hi) as (d & _ & Hd & _).
      apply H2. rewrite Heq. apply elem_of_dom. by eexists.
Qed.

Lemma box_defaults_nonempty : box_defaults ≠ ∅.
Proof.
  intros H. apply (f_equal (lookup "shape")) in H. by vm_compute in H.
Qed.

Lemma sametail_defaults_nonempty : sametail_defaults ≠ ∅.
Proof.
  intros H. apply (f_equal (lookup "sametail")) in H. by vm_compute in H.
Qed.

Lemma prelude_inv_full {A} title (k : DotGraph.t → M A) σ σ' a :
  (nd ← new_dict box_defaults;
   ed ← new_dict sametail_defaults;
   graph ← DotGraph.__init__ title EmptyString (Some nd) (Some ed);
   k graph) σ = (σ', Ret a) →
  ∃ g0 σ0,
    k g0 σ0 = (σ', Ret a) ∧
    DotGraph.nodes g0 = [] ∧ DotGraph.edges g0 = [] ∧
    DotGraph.body g0 = EmptyString ∧ DotGraph.title g0 = title ∧
    heap σ ⊆ heap σ0 ∧
    heap σ0 !! DotGraph.node_defaults g0 = Some box_defaults ∧
    heap σ0 !! DotGraph.edge_defaults g0 = Some sametail_defaults ∧
    (DotGraph.node_defaults g0 ∉ dom (heap σ)) ∧
    (DotGraph.edge_defaults g0 ∉ dom (heap σ)) ∧
    DotGraph.node_defaults g0 ≠ DotGraph.edge_defaults g0 ∧
    warnings σ0 = warnings σ ∧ files σ0 = files σ ∧
    open_files σ0 = open_files σ.
Proof.
  intros E.
  apply bind_inv in E as (σ1 & nd & E1 & E).
  apply bind_inv in E as (σ2 & ed & E2 & E).
  apply bind_inv in E as (σ0 & g & Einit & E).
  rewrite new_dict_run in E1. injection E1 as <- <-.
  rewrite new_dict_run in E2. injection E2 as <- <-. simpl in *.
  set (nd := fresh (dom (heap σ))) in *.
  set (ed := fresh (dom (<[nd := box_defaults]> (heap σ)))) in *.
  set (σ2 := set_heap (insert ed sametail_defaults)
               (set_heap (insert nd box_defaults) σ)) in *.
  assert (Hnd : nd ∉ dom (heap σ)) by apply is_fresh.
  assert (Hed : ed ∉ dom (<[nd := box_defaults]> (heap σ))) by apply is_fresh.
  assert (Hne : nd ≠ ed).
  { intros Heq. apply Hed. rewrite <- Heq, dom_insert. set_solver. }
  assert (H2nd : heap σ2 !! nd = Some box_defaults).
  { simpl. rewrite lookup_insert_ne by done. apply lookup_insert_eq. }
  assert (H2ed : heap σ2 !! ed = Some sametail_defaults)
    by (simpl; apply lookup_insert_eq).
  apply init_inv in Einit
    as (σa & σb & Ea & Eb & _ & Hh & _ & Hw & Hf & Ho & Ht & Hb & Hn & He).
  apply or_new_dict_spec in Ea as [Ha _].
  destruct (Ha nd eq_refl) as [Hgnd ->].
  { unfold deref. rewrite (lookup_total_correct _ _ _ H2nd).
    apply box_defaults_nonempty. }
  apply or_new_dict_spec in Eb as [Hb' _].
  destruct (Hb' ed eq_refl) as [Hged ->].
  { unfold deref. rewrite (lookup_total_correct _ _ _ H2ed).
    apply sametail_defaults_nonempty. }
  exists g, σ0. split; [done|]. do 4 (split; [done|]).
  rewrite Hgnd, Hged, Hh. split.
  { simpl. etrans; [apply insert_subseteq, not_elem_of_dom, Hnd|].
    by apply insert_subseteq, not_elem_of_dom. }
  do 2 (split; [done|]). split; [done|]. split.
  { intros Hin. apply Hed. rewrite dom_insert. set_solver. }
  split; [done|]. by rewrite Hw, Hf, Ho.
Qed.

(** What is true of the graph, of the dictionary [nodes] and of the state
    when one of the three builders returns. *)
Lemma built_graph_inv fuel roots linker context options σ σ' g nodes :
  package_tree_graph_with_nodes api fuel roots linker context options σ
  = (σ', Ret (g, nodes)) ∨
  class_tree_graph_with_nodes api fuel roots linker context options σ
  = (σ', Ret (g, nodes)) ∨
  import_graph_with_nodes api roots linker context options σ
  = (σ', Ret (g, nodes)) →
  heap σ ⊆ heap σ' ∧
  warnings σ' = warnings σ ∧ files σ' = files σ ∧
  open_files σ' = open_files σ ∧
  heap σ' !! DotGraph.node_defaults g = Some box_defaults ∧
  heap σ' !! DotGraph.edge_defaults g = Some sametail_defaults ∧
  (DotGraph.node_defaults g ∉ dom (heap σ)) ∧
  (DotGraph.edge_defaults g ∉ dom (heap σ)) ∧
  DotGraph.node_defaults g ≠ DotGraph.edge_defaults g ∧
  (∀ n, n ∈ DotGraph.nodes g →
        (∃ d, heap σ' !! DotGraphNode.attribs n
              = Some (node_attribs api linker context d)) ∧
        (DotGraphNode.attribs n ∉ dom (heap σ)) ∧
        DotGraphNode.attribs n ≠ DotGraph.node_defaults g ∧
        DotGraphNode.attribs n ≠ DotGraph.edge_defaults g) ∧
  (∀ e, e ∈ DotGraph.edges g →
        heap σ' !! DotGraphEdge.attribs e = Some ∅ ∧
        (DotGraphEdge.attribs e ∉ dom (heap σ)) ∧
        DotGraphEdge.attribs e ∉ visited_dicts g).
Proof.
  assert (Hmain : ∀ title default docs
            (pairs : gmap val_doc DotGraphNode.t → list (val_doc * val_doc)),
            (nd ← new_dict box_defaults;
             ed ← new_dict sametail_defaults;
             graph ← DotGraph.__init__ title EmptyString (Some nd) (Some ed);
             (add_valdoc_nodes api (add_rankdir options default graph) docs
                linker context ≫= λ '(graph, nodes),
              append_edges nodes graph (pairs nodes) ≫= λ graph,
              mret (graph, nodes))) σ = (σ', Ret (g, nodes)) →
            heap σ ⊆ heap σ' ∧
            warnings σ' = warnings σ ∧ files σ' = files σ ∧
            open_files σ' = open_files σ ∧
            heap σ' !! DotGraph.node_defaults g = Some box_defaults ∧
            heap σ' !! DotGraph.edge_defaults g = Some sametail_defaults ∧
            (DotGraph.node_defaults g ∉ dom (heap σ)) ∧
            (DotGraph.edge_defaults g ∉ dom (heap σ)) ∧
            DotGraph.node_defaults g ≠ DotGraph.edge_defaults g ∧
            (∀ n, n ∈ DotGraph.nodes g →
                  (∃ d, heap σ' !! DotGraphNode.attribs n
                        = Some (node_attribs api linker context d)) ∧
                  (DotGraphNode.attribs n ∉ dom (heap σ)) ∧
                  DotGraphNode.attribs n ≠ DotGraph.node_defaults g ∧
                  DotGraphNode.attribs n ≠ DotGraph.edge_defaults g) ∧
            (∀ e, e ∈ DotGraph.edges g →
                  heap σ' !! DotGraphEdge.attribs e = Some ∅ ∧
                  (DotGraphEdge.attribs e ∉ dom (heap σ)) ∧
                  DotGraphEdge.attribs e ∉ visited_dicts g)).
  { intros title default docs pairs E.
    apply prelude_inv_full in E
      as (g0 & σ0 & E & Hn & He & _ & _ & Hh0 & Hnd & Hed & Hndf & Hedf & Hne
          & Hw0 & Hf0 & Ho0).
    destruct (add_rankdir_nodes options default g0) as [Hn' He'].
    destruct (add_rankdir_defaults options default g0) as [Hnd' Hed'].
    apply nodes_then_edges_inv in E
      as (Hh & Hw & Hf & Ho & _ & Hgnd & Hged & _ & Hfa & _ & Hes);
      [|congruence|congruence].
    rewrite Hgnd, Hged, Hnd', Hed'.
    assert (Hin0 : ∀ l, l ∈ dom (heap σ) → l ∈ dom (heap σ0)).
    { intros l Hl. apply elem_of_dom in Hl as [x Hx]. apply elem_of_dom.
      exists x. by eapply lookup_weaken. }
    assert (Hnodes : ∀ n, n ∈ DotGraph.nodes g →
              (∃ d, heap σ' !! DotGraphNode.attribs n
                    = Some (node_attribs api linker context d)) ∧
              DotGraphNode.attribs n ∉ dom (heap σ0)).
    { intros n Hin. apply list_elem_of_lookup in Hin as [i Hi].
      destruct (Forall2_lookup_r _ _ _ _ _ Hfa Hi) as (d & _ & Hd & Hfr).
      split; [by exists d|done]. }
    split; [by etrans|]. split; [congruence|]. split; [congruence|].
    split; [congruence|].
    split; [by eapply lookup_weaken|]. split; [by eapply lookup_weaken|].
    do 3 (split; [done|]). split.
    - intros n Hin. destruct (Hnodes n Hin) as [Hd Hfr].
      split; [done|]. split; [by auto|]. split.
      + intros Heq. apply Hfr. rewrite Heq. apply elem_of_dom. by eexists.
      + intros Heq. apply Hfr. rewrite Heq. apply elem_of_dom. by eexists.
    - intros e Hin. rewrite Forall_forall in Hes.
      destruct (Hes e Hin) as (H1 & H2 & H3).
      split; [done|]. split; [by auto|].
      unfold visited_dicts. rewrite Hgnd, Hged, Hnd', Hed'.
      assert (Hno : DotGraphEdge.attribs e
                    ∉ DotGraphNode.attribs <$> DotGraph.nodes g).
      { intros Hl. apply list_elem_of_fmap in Hl as (n & Heq & Hnin).
        by apply (H3 n Hnin). }
      intros Hl. apply elem_of_cons in Hl as [Hl|Hl].
      { apply H2. rewrite Hl. apply elem_of_dom. by eexists. }
      apply elem_of_app in Hl as [Hl|Hl]; [done|].
      apply elem_of_cons in Hl as [Hl|Hl]; [|done].
      apply H2. rewrite Hl. apply elem_of_dom. by eexists. }
  intros [E|[E|E]].
  - unfold package_tree_graph_with_nodes in E.
    destruct (expand _ _ _ _ _) as [[queue seen]|] eqn:Hexp.
    + by apply (Hmain "Package Tree" "LR" (elements seen)
                  (λ _, parent_child_pairs (submodules api) (elements seen))).
    + exfalso. apply bind_inv in E as (? & ? & _ & E).
      apply bind_inv in E as (? & ? & _ & E).
      by apply bind_inv in E as (? & ? & _ & E).
  - unfold class_tree_graph_with_nodes in E.
    destruct (expand _ _ _ _ _) as [[queue seen]|] eqn:Hexp.
    + by apply (Hmain "Class Hierarchy" "LR" (elements seen)
                  (λ _, parent_child_pairs (subclasses api) (elements seen))).
    + exfalso. apply bind_inv in E as (? & ? & _ & E).
      apply bind_inv in E as (? & ? & _ & E).
      by apply bind_inv in E as (? & ? & _ & E).
  - by apply (Hmain "Import Graph" "RL" roots
                (λ nodes, filter (λ p, p.1 ∈ dom nodes ∧ p.2 ∈ dom nodes)
                            (elements (import_edges api roots)))).
Qed.

End built_graphs.

Section built_graph_theorems.
Context (api : APIDoc).

Lemma built_with_nodes fuel roots linker context options σ σ' g :
  package_tree_graph api fuel roots linker context options σ = (σ', Ret g) ∨
  class_tree_graph api fuel roots linker context options σ = (σ', Ret g) ∨
  import_graph api roots linker context options σ = (σ', Ret g) →
  ∃ nodes,
    package_tree_graph_with_nodes api fuel roots linker context options σ
    = (σ', Ret (g, nodes)) ∨
    class_tree_graph_with_nodes api fuel roots linker context options σ
    = (σ', Ret (g, nodes)) ∨
    import_graph_with_nodes api roots linker context options σ
    = (σ', Ret (g, nodes)).
Proof.
  intros [E|[E|E]];
    apply bind_inv in E as (σ1 & [g1 nodes] & E1 & E); injection E as <- <-;
    exists nodes; auto.
Qed.




(** X12.  In a graph that one of the three builders returns, every edge
    has an empty dictionary of its own, made for it and shared with no
    node and with neither set of defaults; so its line in the text of the
    graph is the two node names and the arrow, without a list of
    attributes. *)
Theorem built_edges_have_no_attributes fuel roots linker context options σ σ'
    g :
  package_tree_graph api fuel roots linker context options σ = (σ', Ret g) ∨
  class_tree_graph api fuel roots linker context options σ = (σ', Ret g) ∨
  import_graph api roots linker context options σ = (σ', Ret g) →
  ∀ e, e ∈ DotGraph.edges g →
       deref σ' (DotGraphEdge.attribs e) = ∅ ∧
       (DotGraphEdge.attribs e ∉ dom (heap σ)) ∧
       (DotGraphEdge.attribs e ∉ visited_dicts g) ∧
       DotGraphEdge.to_dotfile σ' e
       = "node" +:+ str_of_nat (DotGraphNode.id (DotGraphEdge.start e))
         +:+ " -> node" +:+ str_of_nat (DotGraphNode.id (DotGraphEdge.end_ e)).
Proof.
  intros E e He. apply built_with_nodes in E as [nodes E].
  apply built_graph_inv in E as (_ & _ & _ & _ & _ & _ & _ & _ & _ & _ & Hes).
  destruct (Hes e He) as (H1 & H2 & H3).
  assert (Hd : deref σ' (DotGraphEdge.attribs e) = ∅)
    by (unfold deref; by rewrite (lookup_total_correct _ _ _ H1)).
  do 3 (split; [done|]).
  unfold DotGraphEdge.to_dotfile, DotGraphNode.join_items.
  rewrite Hd, map_to_list_empty. simpl. by rewrite string_app_nil_r.
Qed.

(** X13.  A graph that one of the three builders returns has default
    dictionaries of its own, which existed in no earlier state and differ
    from each other, from the dictionary of every node and from those of
    the edges: the node defaults are a box of width and height 0, the edge
    defaults are [sametail].  The builder changes no dictionary that
    existed before, logs nothing and touches no file. *)
Theorem built_graph_defaults fuel roots linker context options σ σ' g :
  package_tree_graph api fuel roots linker context options σ = (σ', Ret g) ∨
  class_tree_graph api fuel roots linker context options σ = (σ', Ret g) ∨
  import_graph api roots linker context options σ = (σ', Ret g) →
  deref σ' (DotGraph.node_defaults g) = box_defaults ∧
  deref σ' (DotGraph.edge_defaults g) = sametail_defaults ∧
  (DotGraph.node_defaults g ∉ dom (heap σ)) ∧
  (DotGraph.edge_defaults g ∉ dom (heap σ)) ∧
  DotGraph.node_defaults g ≠ DotGraph.edge_defaults g ∧
  (∀ n, n ∈ DotGraph.nodes g →
        DotGraphNode.attribs n ≠ DotGraph.node_defaults g ∧
        DotGraphNode.attribs n ≠ DotGraph.edge_defaults g) ∧
  heap σ ⊆ heap σ' ∧
  warnings σ' = warnings σ ∧ files σ' = files σ ∧
  open_files σ' = open_files σ.
Proof.
  intros E. apply built_with_nodes in E as [nodes E].
  apply built_graph_inv in E
    as (Hh & Hw & Hf & Ho & Hnd & Hed & Hndf & Hedf & Hne & Hns & _).
  unfold deref.
  rewrite (lookup_total_correct _ _ _ Hnd), (lookup_total_correct _ _ _ Hed).
  do 5 (split; [done|]). split; [|done].
  intros n Hn. by destruct (Hns n Hn) as (_ & _ & ? & ?).
Qed.

Lemma node_attribs_resolved linker context d :
  (∀ d url, truthy (url_for linker (ByDoc d)) = Some url →
            match_placeholder url = None) →
  resolved (node_attribs api linker context d).
Proof.
  intros Hurls. unfold resolved, node_attribs. cbv zeta. case_bool_decide.
  - rewrite lookup_union_r by (by vm_compute).
    by rewrite lookup_singleton_ne.
  - destruct (truthy _) as [url|] eqn:Eu.
    + rewrite lookup_insert_eq. by eapply Hurls.
    + by rewrite lookup_singleton_ne.
Qed.

(** X14.  The builders leave nothing for [link] to do.  When the linker
    with which the graph was built answers for no object with a text of
    the form of a placeholder, and the body, that is the direction given
    in the options, holds no placeholder, then [link], with any linker,
    returns the graph as it is and changes nothing in the state. *)
Theorem link_after_build_changes_nothing fuel roots linker context options σ
    σ' g linker' :
  package_tree_graph api fuel roots linker context options σ = (σ', Ret g) ∨
  class_tree_graph api fuel roots linker context options σ = (σ', Ret g) ∨
  import_graph api roots linker context options σ = (σ', Ret g) →
  (∀ d url, truthy (url_for linker (ByDoc d)) = Some url →
            match_placeholder url = None) →
  href_occurs (DotGraph.body g) = false →
  DotGraph.link g linker' σ' = (σ', Ret g).
Proof.
  intros E Hurls Hbody. apply built_with_nodes in E as [nodes E].
  apply built_graph_inv in E
    as (_ & _ & _ & _ & Hnd & Hed & _ & _ & _ & Hns & _).
  rewrite link_visits. erewrite bind_ret.
  2:{ apply for_each_resolved. intros l Hl. unfold visited_dicts in Hl.
      assert (Hnodes : ∀ l, l ∈ DotGraphNode.attribs <$> DotGraph.nodes g →
                            resolved (deref σ' l)).
      { intros l' Hl'. apply list_elem_of_fmap in Hl' as (n & -> & Hn).
        destruct (Hns n Hn) as [[d Hd] _]. unfold deref.
        rewrite (lookup_total_correct _ _ _ Hd).
        by apply node_attribs_resolved. }
      apply elem_of_cons in Hl as [->|Hl].
      { unfold deref. by rewrite (lookup_total_correct _ _ _ Hnd). }
      apply elem_of_app in Hl as [Hl|Hl]; [by apply Hnodes|].
      apply elem_of_cons in Hl as [->|Hl]; [|by apply Hnodes].
      unfold deref. by rewrite (lookup_total_correct _ _ _ Hed). }
  unfold re_sub_href. rewrite re_sub_href_fuel_no_match by done.
  by destruct g.
Qed.

End built_graph_theorems.


Lemma built_edges_have_no_attributes_witness :
  ∃ σ' g,
    package_tree_graph package_api 4 [0] no_linker None ∅ initial_state
    = (σ', Ret g) ∧
    ∀ e, e ∈ DotGraph.edges g → deref σ' (DotGraphEdge.attribs e) = ∅.
Proof.
  eexists _, _. split; [vm_compute; reflexivity|]. intros e He.
  eapply (built_edges_have_no_attributes package_api 4 [0] no_linker None ∅
            initial_state); [|exact He].
  left. vm_compute. reflexivity.
Defined.

Lemma built_graph_defaults_witness :
  ∃ σ' g,
    import_graph import_api [0; 1; 2] no_linker None ∅ initial_state
    = (σ', Ret g) ∧
    deref σ' (DotGraph.node_defaults g) = box_defaults.
Proof.
  eexists _, _. split; [vm_compute; reflexivity|].
  eapply (built_graph_defaults import_api 0 [0; 1; 2] no_linker None ∅
            initial_state).
  right. right. vm_compute. reflexivity.
Defined.

Lemma link_after_build_changes_nothing_witness :
  ∃ σ' g,
    package_tree_graph package_api 4 [0] no_linker None ∅ initial_state
    = (σ', Ret g) ∧
    DotGraph.link g html_linker σ' = (σ', Ret g).
Proof.
  eexists _, _. split; [vm_compute; reflexivity|].
  eapply (link_after_build_changes_nothing package_api 4 [0] no_linker None ∅
            initial_state).
  - left. vm_compute. reflexivity.
  - intros d url. simpl. done.
  - by vm_compute.
Defined.

(** ** The order of the nodes *)

Lemma ascii_compare_refl c : Ascii.compare c c = Eq.
Proof. unfold Ascii.compare. apply N.compare_refl. Qed.

Lemma string_compare_refl s : String.compare s s = Eq.
Proof.
  induction s as [|c s IH]; [done|]. simpl. by rewrite ascii_compare_refl.
Qed.

Lemma ascii_compare_lt_trans a b c :
  Ascii.compare a b = Lt → Ascii.compare b c = Lt → Ascii.compare a c = Lt.
Proof.
  unfold Ascii.compare. rewrite !N.compare_lt_iff. lia.
Qed.

Lemma string_compare_lt_trans s1 : ∀ s2 s3,
  String.compare s1 s2 = Lt → String.compare s2 s3 = Lt →
  String.compare s1 s3 = Lt.
Proof.
  induction s1 as [|a s1 IH]; intros [|b s2] [|c s3]; simpl; try done.
  destruct (Ascii.compare a b) eqn:Eab; [|..|done].
  - apply Ascii.compare_eq_iff in Eab as ->.
    destruct (Ascii.compare b c); [apply IH|done|done].
  - intros _. destruct (Ascii.compare b c) eqn:Ebc; [|..|done].
    + apply Ascii.compare_eq_iff in Ebc as <-. by rewrite Eab.
    + by rewrite (ascii_compare_lt_trans a b c).
Qed.

Lemma name_leb_refl a : name_leb a a = true.
Proof.
  induction a as [|x a IH]; [done|]. simpl. by rewrite string_compare_refl.
Qed.

Lemma name_leb_total a : ∀ b, name_leb a b = true ∨ name_leb b a = true.
Proof.
  induction a as [|x a IH]; intros [|y b]; simpl; auto.
  rewrite (String.compare_antisym y x).
  destruct (String.compare x y); simpl; auto.
Qed.

Lemma name_leb_trans a : ∀ b c,
  name_leb a b = true → name_leb b c = true → name_leb a c = true.
Proof.
  induction a as [|x a IH]; intros [|y b] [|z c]; simpl; try done.
  destruct (String.compare x y) eqn:Exy; [|..|done].
  - apply String.compare_eq_iff in Exy as ->.
    destruct (String.compare y z); [apply IH|done|done].
  - intros _. destruct (String.compare y z) eqn:Eyz; [|..|done].
    + apply String.compare_eq_iff in Eyz as <-. by rewrite Exy.
    + by rewrite (string_compare_lt_trans x y z).
Qed.

Lemma name_leb_antisym a : ∀ b,
  name_leb a b = true → name_leb b a = true → a = b.
Proof.
  induction a as [|x a IH]; intros [|y b]; simpl; try done.
  rewrite (String.compare_antisym y x).
  destruct (String.compare x y) eqn:E; simpl; try done.
  apply String.compare_eq_iff in E as ->. intros H1 H2. f_equal. by apply IH.
Qed.

Lemma insert_sorted_sorted {A} (key : A → DottedName) x l :
  StronglySorted (name_le key) l →
  StronglySorted (name_le key) (insert_sorted key x l).
Proof.
  induction 1 as [|y l Hl IH Hy]; simpl; [by repeat constructor|].
  destruct (name_leb (key x) (key y)) eqn:E.
  - constructor; [by constructor|]. constructor; [done|].
    eapply Forall_impl; [exact Hy|]. intros z Hz. unfold name_le in *.
    by eapply name_leb_trans.
  - constructor; [done|].
    rewrite insert_sorted_perm. constructor; [|done]. unfold name_le.
    destruct (name_leb_total (key x) (key y)); congruence.
Qed.

Lemma sorted_sorted {A} (key : A → DottedName) l :
  StronglySorted (name_le key) (sorted key l).
Proof.
  unfold sorted. induction l as [|x l IH]; simpl; [constructor|].
  by apply insert_sorted_sorted.
Qed.

Lemma sorted_unique {A} (key : A → DottedName) (l1 l2 : list A) :
  (∀ x y, key x = key y → x = y) →
  StronglySorted (name_le key) l1 → StronglySorted (name_le key) l2 →
  l1 ≡ₚ l2 → l1 = l2.
Proof.
  intros Hinj H1. revert l2. induction H1 as [|x l1 Hl1 IH Hx]; intros l2 H2 Hp.
  - by apply Permutation_nil_l in Hp.
  - destruct H2 as [|y l2 Hl2 Hy].
    + by apply Permutation_nil_r in Hp.
    + assert (x = y) as ->.
      { assert (Hxin : x ∈ y :: l2) by (rewrite <- Hp; by left).
        assert (Hyin : y ∈ x :: l1) by (rewrite Hp; by left).
        apply elem_of_cons in Hxin as [->|Hxin]; [done|].
        apply elem_of_cons in Hyin as [->|Hyin]; [done|].
        rewrite Forall_forall in Hx, Hy.
        apply Hinj. apply name_leb_antisym; [by apply Hx|by apply Hy]. }
      f_equal. apply IH; [done|]. by apply Permutation_cons_inv in Hp.
Qed.

(** X15.  The numbering of the nodes does not depend on the order in
    which the objects come, which for the set of a tree builder is the
    order of its iteration: [add_valdoc_nodes] takes them in the order of
    their canonical names, each name at most as great as the names after
    it, so that, when different objects have different canonical names,
    two calls on the same objects in different orders do the same and
    return the same. *)
Theorem add_valdoc_nodes_order_is_irrelevant (api : APIDoc) linker context
    docs1 docs2 g σ :
  StronglySorted (name_le (canonical_name api))
    (sorted (canonical_name api) docs1) ∧
  ((∀ d d', canonical_name api d = canonical_name api d' → d = d') →
   docs1 ≡ₚ docs2 →
   sorted (canonical_name api) docs1 = sorted (canonical_name api) docs2 ∧
   add_valdoc_nodes api g docs1 linker context σ
   = add_valdoc_nodes api g docs2 linker context σ).
Proof.
  split; [apply sorted_sorted|]. intros Hinj Hp.
  assert (Heq : sorted (canonical_name api) docs1
                = sorted (canonical_name api) docs2).
  { apply (sorted_unique (canonical_name api)); [done|apply sorted_sorted..|].
    by rewrite !sorted_perm. }
  split; [done|]. unfold add_valdoc_nodes. by rewrite Heq.
Qed.

Lemma add_valdoc_nodes_order_is_irrelevant_witness :
  add_valdoc_nodes diamond_api empty_graph [3; 1; 2; 0] no_linker None
    initial_state
  = add_valdoc_nodes diamond_api empty_graph [0; 1; 2; 3] no_linker None
      initial_state.
Proof.
  apply (proj2 (add_valdoc_nodes_order_is_irrelevant diamond_api no_linker None
                  [3; 1; 2; 0] [0; 1; 2; 3] empty_graph initial_state)).
  - intros d d' [= H]. by apply str_of_nat_inj.
  - apply (NoDup_Permutation [3; 1; 2; 0] [0; 1; 2; 3]).
    + repeat (constructor; [set_solver|]). constructor.
    + repeat (constructor; [set_solver|]). constructor.
    + intros x. set_solver.
Defined.

(** ** The lines of the nodes *)

Lemma all_digits_str_of_nat n : all_chars is_digit (str_of_nat n) = true.
Proof.
  unfold str_of_nat. induction (Nat.to_uint n); simpl; done.
Qed.

Lemma digits_split a : ∀ b t1 t2,
  all_chars is_digit a = true → all_chars is_digit b = true →
  match t1 with String c _ => is_digit c = false | EmptyString => True end →
  match t2 with String c _ => is_digit c = false | EmptyString => True end →
  a +:+ t1 = b +:+ t2 → a = b.
Proof.
  induction a as [|x a IH]; intros [|y b] t1 t2 Ha Hb H1 H2 E.
  - done.
  - change (t1 = String y (b +:+ t2)) in E. subst t1.
    change (is_digit y && all_chars is_digit b = true) in Hb.
    apply andb_true_iff in Hb as [Hy _]. cbv iota in H1. congruence.
  - change (String x (a +:+ t1) = t2) in E. subst t2.
    change (is_digit x && all_chars is_digit a = true) in Ha.
    apply andb_true_iff in Ha as [Hx _]. cbv iota in H2. congruence.
  - rewrite !string_app_cons in E. injection E as -> E. f_equal.
    change (is_digit y && all_chars is_digit a = true) in Ha.
    change (is_digit y && all_chars is_digit b = true) in Hb.
    apply andb_true_iff in Ha as [_ Ha].
    apply andb_true_iff in Hb as [_ Hb]. by apply (IH b t1 t2).
Qed.

Lemma node_to_dotfile_shape σ n :
  ∃ t, DotGraphNode.to_dotfile σ n
       = "node" +:+ str_of_nat (DotGraphNode.id n) +:+ t ∧
       match t with
       | String c _ => is_digit c = false
       | EmptyString => True
       end.
Proof.
  unfold DotGraphNode.to_dotfile. cbv zeta. case_bool_decide as Hj.
  - exists EmptyString. by rewrite Hj.
  - by eexists (" [" +:+ _ +:+ "]").
Qed.

(** X16.  The line of a node in the text of a graph starts with the name
    node<id>; a node without attributes has nothing after it, not even the
    brackets; and the lines of two nodes with different ids differ,
    whatever their attributes are. *)
Theorem node_lines_tell_ids_apart σ σ' n1 n2 :
  (deref σ (DotGraphNode.attribs n1) = ∅ →
   DotGraphNode.to_dotfile σ n1 = "node" +:+ str_of_nat (DotGraphNode.id n1)) ∧
  (DotGraphNode.to_dotfile σ n1 = DotGraphNode.to_dotfile σ' n2 →
   DotGraphNode.id n1 = DotGraphNode.id n2).
Proof.
  split.
  - intros Hd. unfold DotGraphNode.to_dotfile, DotGraphNode.join_items.
    rewrite Hd, map_to_list_empty. simpl. by rewrite string_app_nil_r.
  - destruct (node_to_dotfile_shape σ n1) as (t1 & -> & H1).
    destruct (node_to_dotfile_shape σ' n2) as (t2 & -> & H2).
    intros E. apply (append_inj_r "node") in E. apply str_of_nat_inj.
    eapply digits_split; [apply all_digits_str_of_nat..| | |exact E]; done.
Qed.

Lemma node_lines_tell_ids_apart_witness :
  DotGraphNode.to_dotfile edge_href_state (DotGraphNode.mk 0 7) = "node7".
Proof.
  apply (proj1 (node_lines_tell_ids_apart edge_href_state edge_href_state
                  (DotGraphNode.mk 0 7) (DotGraphNode.mk 0 7))).
  reflexivity.
Defined.

(** ** The text of the edges after [link] *)

(** X17.  [link] leaves the lines of the edges in the text of the graph as
    they were: when it returns, the graph has the edges it had, and each
    edge that has a dictionary of its own prints after the call what it
    printed before, a placeholder under its [href] included, whatever the
    other edges share. *)
Theorem link_keeps_edge_lines self linker σ σ' g :
  DotGraph.link self linker σ = (σ', Ret g) →
  DotGraph.edges g = DotGraph.edges self ∧
  ∀ e, e ∈ DotGraph.edges self → owns_attribs self e →
       DotGraphEdge.to_dotfile σ' e = DotGraphEdge.to_dotfile σ e.
Proof.
  intros E.
  destruct (link_frame self linker σ σ' (Ret g) E) as [[_ Hframe] Hg].
  split; [by rewrite (Hg g eq_refl)|]. intros e He Hown.
  unfold DotGraphEdge.to_dotfile, deref.
  by rewrite !lookup_total_alt, Hframe by done.
Qed.

Lemma link_keeps_edge_lines_witness :
  DotGraphEdge.to_dotfile edge_href_linked
    (DotGraphEdge.mk (DotGraphNode.mk 2 0) (DotGraphNode.mk 3 1) 4)
  = "node0 -> node1 [href=" +:+ dquote +:+ "<a>" +:+ dquote +:+ "]".
Proof.
  rewrite (proj2 (link_keeps_edge_lines edge_href_graph index_linker
                    edge_href_state edge_href_linked edge_href_graph
                    eq_refl)).
  - by vm_compute.
  - by left.
  - unfold owns_attribs, visited_dicts. simpl. intros Hin.
    repeat (apply elem_of_cons in Hin as [Hin|Hin]; [done|]).
    by apply elem_of_nil in Hin.
Defined.

Lemma add_valdoc_nodes_attributes_witness :
  ∃ σ' new nodes,
    add_valdoc_nodes package_api empty_graph [2; 0; 1] no_linker (Some 0)
      initial_state
    = (σ', Ret (DotGraph.set_nodes (DotGraph.nodes empty_graph ++ new)
                  empty_graph, nodes)) ∧
    DotGraphNode.id <$> new = [0; 1; 2].
Proof.
  destruct (add_valdoc_nodes_attributes package_api no_linker (Some 0)
              [2; 0; 1] empty_graph initial_state)
    as (σ' & new & nodes & E & Hids & _).
  by exists σ', new, nodes.
Defined.
